(** * Morning report pipeline: orchestration, session scoping, merge and fallback

    A shallow embedding of the run driver
    ([src/core/cli/run_morning_snapshot.py]), the session factory
    ([src/core/stagehand_runner.py]) and the two Vital Knowledge connectors
    ([src/skills/vital_knowledge/research.py], [macro_news.py]).

    Coroutines are embedded as finite trees of external operations
    ([prog]): every [await] on the browser, every [print], every read of the
    environment is a node whose answer is chosen by the outside world. A
    run of a coroutine is a path through its tree ([runs]); the event loop
    of [asyncio.gather] is a step relation that interleaves the trees of the
    tasks ([step]). Exceptions are the subclasses of [Exception]: the
    [except Exception] clauses of the source catch exactly those. *)

From Stdlib Require Import ZArith Lia.
From stdpp Require Import base option list strings gmap pretty.

(** ** Python values shared by all the modules *)

Record exn := Exn { exn_class : string; exn_msg : string }.

(** What a call that may raise gives back. *)
Inductive result (A : Type) : Type :=
| Ok (a : A)
| Raised (e : exn).
Arguments Ok {A} a.
Arguments Raised {A} e.

Definition nl : string := String (Ascii.ascii_of_nat 10) "".

(** [sep.join(l)]. *)
Fixpoint join (sep : string) (l : list string) : string :=
  match l with
  | [] => ""
  | [s] => s
  | s :: l' => s +:+ sep +:+ join sep l'
  end.

(** [str.upper()] and [str.lower()] on the ASCII letters, the alphabet of
    ticker symbols and of the configuration values. *)
Definition upper_ascii (c : Ascii.ascii) : Ascii.ascii :=
  let n := Ascii.nat_of_ascii c in
  if (97 <=? n) && (n <=? 122) then Ascii.ascii_of_nat (n - 32) else c.

Definition lower_ascii (c : Ascii.ascii) : Ascii.ascii :=
  let n := Ascii.nat_of_ascii c in
  if (65 <=? n) && (n <=? 90) then Ascii.ascii_of_nat (n + 32) else c.

Fixpoint map_string (f : Ascii.ascii -> Ascii.ascii) (s : string) : string :=
  match s with
  | EmptyString => EmptyString
  | String c s' => String (f c) (map_string f s')
  end.

Definition upper (s : string) : string := map_string upper_ascii s.
Definition lower (s : string) : string := map_string lower_ascii s.

(** [sub in s]. *)
Fixpoint contains (sub s : string) : bool :=
  String.prefix sub s ||
  match s with
  | EmptyString => false
  | String _ s' => contains sub s'
  end.

(** [s.split(sep)] for a non-empty separator: [skip] counts the characters
    of a separator just matched that are still to be dropped, [cur] is the
    piece being read, kept reversed. *)
Fixpoint split_go (sep : string) (skip : nat) (cur : string) (s : string)
  : list string :=
  match s with
  | EmptyString => [String.rev cur]
  | String c s' =>
      match skip with
      | S n => split_go sep n cur s'
      | O =>
          if String.prefix sep s
          then String.rev cur :: split_go sep (String.length sep - 1) "" s'
          else split_go sep O (String c cur) s'
      end
  end.

Definition split (sep s : string) : list string := split_go sep 0 "" s.

(** ** Pydantic models of the sources at hand *)

(** [Literal["positive", "negative", "neutral"]] *)
Inductive sentiment := positive | negative | neutral.

(** [Literal["bullish", "bearish", "mixed", "neutral"]] *)
Inductive overall_sentiment := bullish | bearish | mixed | overall_neutral.

Record VitalKnowledgeHeadline := {
  vkh_headline : string;
  vkh_context : option string;
  vkh_sentiment : option sentiment;
}.

Record VitalKnowledgeSummary := {
  vks_overall_sentiment : option overall_sentiment;
  vks_key_themes : list string;
  vks_summary : option string;
}.

Record VitalKnowledgeReport := {
  vk_ticker : string;
  vk_headlines : list VitalKnowledgeHeadline;
  vk_report_dates : list string;
  vk_summary : option VitalKnowledgeSummary;
}.

(** [VitalKnowledgeReport(ticker=t)]: the other fields take their defaults. *)
Definition VitalKnowledgeReport_default (t : string) : VitalKnowledgeReport :=
  {| vk_ticker := t; vk_headlines := []; vk_report_dates := [];
     vk_summary := None |}.

Record ExtractedBullets := { eb_bullets : list string }.

Record CombinedBullets := { top_bullets : list string }.

Record MacroNewsSummary := {
  morning_date : option string;
  morning_url : option string;
  morning_summary : option string;
  morning_bullets : list string;
  market_close_date : option string;
  market_close_url : option string;
  market_close_summary : option string;
  market_close_bullets : list string;
}.

(** [MacroNewsSummary()] *)
Definition MacroNewsSummary_default : MacroNewsSummary :=
  {| morning_date := None; morning_url := None; morning_summary := None;
     morning_bullets := [];
     market_close_date := None; market_close_url := None;
     market_close_summary := None; market_close_bullets := [] |}.

Record MacroExtract := { me_summary : string; me_bullets : list string }.

Record GoogleNewsStory := {
  gns_headline : string;
  gns_url : string;
  gns_source : option string;
  gns_age : option string;
  gns_summary : option string;
  gns_sentiment : option sentiment;
}.

Record GoogleNewsSummary := {
  gsum_overall_sentiment : option overall_sentiment;
  gsum_bullet_points : list string;
}.

Record GoogleNewsTopStories := {
  gn_ticker : string;
  gn_stories : list GoogleNewsStory;
  gn_news_summary : option GoogleNewsSummary;
}.

(** [YahooAIAnalysis] is declared in [src/skills/yahoo/research.py], which
    is not among the sources; its fields are those the driver passes to
    its constructor. *)
Record YahooAIAnalysis := {
  ya_ticker : string;
  ya_title : option string;
  ya_summary : option string;
  ya_bullets : list string;
}.

(** ** The browser session *)

(** A [Stagehand] object, and [stagehand.page]. *)
Record Stagehand := { stagehand_id : nat }.
Record Page := { page_of : Stagehand }.

(** A value of the [browser_settings] dict. *)
Inductive setting := SetBool (b : bool) | SetStr (s : string).

Record StagehandConfig := {
  cfg_env : string;
  cfg_api_key : option string;
  cfg_project_id : option string;
  cfg_model_name : string;
  cfg_model_api_key : option string;
  cfg_verbose : Z;
  cfg_dom_settle_timeout_ms : Z;
  cfg_self_heal : bool;
  cfg_browser_settings : option (list (string * setting));
  cfg_proxies : bool;
}.

(** The prompts given to [page.extract]: one constructor per template of
    the source, with the values interpolated into it. *)
Inductive instruction :=
| TickerMorningBullets (ticker : string)
| TickerMarketCloseBullets (ticker : string)
| CombineBullets (ticker : string) (all_bullets : list string)
| SummariseBullets (ticker : string) (bullets_text : string)
| MacroMorning
| MacroMarketClose.

(** The [schema=] argument of [page.extract], and the class it stands for. *)
Inductive schema :=
| SExtractedBullets | SCombinedBullets | SVitalKnowledgeSummary | SMacroExtract.

Definition schema_type (s : schema) : Type :=
  match s with
  | SExtractedBullets => ExtractedBullets
  | SCombinedBullets => CombinedBullets
  | SVitalKnowledgeSummary => VitalKnowledgeSummary
  | SMacroExtract => MacroExtract
  end.

(** The four per-ticker connectors. *)
Inductive source := YahooQuote | YahooAI | MarketWatch | GoogleNews.

Set Default Proof Using "Type".

(** ** What the sources at hand do not declare

    The models [YahooQuoteSnapshot] ([src/skills/yahoo/quote.py]) and
    [MarketWatchTopStories] ([src/skills/marketwatch/research.py]) are
    imported by the driver but declared elsewhere: the driver is read for
    every choice of them. *)
Class Elsewhere := {
  YahooQuoteSnapshot : Type;
  MarketWatchTopStories : Type;
}.

(** So are the functions the driver calls on them. What it reads from a
    [MarketWatchTopStories] is [len(mw.stories) if mw.stories else 0].
    [int_of_string] is Python's [int(str)], [None] standing for
    [ValueError]. The report builder ([src/core/report_builder.py]) gets
    the date and, for each ticker, the tuple of its quote, its analysis
    and its three optional payloads. *)
Class Library {elsewhere : Elsewhere} := {
  mw_stories_len : MarketWatchTopStories -> nat;
  int_of_string : string -> option Z;
  build_morning_report :
    string ->
    list (YahooQuoteSnapshot * YahooAIAnalysis * option MarketWatchTopStories
          * option GoogleNewsTopStories * option VitalKnowledgeReport) ->
    option MacroNewsSummary -> result string;
}.

Section Pipeline.

Context {elsewhere : Elsewhere} {library : Library}.

Definition payload (s : source) : Type :=
  match s with
  | YahooQuote => YahooQuoteSnapshot
  | YahooAI => YahooAIAnalysis
  | MarketWatch => MarketWatchTopStories
  | GoogleNews => GoogleNewsTopStories
  end.

(** The dict [process_ticker] returns. [model_dump()] of a model is the
    dict of its fields and the constructor called on that dict gives the
    model back: a dumped payload is the payload. Every model here has a
    field, so its dump is a non-empty dict and is truthy: a test such as
    [if not item.get(key)] holds when the slot is [None] and only then. *)
Record item := {
  item_ticker : string;
  item_error : option string;
  item_quote : option YahooQuoteSnapshot;
  item_analysis : option YahooAIAnalysis;
  item_marketwatch : option MarketWatchTopStories;
  item_googlenews : option GoogleNewsTopStories;
  item_vital_knowledge : option VitalKnowledgeReport;
}.

(** The tuple the report builder gets for one ticker. *)
Definition typed_item : Type :=
  YahooQuoteSnapshot * YahooAIAnalysis * option MarketWatchTopStories
  * option GoogleNewsTopStories * option VitalKnowledgeReport.

(** What is written to disk: the JSON snapshots before [json.dumps], and
    the Markdown report. *)
Inductive artifact :=
| YahooSnapshot (as_of : string)
    (tickers : list (string * option string * option YahooQuoteSnapshot
                     * option YahooAIAnalysis))
| MarketWatchSnapshot (as_of : string)
    (tickers : list (string * option string * option MarketWatchTopStories))
| GoogleNewsSnapshot (as_of : string)
    (tickers : list (string * option string * option GoogleNewsTopStories))
| VitalKnowledgeSnapshot (as_of : string)
    (tickers : list (string * option string * option VitalKnowledgeReport))
| MacroNewsSnapshot (as_of : string) (macro_news : option MacroNewsSummary)
| Markdown (text : string).

(** ** Operations on the outside world

    Each constructor is one call that leaves the program: its arguments
    are the arguments of the call, [resp] is what comes back. The calls
    into the browser may raise. *)
Inductive op : Type :=
| Print (line : string)
| Getenv (name : string)
| Now (fmt : string)
| Sleep (seconds : nat)
| Acquire
| Release
| NewStagehand (config : StagehandConfig)
| Init (stagehand : Stagehand)
| Close (stagehand : Stagehand)
| Fetch (s : source) (page : Page) (ticker : string)
        (kwargs : list (string * Z))
| Goto (page : Page) (url : string) (timeout : Z)
| Act (page : Page) (action : string)
| ActObserved (page : Page) (element : string)
| WaitForLoadState (page : Page) (timeout : Z)
| Url (page : Page)
| Extract (page : Page) (i : instruction) (sch : schema)
| Observe (page : Page) (query : string)
| WriteText (path : string) (content : artifact).

Definition resp (o : op) : Type :=
  match o with
  | Print _ => unit
  | Getenv _ => option string
  | Now _ => string
  | Sleep _ => unit
  | Acquire => unit
  | Release => unit
  | NewStagehand _ => result Stagehand
  | Init _ => result unit
  | Close _ => result unit
  | Fetch s _ _ _ => result (option (payload s))
  | Goto _ _ _ => result unit
  | Act _ _ => result unit
  | ActObserved _ _ => result unit
  | WaitForLoadState _ _ => result unit
  | Url _ => string
  | Extract _ _ sch => result (option (schema_type sch))
  | Observe _ _ => result (list string)
  | WriteText _ _ => result unit
  end.

(** ** Coroutines *)

Inductive prog (A : Type) : Type :=
| Ret (a : A)
| Throw (e : exn)
| Op (o : op) (k : resp o -> prog A).
Arguments Ret {A} a.
Arguments Throw {A} e.
Arguments Op {A} o k.

Fixpoint bind {A B : Type} (p : prog A) (f : A -> prog B) : prog B :=
  match p with
  | Ret a => f a
  | Throw e => Throw e
  | Op o k => Op o (fun r => bind (k r) f)
  end.

#[export] Instance prog_ret : MRet prog := @Ret.
#[export] Instance prog_bind : MBind prog := fun A B f p => bind p f.
#[export] Instance prog_fmap : FMap prog :=
  fun A B f p => bind p (fun a => Ret (f a)).

(** [try: p / except Exception as e: h e] *)
Fixpoint try_except {A : Type} (p : prog A) (h : exn -> prog A) : prog A :=
  match p with
  | Ret a => Ret a
  | Throw e => h e
  | Op o k => Op o (fun r => try_except (k r) h)
  end.

(** [try: p / finally: fin]. An exception of [fin] replaces the outcome
    of [p]. *)
Fixpoint try_finally {A : Type} (p : prog A) (fin : prog unit) : prog A :=
  match p with
  | Ret a => bind fin (fun _ => Ret a)
  | Throw e => bind fin (fun _ => Throw e)
  | Op o k => Op o (fun r => try_finally (k r) fin)
  end.

(** The outcome of [p] as a value: how a [try] block hands its result, or
    the exception that left it, to the [except] and [finally] clauses. *)
Definition attempt {A : Type} (p : prog A) : prog (result A) :=
  try_except (bind p (fun a => Ret (Ok a))) (fun e => Ret (Raised e)).

(** A call that answers directly. *)
Definition ask (o : op) : prog (resp o) := Op o Ret.

(** A call that answers or raises. *)
Definition call {A : Type} (o : op) (cast : resp o -> result A) : prog A :=
  Op o (fun r => match cast r with Ok a => Ret a | Raised e => Throw e end).

Definition print (line : string) : prog unit := ask (Print line).
Definition getenv (name : string) : prog (option string) := ask (Getenv name).
Definition now (fmt : string) : prog string := ask (Now fmt).
Definition sleep (seconds : nat) : prog unit := ask (Sleep seconds).
Definition page_url (page : Page) : prog string := ask (Url page).
Definition goto (page : Page) (url : string) (timeout : Z) : prog unit :=
  call (Goto page url timeout) id.
Definition act (page : Page) (action : string) : prog unit :=
  call (Act page action) id.
Definition act_observed (page : Page) (element : string) : prog unit :=
  call (ActObserved page element) id.
Definition wait_for_load_state (page : Page) (timeout : Z) : prog unit :=
  call (WaitForLoadState page timeout) id.
Definition extract (page : Page) (i : instruction) (sch : schema)
  : prog (option (schema_type sch)) :=
  call (Extract page i sch) id.
Definition observe (page : Page) (query : string) : prog (list string) :=
  call (Observe page query) id.
Definition write_text (path : string) (content : artifact) : prog unit :=
  call (WriteText path content) id.

(** [async with sem: body] *)
Definition with_sem {A : Type} (body : prog A) : prog A :=
  ask Acquire ;; try_finally body (ask Release).

(** [for x in l: body x], threading the variables the body assigns. *)
Fixpoint for_each {A S : Type} (l : list A) (body : A -> S -> prog S) (s : S)
  : prog S :=
  match l with
  | [] => Ret s
  | x :: l' => s' ← body x s; for_each l' body s'
  end.

(** ** Runs

    One event per call, with the answer it got. A run of [p] is a path
    from the root of [p] to a leaf: the calls made, in order, and the
    value returned or the exception raised. *)
Record event := Ev { ev_op : op; ev_resp : resp ev_op }.

Fixpoint runs {A : Type} (p : prog A) (tr : list event) (res : result A)
  : Prop :=
  match p with
  | Ret a => tr = [] ∧ res = Ok a
  | Throw e => tr = [] ∧ res = Raised e
  | Op o k => ∃ r tr', tr = Ev o r :: tr' ∧ runs (k r) tr' res
  end.

(** The lines printed along a run. *)
Definition printed (e : event) : option string :=
  match ev_op e with
  | Print line => Some line
  | _ => None
  end.

Definition log (tr : list event) : list string := omap printed tr.

(** The outside world as a function: the answer to call number [n]. *)
Definition world := nat -> forall o : op, resp o.

Fixpoint exec_from {A : Type} (w : world) (n : nat) (p : prog A)
  : list event * result A :=
  match p with
  | Ret a => ([], Ok a)
  | Throw e => ([], Raised e)
  | Op o k =>
      let r := w n o in
      let '(tr, res) := exec_from w (S n) (k r) in
      (Ev o r :: tr, res)
  end.

Definition exec {A : Type} (w : world) (p : prog A) : list event * result A :=
  exec_from w 0 p.

(** ** [src/core/stagehand_runner.py] *)

(** [os.getenv(name, default)] *)
Definition getenv_default (name default : string) : prog string :=
  v ← getenv name; mret (from_option id default v).

(** [int(s)] *)
Definition int (s : string) : prog Z :=
  match int_of_string s with
  | Some z => mret z
  | None =>
      Throw (Exn "ValueError"
               ("invalid literal for int() with base 10: '" +:+ s +:+ "'"))
  end.

(** [bool(s)] for an optional string. *)
Definition truthy_str (s : option string) : bool :=
  match s with
  | Some (String _ _) => true
  | _ => false
  end.

Definition in_strings (s : string) (l : list string) : bool :=
  bool_decide (s ∈ l).

Definition create_stagehand_session : prog (Stagehand * Page) :=
  model_name ← getenv_default "STAGEHAND_MODEL_NAME" "gpt-4.1-mini";
  let browser_settings : list (string * setting) := [] in
  advanced ← getenv_default "BROWSERBASE_ADVANCED_STEALTH" "false";
  browser_settings ←
    (if in_strings (lower advanced) ["true"; "1"; "yes"] then
       print "[Stagehand] Advanced Stealth Mode enabled (requires Scale Plan)";;
       mret (browser_settings ++ [("advanced_stealth", SetBool true)])
     else
       print "[Stagehand] Using Basic Stealth Mode (enabled automatically on Startup+ plans)";;
       mret browser_settings);
  solve ← getenv_default "BROWSERBASE_SOLVE_CAPTCHAS" "true";
  browser_settings ←
    (if in_strings (lower solve) ["false"; "0"; "no"] then
       print "[Stagehand] CAPTCHA solving disabled";;
       mret (browser_settings ++ [("solveCaptchas", SetBool false)])
     else mret browser_settings);
  captcha_image_selector ← getenv "BROWSERBASE_CAPTCHA_IMAGE_SELECTOR";
  captcha_input_selector ← getenv "BROWSERBASE_CAPTCHA_INPUT_SELECTOR";
  browser_settings ←
    (match captcha_image_selector, captcha_input_selector with
     | Some (String _ _ as image), Some (String _ _ as input) =>
         print "[Stagehand] Custom CAPTCHA selectors configured";;
         mret (browser_settings ++ [("captchaImageSelector", SetStr image);
                                    ("captchaInputSelector", SetStr input)])
     | _, _ => mret browser_settings
     end);
  proxies ← getenv_default "BROWSERBASE_USE_PROXIES" "true";
  let use_proxies := in_strings (lower proxies) ["true"; "1"; "yes"] in
  (if use_proxies
   then print "[Stagehand] Proxies enabled (recommended for CAPTCHA solving)"
   else print "[Stagehand] Proxies disabled");;
  api_key ← getenv "BROWSERBASE_API_KEY";
  project_id ← getenv "BROWSERBASE_PROJECT_ID";
  model_api_key ← getenv "OPENAI_API_KEY";
  verbose ← getenv_default "STAGEHAND_VERBOSE" "1" ≫= int;
  dom_settle ← getenv_default "STAGEHAND_DOM_SETTLE_TIMEOUT_MS" "30000" ≫= int;
  let config :=
    {| cfg_env := "BROWSERBASE"; cfg_api_key := api_key;
       cfg_project_id := project_id; cfg_model_name := model_name;
       cfg_model_api_key := model_api_key; cfg_verbose := verbose;
       cfg_dom_settle_timeout_ms := dom_settle; cfg_self_heal := true;
       cfg_browser_settings :=
         match browser_settings with [] => None | _ => Some browser_settings end;
       cfg_proxies := use_proxies |} in
  stagehand ← call (NewStagehand config) id;
  call (Init stagehand) id;;
  let page := {| page_of := stagehand |} in
  mret (stagehand, page).

(** ** [src/core/cli/run_morning_snapshot.py]: configuration and session scope *)

Definition _get_max_concurrent_browsers : prog Z :=
  raw ← getenv "MAX_CONCURRENT_BROWSERS";
  match raw with
  | Some (String _ _ as raw) =>
      try_except
        (val ← int raw; mret (Z.max 1 val))
        (fun e => if String.eqb (exn_class e) "ValueError"
                  then mret 2%Z else Throw e)
  | _ => mret 2%Z
  end.

(** The [finally] clause of the three session wrappers: [name] is the text
    between "Error closing " and the colon. *)
Definition close_session (name : string) (stagehand : option Stagehand)
  : prog unit :=
  match stagehand with
  | Some sh =>
      try_except
        (call (Close sh) id)
        (fun close_error =>
           print ("[WARN] Error closing " +:+ name +:+ ": "
                  +:+ exn_msg close_error))
  | None => mret tt
  end.

(** The [try] block of a session wrapper, up to its [return]: the local
    [stagehand] is assigned as soon as the session exists, so its value
    leaves the block together with the outcome. *)
Definition in_session {A : Type} (body : Page -> prog A)
  : prog (option Stagehand * result A) :=
  created ← attempt create_stagehand_session;
  match created with
  | Raised e => mret (None, Raised e)
  | Ok (stagehand, page) =>
      outcome ← attempt (body page);
      mret (Some stagehand, outcome)
  end.

Definition _run_source_with_session {R : Type}
    (source_name ticker : string)
    (fetch_func : Page -> string -> prog (option R)) : prog (option R) :=
  '(stagehand, outcome) ← in_session (fun page => fetch_func page ticker);
  returned ←
    match outcome with
    | Ok result => mret result
    | Raised e =>
        print ("[ERROR] " +:+ ticker +:+ " " +:+ source_name +:+ " failed: "
               +:+ exn_msg e);;
        mret None
    end;
  close_session (source_name +:+ " session for " +:+ ticker) stagehand;;
  mret returned.
(** ** [src/skills/vital_knowledge/research.py] *)

(** [l[i]] *)
Definition index {A : Type} (l : list A) (i : nat) : prog A :=
  match l !! i with
  | Some x => mret x
  | None => Throw (Exn "IndexError" "list index out of range")
  end.

(** [d[k]] *)
Definition getitem {V : Type} (d : gmap string V) (k : string) : prog V :=
  match d !! k with
  | Some v => mret v
  | None => Throw (Exn "KeyError" ("'" +:+ k +:+ "'"))
  end.

(** [repr] of a list of strings, as [print] shows it. *)
Definition repr_list (l : list string) : string :=
  "[" +:+ join ", " (map (fun s => "'" +:+ s +:+ "'") l) +:+ "]".

(** The date in a report URL, [/article/2025/11/20/...], or today's. *)
Definition date_of_url (url_in_test url_in_split : string) : prog string :=
  try_except
    (if contains "/article/" url_in_test then
       rest ← index (split "/article/" url_in_split) 1;
       mret (join "-" (take 3 (split "/" rest)))
     else now "%Y-%m-%d")
    (fun _ => now "%Y-%m-%d").

(** One value of the [ticker_data] dict. *)
Record ticker_entry := {
  te_morning_bullets : list string;
  te_market_close_bullets : list string;
  te_dates : list string;
}.

(** [{ticker: {...} for ticker in tickers}] *)
Definition ticker_data_init (tickers : list string) : gmap string ticker_entry :=
  foldl (fun d ticker =>
           <[ticker := {| te_morning_bullets := [];
                          te_market_close_bullets := [];
                          te_dates := [] |}]> d)
        ∅ tickers.

(** The login phase shared by the Vital Knowledge connectors; [tag] is the
    prefix of their log lines. *)
Definition vital_login (tag : string) (page : Page) : prog unit :=
  username ← getenv "Vital_login";
  password ← getenv "Vital_password";
  match username, password with
  | Some (String _ _ as username), Some (String _ _ as password) =>
      print (tag +:+ " Navigating to login page...");;
      goto page "https://vitalknowledge.net/login" 30000;;
      print (tag +:+ " Entering credentials...");;
      act page ("Enter '" +:+ username
                +:+ "' into the username or email input field");;
      act page ("Enter '" +:+ password +:+ "' into the password input field");;
      act page "Click the login or sign in button";;
      wait_for_load_state page 30000;;
      print (tag +:+ " Login successful")
  | _, _ => Throw (Exn "ValueError" "Missing Vital_login or Vital_password in .env")
  end.

(** The first loop of the batch connector. *)
Definition extract_morning (page : Page) (morning_date : string)
    (ticker : string) (ticker_data : gmap string ticker_entry)
  : prog (gmap string ticker_entry) :=
  print ("[VitalKnowledge] Extracting " +:+ ticker +:+ " from morning report...");;
  morning_bullets_result ← extract page (TickerMorningBullets ticker) SExtractedBullets;
  let morning_bullets :=
    match morning_bullets_result with
    | Some r => eb_bullets r
    | None => []
    end in
  entry ← getitem ticker_data ticker;
  let ticker_data :=
    <[ticker := {| te_morning_bullets := morning_bullets;
                   te_market_close_bullets := te_market_close_bullets entry;
                   te_dates := te_dates entry |}]> ticker_data in
  entry ← getitem ticker_data ticker;
  let ticker_data :=
    <[ticker := {| te_morning_bullets := te_morning_bullets entry;
                   te_market_close_bullets := te_market_close_bullets entry;
                   te_dates := te_dates entry ++ [morning_date] |}]> ticker_data in
  print ("[VitalKnowledge] Found " +:+ pretty (length morning_bullets)
         +:+ " bullets for " +:+ ticker +:+ " in morning report");;
  mret ticker_data.

(** The second loop. *)
Definition extract_market_close (page : Page) (market_close_date : string)
    (ticker : string) (ticker_data : gmap string ticker_entry)
  : prog (gmap string ticker_entry) :=
  print ("[VitalKnowledge] Extracting " +:+ ticker
         +:+ " from market close report...");;
  market_close_bullets_result ←
    extract page (TickerMarketCloseBullets ticker) SExtractedBullets;
  let market_close_bullets :=
    match market_close_bullets_result with
    | Some r => eb_bullets r
    | None => []
    end in
  entry ← getitem ticker_data ticker;
  let ticker_data :=
    <[ticker := {| te_morning_bullets := te_morning_bullets entry;
                   te_market_close_bullets := market_close_bullets;
                   te_dates := te_dates entry |}]> ticker_data in
  entry ← getitem ticker_data ticker;
  let ticker_data :=
    <[ticker := {| te_morning_bullets := te_morning_bullets entry;
                   te_market_close_bullets := te_market_close_bullets entry;
                   te_dates := te_dates entry ++ [market_close_date] |}]> ticker_data in
  print ("[VitalKnowledge] Found " +:+ pretty (length market_close_bullets)
         +:+ " bullets for " +:+ ticker +:+ " in market close report");;
  mret ticker_data.

(** [[VitalKnowledgeHeadline(headline=bullet, context=None, sentiment=None)
      for bullet in final_bullets]] *)
Definition headlines_of (final_bullets : list string)
  : list VitalKnowledgeHeadline :=
  map (fun bullet => {| vkh_headline := bullet; vkh_context := None;
                        vkh_sentiment := None |}) final_bullets.

(** The third loop: combine, summarise and build one report. *)
Definition process_bullets (page : Page)
    (ticker_data : gmap string ticker_entry)
    (ticker : string) (results : list VitalKnowledgeReport)
  : prog (list VitalKnowledgeReport) :=
  print (nl +:+ "[VitalKnowledge] Processing " +:+ ticker +:+ "...");;
  morning ← getitem ticker_data ticker;
  market_close ← getitem ticker_data ticker;
  let all_bullets :=
    te_morning_bullets morning ++ te_market_close_bullets market_close in
  final_bullets ←
    match all_bullets with
    | [] => mret []
    | _ =>
        print ("[VitalKnowledge] Combining " +:+ pretty (length all_bullets)
               +:+ " bullets for " +:+ ticker +:+ ", sorting by importance...");;
        combined_result ←
          extract page (CombineBullets ticker all_bullets) SCombinedBullets;
        let final_bullets :=
          match combined_result with
          | Some c => take 5 (top_bullets c)
          | None => []
          end in
        print ("[VitalKnowledge] Selected " +:+ pretty (length final_bullets)
               +:+ " top bullets for " +:+ ticker);;
        mret final_bullets
    end;
  summary ←
    match final_bullets with
    | [] => mret None
    | _ =>
        print ("[VitalKnowledge] Generating brief summary for " +:+ ticker
               +:+ "...");;
        let bullets_text :=
          join nl (map (fun bullet => "- " +:+ bullet) final_bullets) in
        extract page (SummariseBullets ticker bullets_text) SVitalKnowledgeSummary
    end;
  let headlines := headlines_of final_bullets in
  dates ← getitem ticker_data ticker;
  let result :=
    {| vk_ticker := upper ticker; vk_headlines := headlines;
       vk_report_dates := te_dates dates; vk_summary := summary |} in
  print ("[VitalKnowledge] Complete! " +:+ pretty (length final_bullets)
         +:+ " bullets extracted for " +:+ ticker);;
  mret (results ++ [result]).

(** Opening the latest market close report: by an observed link when
    [page.observe] finds one, by a described click otherwise ([today_str]
    is computed on that branch only). *)
Definition open_market_close (page : Page) (query : string)
    (fallback : string -> string) : prog unit :=
  observe_results ← observe page query;
  match observe_results with
  | first :: _ => act_observed page first
  | [] =>
      today_str ← now "%b %d, %Y";
      act page (fallback today_str)
  end.

(** The [try] block of [fetch_vital_knowledge_headlines_batch]. *)
Definition batch_try (page : Page) (tickers : list string)
    (ticker_data : gmap string ticker_entry)
  : prog (list VitalKnowledgeReport) :=
  print "[VitalKnowledge] Navigating to morning reports...";;
  act page "Click on the 'morning' link or button in the navigation";;
  wait_for_load_state page 15000;;
  print "[VitalKnowledge] Clicking most recent morning report...";;
  today_str ← now "%b %d, %Y";
  act page ("Click the morning report link that shows the date '" +:+ today_str
            +:+ "' or the most recent date in the list");;
  sleep 3;;
  wait_for_load_state page 15000;;
  morning_date ←
    try_except
      (url ← page_url page;
       if contains "/article/" url then
         url ← page_url page;
         rest ← index (split "/article/" url) 1;
         mret (join "-" (take 3 (split "/" rest)))
       else now "%Y-%m-%d")
      (fun _ => now "%Y-%m-%d");
  print ("[VitalKnowledge] Morning report date: " +:+ morning_date);;
  print ("[VitalKnowledge] Extracting ticker-specific news from morning report for "
         +:+ pretty (length tickers) +:+ " tickers...");;
  ticker_data ← for_each tickers (extract_morning page morning_date) ticker_data;
  print "[VitalKnowledge] Navigating to market close reports...";;
  goto page "https://vitalknowledge.net/?category=market-close" 15000;;
  sleep 2;;
  print "[VitalKnowledge] Clicking most recent market close report...";;
  open_market_close page
    "Find the first article link in the market close reports list that has a date like 'Nov 19, 2025' or 'Nov 20, 2025' in the link text. This should be an actual report article link, not the 'Market Close' category navigation link."
    (fun today_str =>
       "Click the market close report article link (not the category link) that shows the date '"
       +:+ today_str +:+ "' or the most recent date in the list");;
  sleep 3;;
  wait_for_load_state page 15000;;
  current_url ← page_url page;
  print ("[VitalKnowledge] Current URL after clicking market close: "
         +:+ current_url);;
  current_url ←
    (if contains "morning" (lower current_url)
        || negb (contains "/article/" current_url) then
       print "[VitalKnowledge] WARNING: Not on market close report, retrying...";;
       goto page "https://vitalknowledge.net/?category=market-close" 15000;;
       sleep 2;;
       open_market_close page
         "Find the first article title link in the market close reports list. This should be a link to an actual article with a date, not the 'Market Close' category navigation button."
         (fun _ =>
            "Click the first market close article title link (the actual report, not the category button) that contains a date");;
       sleep 3;;
       wait_for_load_state page 15000;;
       page_url page
     else mret current_url);
  market_close_date ← date_of_url current_url current_url;
  print ("[VitalKnowledge] Market close report date: " +:+ market_close_date);;
  print ("[VitalKnowledge] Confirmed on market close report URL: "
         +:+ current_url);;
  print ("[VitalKnowledge] Extracting ticker-specific news from market close report for "
         +:+ pretty (length tickers) +:+ " tickers...");;
  ticker_data ←
    for_each tickers (extract_market_close page market_close_date) ticker_data;
  for_each tickers (process_bullets page ticker_data) [].

Definition fetch_vital_knowledge_headlines_batch (page : Page)
    (tickers : list string) : prog (list VitalKnowledgeReport) :=
  print ("[VitalKnowledge] Starting batch scrape for "
         +:+ pretty (length tickers) +:+ " tickers: " +:+ repr_list tickers);;
  vital_login "[VitalKnowledge]" page;;
  let ticker_data := ticker_data_init tickers in
  try_except
    (batch_try page tickers ticker_data)
    (fun e =>
       print ("[VitalKnowledge] Failed in batch scrape: " +:+ exn_msg e);;
       mret (map (fun t => VitalKnowledgeReport_default (upper t)) tickers)).
(** ** [src/skills/vital_knowledge/macro_news.py] *)

(** [r.summary if r else None] and
    [r.bullets[:5] if r and r.bullets else []] *)
Definition macro_summary (r : option MacroExtract) : option string :=
  me_summary <$> r.

Definition macro_bullets (r : option MacroExtract) : list string :=
  match r with
  | Some r => take 5 (me_bullets r)
  | None => []
  end.

(** One report of the macro connector, once its page is open: its URL, its
    date and what [page.extract] reads from it. *)
Definition macro_report (page : Page) (name : string) (i : instruction)
  : prog (string * string * option MacroExtract) :=
  url ← page_url page;
  date ←
    try_except
      (test ← page_url page;
       if contains "/article/" test then
         url ← page_url page;
         rest ← index (split "/article/" url) 1;
         mret (join "-" (take 3 (split "/" rest)))
       else now "%Y-%m-%d")
      (fun _ => now "%Y-%m-%d");
  print ("[MacroNews] " +:+ name +:+ " report date: " +:+ date);;
  print ("[MacroNews] " +:+ name +:+ " report URL: " +:+ url);;
  print ("[MacroNews] Extracting " +:+ lower name +:+ " macro news...");;
  extracted ← extract page i SMacroExtract;
  mret (url, date, extracted).

(** The morning phase of the [try] block of [fetch_macro_news]. *)
Definition macro_morning (page : Page)
  : prog (string * string * option MacroExtract) :=
  print "[MacroNews] Navigating to morning reports...";;
  act page "Click on the 'morning' link or button in the navigation";;
  wait_for_load_state page 15000;;
  print "[MacroNews] Clicking first morning report...";;
  act page "Click the first morning report link in the list to open it";;
  sleep 3;;
  wait_for_load_state page 15000;;
  macro_report page "Morning" MacroMorning.

(** The market close phase. *)
Definition macro_market_close (page : Page)
  : prog (string * string * option MacroExtract) :=
  print "[MacroNews] Navigating to market close reports...";;
  act page "Click on the 'market close' link or button in the navigation";;
  sleep 2;;
  wait_for_load_state page 15000;;
  print "[MacroNews] Clicking first market close report...";;
  act page "Click the first market close report link in the list to open it";;
  sleep 3;;
  wait_for_load_state page 15000;;
  macro_report page "Market close" MacroMarketClose.

(** The lines between the two phases. *)
Definition macro_morning_done (morning_result : option MacroExtract)
  : prog unit :=
  print ("[MacroNews] Morning: "
         +:+ pretty (length (macro_bullets morning_result))
         +:+ " bullets extracted").

(** The [try] block of [fetch_macro_news]. *)
Definition macro_try (page : Page) : prog MacroNewsSummary :=
  '(morning_url, morning_date, morning_result) ← macro_morning page;
  let morning_summary := macro_summary morning_result in
  let morning_bullets := macro_bullets morning_result in
  macro_morning_done morning_result;;
  '(market_close_url, market_close_date, market_close_result) ←
    macro_market_close page;
  let market_close_summary := macro_summary market_close_result in
  let market_close_bullets := macro_bullets market_close_result in
  print ("[MacroNews] Market close: " +:+ pretty (length market_close_bullets)
         +:+ " bullets extracted");;
  let result :=
    {| morning_date := Some morning_date; morning_url := Some morning_url;
       morning_summary := morning_summary; morning_bullets := morning_bullets;
       market_close_date := Some market_close_date;
       market_close_url := Some market_close_url;
       market_close_summary := market_close_summary;
       market_close_bullets := market_close_bullets |} in
  print "[MacroNews] Complete!";;
  mret result.

Definition fetch_macro_news (page : Page) : prog MacroNewsSummary :=
  print "[MacroNews] Starting macro news scrape";;
  vital_login "[MacroNews]" page;;
  try_except
    (macro_try page)
    (fun e =>
       print ("[MacroNews] Failed: " +:+ exn_msg e);;
       mret MacroNewsSummary_default).

(** ** [src/core/cli/run_morning_snapshot.py]: the tasks *)

Definition fetch_macro_news_with_session : prog (option MacroNewsSummary) :=
  '(stagehand, outcome) ← in_session fetch_macro_news;
  returned ←
    match outcome with
    | Ok result => mret (Some result)
    | Raised e =>
        print ("[ERROR] Macro News failed: " +:+ exn_msg e);;
        mret None
    end;
  close_session "Macro News session" stagehand;;
  mret returned.

(** [{result.ticker: result for result in results}] *)
Definition by_ticker (results : list VitalKnowledgeReport)
  : gmap string VitalKnowledgeReport :=
  foldl (fun d result => <[vk_ticker result := result]> d) ∅ results.

(** The two lines of the [try] block of [_run_vital_knowledge_batch] that
    follow the creation of the session. *)
Definition batch_mapping (tickers : list string) (page : Page)
  : prog (gmap string VitalKnowledgeReport) :=
  results ← fetch_vital_knowledge_headlines_batch page tickers;
  mret (by_ticker results).

Definition _run_vital_knowledge_batch (tickers : list string)
  : prog (gmap string VitalKnowledgeReport) :=
  '(stagehand, outcome) ← in_session (batch_mapping tickers);
  returned ←
    match outcome with
    | Ok mapping => mret mapping
    | Raised e =>
        print ("[ERROR] Vital Knowledge batch failed: " +:+ exn_msg e);;
        mret ∅
    end;
  close_session "Vital Knowledge batch session" stagehand;;
  mret returned.

(** The four per-ticker connectors are calls into modules that are not
    among the sources ([fetch_google_news_stories] is, and is a call
    all the same: the driver only looks at what it returns). A connector
    returns a model, raises, or returns [None]; a Pydantic model is
    truthy, so [None] is the one falsy result. *)
Definition fetch (s : source) (kwargs : list (string * Z))
    (page : Page) (ticker : string) : prog (option (payload s)) :=
  call (Fetch s page ticker kwargs) id.

Definition fetch_yahoo_quote := fetch YahooQuote [].
Definition fetch_yahoo_ai_analysis := fetch YahooAI [].
Definition fetch_marketwatch_top_stories (max_cards : Z) :=
  fetch MarketWatch [("max_cards", max_cards)].
Definition fetch_google_news_stories (max_stories max_days : Z) :=
  fetch GoogleNews [("max_stories", max_stories); ("max_days", max_days)].

(** [len([s for s in googlenews.stories
          if s.summary and not s.summary.startswith("Error")])] *)
Definition articles_count (googlenews : GoogleNewsTopStories) : nat :=
  length (filter (fun s => truthy_str (gns_summary s)
                           && negb (String.prefix "Error"
                                      (default "" (gns_summary s))) = true)
                 (gn_stories googlenews)).

(** One [if use_...:] block of [process_ticker]: run the source in its own
    session, log or record the failure. *)
Definition run_source {R : Type} (enabled : bool) (ticker : string)
    (label source_name : string)
    (fetch_func : Page -> string -> prog (option R))
    (on_ok : R -> string) (error_messages : list string)
  : prog (option R * list string) :=
  if enabled then
    print ("[" +:+ ticker +:+ "] Starting " +:+ label +:+ "...");;
    got ← _run_source_with_session source_name ticker fetch_func;
    match got with
    | Some r => print (on_ok r);; mret (got, error_messages)
    | None => mret (got, error_messages ++ [source_name +:+ " failed"])
    end
  else mret (None, error_messages).

(** What [process_ticker] does under [async with sem:]. *)
Definition process_ticker_body (ticker : string)
    (use_yahoo_quote use_yahoo_analysis use_marketwatch use_googlenews
       use_vital_knowledge : bool) : prog item :=
    print (nl +:+ "=== Processing " +:+ ticker +:+ " ===");;
    let error_messages : list string := [] in
    '(quote, error_messages) ←
      run_source use_yahoo_quote ticker "Yahoo Quote" "YahooQuote"
        fetch_yahoo_quote
        (fun _ => "[YahooQuote] " +:+ ticker +:+ ": OK") error_messages;
    '(analysis, error_messages) ←
      run_source use_yahoo_analysis ticker "Yahoo AI" "YahooAI"
        fetch_yahoo_ai_analysis
        (fun _ => "[YahooAI] " +:+ ticker +:+ ": OK") error_messages;
    '(mw, error_messages) ←
      run_source use_marketwatch ticker "MarketWatch" "MarketWatch"
        (fetch_marketwatch_top_stories 3)
        (fun mw => "[MarketWatch] " +:+ ticker +:+ ": "
                   +:+ pretty (mw_stories_len mw) +:+ " stories")
        error_messages;
    '(googlenews, error_messages) ←
      run_source use_googlenews ticker "Google News" "GoogleNews"
        (fetch_google_news_stories 5 2)
        (fun googlenews => "[GoogleNews] " +:+ ticker +:+ ": "
                           +:+ pretty (articles_count googlenews)
                           +:+ " articles analyzed")
        error_messages;
    let vital_knowledge : option VitalKnowledgeReport := None in
    mret {| item_ticker := ticker;
            item_error :=
              match error_messages with
              | [] => None
              | _ => Some (join "; " error_messages)
              end;
            item_quote := quote;
            item_analysis := analysis;
            item_marketwatch := mw;
            item_googlenews := googlenews;
            item_vital_knowledge := vital_knowledge |}.

Definition process_ticker (ticker : string)
    (use_yahoo_quote use_yahoo_analysis use_marketwatch use_googlenews
       use_vital_knowledge : bool) : prog item :=
  with_sem
    (process_ticker_body ticker use_yahoo_quote use_yahoo_analysis
       use_marketwatch use_googlenews use_vital_knowledge).
(** ** [src/core/cli/run_morning_snapshot.py]: the event loop

    [asyncio.gather] runs the tasks of [all_tasks] on one thread and switches
    between them where they await. Here a task may be switched at every
    call, and any task that is not blocked may be the next to move: every
    order in which the tasks can really run is among those. The semaphore
    is its counter; [holders] lists the tasks between their [acquire] and
    their [release]. *)

Record flags := {
  use_yahoo_quote : bool;
  use_yahoo_analysis : bool;
  use_marketwatch : bool;
  use_googlenews : bool;
  use_vital_knowledge : bool;
  use_macro_news : bool;
}.

(** What a task of [all_tasks] returns: [all_results] holds the three
    kinds side by side. *)
Inductive task_value :=
| TickerValue (it : item)
| MacroValue (macro_news_result : option MacroNewsSummary)
| BatchValue (mapping : gmap string VitalKnowledgeReport).

Definition ticker_tasks (fl : flags) (watchlist : list string)
  : list (prog task_value) :=
  map (fun ticker =>
         TickerValue <$>
           process_ticker ticker (use_yahoo_quote fl) (use_yahoo_analysis fl)
             (use_marketwatch fl) (use_googlenews fl) (use_vital_knowledge fl))
      watchlist.

Definition all_tasks (fl : flags) (watchlist : list string)
  : list (prog task_value) :=
  ticker_tasks fl watchlist
  ++ (if use_macro_news fl
      then [MacroValue <$> fetch_macro_news_with_session] else [])
  ++ (if use_vital_knowledge fl
      then [BatchValue <$> _run_vital_knowledge_batch watchlist] else []).

Record loop_state := {
  tasks : list (prog task_value);
  sem_value : Z;
  holders : list nat;
  history : list (nat * event);
}.

(** The first occurrence of [i] leaves the list. *)
Fixpoint drop_holder (i : nat) (l : list nat) : list nat :=
  match l with
  | [] => []
  | j :: l' => if decide (i = j) then l' else j :: drop_holder i l'
  end.

Definition is_gate (o : op) : bool :=
  match o with
  | Acquire | Release => true
  | _ => false
  end.

(** Task [i] makes its next call and gets the answer [r]. [acquire] needs
    a positive counter; a task at its [return] or [raise] is finished and
    moves no more. *)
Inductive step : loop_state -> loop_state -> Prop :=
| step_call st i o k r :
    tasks st !! i = Some (Op o k) ->
    is_gate o = false ->
    step st {| tasks := <[i := k r]> (tasks st);
               sem_value := sem_value st;
               holders := holders st;
               history := history st ++ [(i, Ev o r)] |}
| step_acquire st i k :
    tasks st !! i = Some (Op Acquire k) ->
    (0 < sem_value st)%Z ->
    step st {| tasks := <[i := k tt]> (tasks st);
               sem_value := sem_value st - 1;
               holders := i :: holders st;
               history := history st ++ [(i, Ev Acquire tt)] |}
| step_release st i k :
    tasks st !! i = Some (Op Release k) ->
    step st {| tasks := <[i := k tt]> (tasks st);
               sem_value := sem_value st + 1;
               holders := drop_holder i (holders st);
               history := history st ++ [(i, Ev Release tt)] |}.

(** [sem = asyncio.Semaphore(max_concurrent)], then the tasks are handed
    to [gather]. *)
Definition launch (max_concurrent : Z) (ts : list (prog task_value))
  : loop_state :=
  {| tasks := ts; sem_value := max_concurrent; holders := []; history := [] |}.

Definition reachable (max_concurrent : Z) (ts : list (prog task_value))
  : loop_state -> Prop :=
  rtc step (launch max_concurrent ts).

(** The same step as a function: task [i] moves, the world answers. *)
Definition step_task (w : world) (i : nat) (st : loop_state)
  : option loop_state :=
  match tasks st !! i with
  | Some (Op o k) =>
      let r := w (length (history st)) o in
      let moved :=
        {| tasks := <[i := k r]> (tasks st);
           sem_value :=
             match o with
             | Acquire => sem_value st - 1
             | Release => sem_value st + 1
             | _ => sem_value st
             end;
           holders :=
             match o with
             | Acquire => i :: holders st
             | Release => drop_holder i (holders st)
             | _ => holders st
             end;
           history := history st ++ [(i, Ev o r)] |} in
      match o with
      | Acquire => if decide (0 < sem_value st)%Z then Some moved else None
      | _ => Some moved
      end
  | _ => None
  end.

(** A schedule names the task that moves at each step; a step that cannot
    be taken is skipped. *)
Fixpoint run_schedule (w : world) (schedule : list nat) (st : loop_state)
  : loop_state :=
  match schedule with
  | [] => st
  | i :: schedule' =>
      run_schedule w schedule' (default st (step_task w i st))
  end.

Definition returned {A : Type} (p : prog A) : option A :=
  match p with
  | Ret a => Some a
  | _ => None
  end.

Definition raised {A : Type} (p : prog A) : option exn :=
  match p with
  | Throw e => Some e
  | _ => None
  end.

(** What [await asyncio.gather(...)] gives the driver: the exception of a
    task that raised, as soon as there is one; once every task has
    returned, the values in the order of the tasks. *)
Definition gather (st : loop_state) : option (result (list task_value)) :=
  match omap raised (tasks st) with
  | e :: _ => Some (Raised e)
  | [] => Ok <$> mapM returned (tasks st)
  end.
(** ** [src/core/cli/run_morning_snapshot.py]: after the join

    [all_results] is untyped in the source; the casts below raise where
    Python would at the first use of a value of the wrong kind. *)

Definition as_item (v : task_value) : prog item :=
  match v with
  | TickerValue it => mret it
  | _ => Throw (Exn "AttributeError" "object has no attribute 'get'")
  end.

Definition as_macro (v : task_value) : prog (option MacroNewsSummary) :=
  match v with
  | MacroValue m => mret m
  | _ => Throw (Exn "AttributeError" "object has no attribute 'model_dump'")
  end.

Definition as_batch (v : task_value)
  : prog (gmap string VitalKnowledgeReport) :=
  match v with
  | BatchValue d => mret d
  | _ => Throw (Exn "TypeError" "object is not a mapping of reports")
  end.

(** "Separate results": the first [len(ticker_tasks)] values are the
    tickers', the macro summary comes next when enabled, the batch mapping
    last. *)
Definition separate (fl : flags) (n : nat) (all_results : list task_value)
  : prog (list item * option MacroNewsSummary
          * option (gmap string VitalKnowledgeReport)) :=
  results ← mapM as_item (take n all_results);
  '(macro_news_result, vital_knowledge_batch_results) ←
    (if use_macro_news fl then
       macro_news_result ← index all_results n ≫= as_macro;
       if use_vital_knowledge fl then
         batch ← index all_results (n + 1) ≫= as_batch;
         mret (macro_news_result, Some batch)
       else mret (macro_news_result, None)
     else if use_vital_knowledge fl then
       batch ← index all_results n ≫= as_batch;
       mret (None, Some batch)
     else mret (None, None));
  mret (results, macro_news_result, vital_knowledge_batch_results).

(** The body of the merge loop: [item["vital_knowledge"]] is assigned in
    place; the item that results takes its place in [results]. *)
Definition merge_item (vital_knowledge_batch_results : gmap string VitalKnowledgeReport)
    (it : item) : prog item :=
  let ticker := item_ticker it in
  match vital_knowledge_batch_results !! ticker with
  | Some report =>
      let headlines_count := length (vk_headlines report) in
      print ("[VitalKnowledge] " +:+ ticker +:+ ": " +:+ pretty headlines_count
             +:+ " headlines from batch");;
      mret {| item_ticker := item_ticker it; item_error := item_error it;
              item_quote := item_quote it; item_analysis := item_analysis it;
              item_marketwatch := item_marketwatch it;
              item_googlenews := item_googlenews it;
              item_vital_knowledge := Some report |}
  | None =>
      print ("[WARN] " +:+ ticker +:+ ": No Vital Knowledge data from batch");;
      mret it
  end.

(** [bool(d)] for a dict. *)
Definition truthy_dict {V : Type} (d : option (gmap string V)) : bool :=
  match d with
  | Some d => negb (bool_decide (size d = 0))
  | None => false
  end.

(** Step 4b. *)
Definition merge_vital_knowledge (fl : flags) (results : list item)
    (vital_knowledge_batch_results : option (gmap string VitalKnowledgeReport))
  : prog (list item) :=
  if use_vital_knowledge fl && truthy_dict vital_knowledge_batch_results then
    print (nl +:+ "[Merging] Adding Vital Knowledge batch results to ticker data...");;
    mapM (merge_item (default ∅ vital_knowledge_batch_results)) results
  else mret results.

(** Steps 5 to 6d. *)
Definition write_snapshots (fl : flags) (today : string) (results : list item)
    (macro_news_result : option MacroNewsSummary) : prog unit :=
  let path name := "data/snapshots/" +:+ name +:+ "_" +:+ today +:+ ".json" in
  write_text (path "yahoo_snapshot")
    (YahooSnapshot today
       (map (fun it => (item_ticker it, item_error it, item_quote it,
                        item_analysis it)) results));;
  print (nl +:+ "Yahoo snapshot written to: " +:+ path "yahoo_snapshot");;
  write_text (path "marketwatch_snapshot")
    (MarketWatchSnapshot today
       (map (fun it => (item_ticker it, item_error it, item_marketwatch it))
            results));;
  print ("MarketWatch snapshot written to: " +:+ path "marketwatch_snapshot");;
  write_text (path "googlenews_snapshot")
    (GoogleNewsSnapshot today
       (map (fun it => (item_ticker it, item_error it, item_googlenews it))
            results));;
  print ("Google News snapshot written to: " +:+ path "googlenews_snapshot");;
  write_text (path "vital_knowledge_snapshot")
    (VitalKnowledgeSnapshot today
       (map (fun it => (item_ticker it, item_error it, item_vital_knowledge it))
            results));;
  print ("Vital Knowledge snapshot written to: "
         +:+ path "vital_knowledge_snapshot");;
  if use_macro_news fl then
    write_text (path "macro_news_snapshot")
      (MacroNewsSnapshot today macro_news_result);;
    print ("Macro News snapshot written to: " +:+ path "macro_news_snapshot")
  else mret tt.

(** A model built again from its dump: see [item]. *)
Definition rebuild {A : Type} (dump : A) : prog A := mret dump.

(** An optional payload of the report: absent when it is missing or does
    not parse. *)
Definition optional_object {A : Type} (ticker class : string)
    (dump : option A) : prog (option A) :=
  match dump with
  | Some d =>
      try_except
        (Some <$> rebuild d)
        (fun e =>
           print ("[WARN] " +:+ ticker +:+ ": failed to parse " +:+ class
                  +:+ ": " +:+ exn_msg e);;
           mret None)
  | None => mret None
  end.

(** The analysis the report gets when Yahoo's is missing. *)
Definition empty_analysis (ticker : string) : YahooAIAnalysis :=
  {| ya_ticker := ticker; ya_title := None; ya_summary := None;
     ya_bullets := [] |}.

(** The body of the report loop of step 7. *)
Definition typed_item_of (it : item) (typed_items : list typed_item)
  : prog (list typed_item) :=
  let ticker := item_ticker it in
  match item_quote it with
  | None =>
      print ("[WARN] Skipping " +:+ ticker +:+ " in report (no quote data)");;
      mret typed_items
  | Some quote =>
      q ← rebuild quote;
      a ←
        match item_analysis it with
        | Some analysis => rebuild analysis
        | None =>
            print ("[WARN] " +:+ ticker
                   +:+ ": no Yahoo AI analysis; using empty analysis object");;
            mret (empty_analysis ticker)
        end;
      mw_obj ← optional_object ticker "MarketWatchTopStories"
                 (item_marketwatch it);
      googlenews_obj ← optional_object ticker "GoogleNewsTopStories"
                         (item_googlenews it);
      vital_knowledge_obj ← optional_object ticker "VitalKnowledgeReport"
                              (item_vital_knowledge it);
      (if truthy_str (item_error it) then
         print ("[INFO] " +:+ ticker +:+ " had source errors: "
                +:+ default "" (item_error it))
       else mret tt);;
      mret (typed_items ++ [(q, a, mw_obj, googlenews_obj, vital_knowledge_obj)])
  end.

Definition typed_items_of (results : list item) : prog (list typed_item) :=
  for_each results typed_item_of [].

(** Step 7. *)
Definition write_report (fl : flags) (today : string) (results : list item)
    (macro_news_result : option MacroNewsSummary) : prog unit :=
  typed_items ← typed_items_of results;
  match typed_items with
  | [] => print "[WARN] No successful tickers to include in report."
  | _ =>
      macro_news_obj ←
        (match use_macro_news fl, macro_news_result with
         | true, Some dump =>
             try_except
               (Some <$> rebuild dump)
               (fun e =>
                  print ("[WARN] Failed to parse MacroNewsSummary: "
                         +:+ exn_msg e);;
                  mret None)
         | _, _ => mret None
         end);
      report_md ←
        match build_morning_report today typed_items macro_news_obj with
        | Ok md => mret md
        | Raised e => Throw e
        end;
      let report_path := "data/reports/morning_snapshot_" +:+ today +:+ ".md" in
      write_text report_path (Markdown report_md);;
      print ("Morning Snapshot written to: " +:+ report_path)
  end.

(** [main] from the line after [await asyncio.gather]. *)
Definition main_after_gather (fl : flags) (watchlist : list string)
    (today : string) (all_results : list task_value) : prog unit :=
  '(results, macro_news_result, vital_knowledge_batch_results) ←
    separate fl (length (ticker_tasks fl watchlist)) all_results;
  results ← merge_vital_knowledge fl results vital_knowledge_batch_results;
  write_snapshots fl today results macro_news_result;;
  write_report fl today results macro_news_result.
(** ** What the claims speak of *)

(** The calls of the [finally] clause on a session that exists: the close,
    and the warning when the close raises. *)
Definition closing (name : string) (sh : Stagehand) (tr : list event) : Prop :=
  tr = [Ev (Close sh) (Ok tt)]
  ∨ ∃ close_error,
      tr = [Ev (Close sh) (Raised close_error);
            Ev (Print ("[WARN] Error closing " +:+ name +:+ ": "
                       +:+ exn_msg close_error)) tt].

(** The runs of a session wrapper around [body]. [on_return] is what the
    wrapper makes of the value of [body], [on_error] what it returns after
    a failure, [error_line] the line it prints then, [name] the session's
    name in the warning. *)
Inductive scoped {A B : Type} (body : Page -> prog A) (on_return : A -> B)
    (on_error : B) (error_line : exn -> string) (name : string)
  : list event -> result B -> Prop :=
| scoped_no_session tr_s e :
    runs create_stagehand_session tr_s (Raised e) ->
    scoped body on_return on_error error_line name
      (tr_s ++ [Ev (Print (error_line e)) tt]) (Ok on_error)
| scoped_returned tr_s sh page tr_b a tr_c :
    runs create_stagehand_session tr_s (Ok (sh, page)) ->
    runs (body page) tr_b (Ok a) ->
    closing name sh tr_c ->
    scoped body on_return on_error error_line name
      (tr_s ++ tr_b ++ tr_c) (Ok (on_return a))
| scoped_raised tr_s sh page tr_b e tr_c :
    runs create_stagehand_session tr_s (Ok (sh, page)) ->
    runs (body page) tr_b (Raised e) ->
    closing name sh tr_c ->
    scoped body on_return on_error error_line name
      (tr_s ++ tr_b ++ Ev (Print (error_line e)) tt :: tr_c) (Ok on_error).

(** The name, the connector and the flag of each source in
    [process_ticker], and its slot in the dict returned. *)
Definition source_name (s : source) : string :=
  match s with
  | YahooQuote => "YahooQuote"
  | YahooAI => "YahooAI"
  | MarketWatch => "MarketWatch"
  | GoogleNews => "GoogleNews"
  end.

Definition connector (s : source) : Page -> string -> prog (option (payload s)) :=
  match s with
  | YahooQuote => fetch_yahoo_quote
  | YahooAI => fetch_yahoo_ai_analysis
  | MarketWatch => fetch_marketwatch_top_stories 3
  | GoogleNews => fetch_google_news_stories 5 2
  end.

Definition enabled (use_yahoo_quote use_yahoo_analysis use_marketwatch
    use_googlenews : bool) (s : source) : bool :=
  match s with
  | YahooQuote => use_yahoo_quote
  | YahooAI => use_yahoo_analysis
  | MarketWatch => use_marketwatch
  | GoogleNews => use_googlenews
  end.

Definition item_payload (it : item) (s : source) : option (payload s) :=
  match s with
  | YahooQuote => item_quote it
  | YahooAI => item_analysis it
  | MarketWatch => item_marketwatch it
  | GoogleNews => item_googlenews it
  end.

Definition missing (it : item) (s : source) : bool :=
  match item_payload it s with
  | None => true
  | Some _ => false
  end.

(** The runs of the session wrapper of source [s] for [ticker]. *)
Definition source_scoped (s : source) (ticker : string)
  : list event -> result (option (payload s)) -> Prop :=
  scoped (fun page => connector s page ticker) id None
    (fun e => "[ERROR] " +:+ ticker +:+ " " +:+ source_name s +:+ " failed: "
              +:+ exn_msg e)
    (source_name s +:+ " session for " +:+ ticker).

(** The [error] entry for a list of failed sources. *)
Definition error_summary (failed : list source) : option string :=
  match failed with
  | [] => None
  | _ => Some (join "; " (map (fun s => source_name s +:+ " failed") failed))
  end.

(** What one [if use_...:] block leaves in the trace and in its variable. *)
Definition block {R : Type} (on : bool) (ticker label name : string)
    (fetch_func : Page -> string -> prog (option R)) (on_ok : R -> string)
    (tr : list event) (got : option R) : Prop :=
  if on then
    ∃ tr_w,
      runs (_run_source_with_session name ticker fetch_func) tr_w (Ok got)
      ∧ tr = Ev (Print ("[" +:+ ticker +:+ "] Starting " +:+ label +:+ "...")) tt
             :: tr_w
             ++ match got with
                | Some r => [Ev (Print (on_ok r)) tt]
                | None => []
                end
  else tr = [] ∧ got = None.

(** The report input of an item that has a quote, and of a result list. *)
Definition report_entry (it : item) (q : YahooQuoteSnapshot) : typed_item :=
  (q, default (empty_analysis (item_ticker it)) (item_analysis it),
   item_marketwatch it, item_googlenews it, item_vital_knowledge it).

Definition report_entries (results : list item) : list typed_item :=
  omap (fun it => report_entry it <$> item_quote it) results.

(** The lines the report loop prints for an item. *)
Definition report_lines (it : item) : list string :=
  match item_quote it with
  | None =>
      ["[WARN] Skipping " +:+ item_ticker it +:+ " in report (no quote data)"]
  | Some _ =>
      match item_analysis it with
      | Some _ => []
      | None => ["[WARN] " +:+ item_ticker it
                 +:+ ": no Yahoo AI analysis; using empty analysis object"]
      end
      ++ (if truthy_str (item_error it)
          then ["[INFO] " +:+ item_ticker it +:+ " had source errors: "
                +:+ default "" (item_error it)]
          else [])
  end.

Definition has_quote (it : item) : Prop := is_Some (item_quote it).

(** The quote of an entry of the report input. *)
Definition entry_quote (e : typed_item) : YahooQuoteSnapshot := e.1.1.1.1.

(** The calls of a run, without their answers. *)
Definition calls (tr : list event) : list op := map ev_op tr.

(** What the merge loop makes of an item, and the line it prints. *)
Definition merged (d : gmap string VitalKnowledgeReport) (it : item) : item :=
  match d !! item_ticker it with
  | Some report =>
      {| item_ticker := item_ticker it; item_error := item_error it;
         item_quote := item_quote it; item_analysis := item_analysis it;
         item_marketwatch := item_marketwatch it;
         item_googlenews := item_googlenews it;
         item_vital_knowledge := Some report |}
  | None => it
  end.

Definition merge_line (d : gmap string VitalKnowledgeReport) (it : item)
  : string :=
  match d !! item_ticker it with
  | Some report =>
      "[VitalKnowledge] " +:+ item_ticker it +:+ ": "
      +:+ pretty (length (vk_headlines report)) +:+ " headlines from batch"
  | None =>
      "[WARN] " +:+ item_ticker it +:+ ": No Vital Knowledge data from batch"
  end.

(** The reports of the [except] clause of the batch connector. *)
Definition empty_reports (tickers : list string) : list VitalKnowledgeReport :=
  map (fun t => VitalKnowledgeReport_default (upper t)) tickers.

(** The three kinds of run of [fetch_vital_knowledge_headlines_batch]:
    the login phase raises, and so does the function; the [try] block
    returns its reports; the [try] block raises, and the function returns
    [empty_reports]. *)
Inductive batch_fetch (page : Page) (tickers : list string)
  : list event -> result (list VitalKnowledgeReport) -> Prop :=
| batch_login_raised tr_l e :
    runs (vital_login "[VitalKnowledge]" page) tr_l (Raised e) ->
    batch_fetch page tickers
      (Ev (Print ("[VitalKnowledge] Starting batch scrape for "
                  +:+ pretty (length tickers) +:+ " tickers: "
                  +:+ repr_list tickers)) tt :: tr_l)
      (Raised e)
| batch_returned tr_l tr_b reports :
    runs (vital_login "[VitalKnowledge]" page) tr_l (Ok tt) ->
    runs (batch_try page tickers (ticker_data_init tickers)) tr_b (Ok reports) ->
    batch_fetch page tickers
      (Ev (Print ("[VitalKnowledge] Starting batch scrape for "
                  +:+ pretty (length tickers) +:+ " tickers: "
                  +:+ repr_list tickers)) tt :: tr_l ++ tr_b)
      (Ok reports)
| batch_try_raised tr_l tr_b e :
    runs (vital_login "[VitalKnowledge]" page) tr_l (Ok tt) ->
    runs (batch_try page tickers (ticker_data_init tickers)) tr_b (Raised e) ->
    batch_fetch page tickers
      (Ev (Print ("[VitalKnowledge] Starting batch scrape for "
                  +:+ pretty (length tickers) +:+ " tickers: "
                  +:+ repr_list tickers)) tt
       :: tr_l ++ tr_b
       ++ [Ev (Print ("[VitalKnowledge] Failed in batch scrape: "
                      +:+ exn_msg e)) tt])
      (Ok (empty_reports tickers)).

(** One report per ticker, in order, under the upper-cased ticker, with
    five headlines at most. *)
Definition one_per_ticker (tickers : list string)
    (reports : list VitalKnowledgeReport) : Prop :=
  length reports = length tickers
  ∧ map vk_ticker reports = map upper tickers
  ∧ Forall (fun r => length (vk_headlines r) <= 5) reports.

(** The three kinds of run of [fetch_macro_news]: the login phase raises,
    and so does the function; the [try] block returns its summary; the
    [try] block raises, and the function returns [MacroNewsSummary()]. *)
Inductive macro_fetch (page : Page)
  : list event -> result MacroNewsSummary -> Prop :=
| macro_login_raised tr_l e :
    runs (vital_login "[MacroNews]" page) tr_l (Raised e) ->
    macro_fetch page
      (Ev (Print "[MacroNews] Starting macro news scrape") tt :: tr_l)
      (Raised e)
| macro_returned tr_l tr_b summary :
    runs (vital_login "[MacroNews]" page) tr_l (Ok tt) ->
    runs (macro_try page) tr_b (Ok summary) ->
    macro_fetch page
      (Ev (Print "[MacroNews] Starting macro news scrape") tt :: tr_l ++ tr_b)
      (Ok summary)
| macro_try_raised tr_l tr_b e :
    runs (vital_login "[MacroNews]" page) tr_l (Ok tt) ->
    runs (macro_try page) tr_b (Raised e) ->
    macro_fetch page
      (Ev (Print "[MacroNews] Starting macro news scrape") tt
       :: tr_l ++ tr_b
       ++ [Ev (Print ("[MacroNews] Failed: " +:+ exn_msg e)) tt])
      (Ok MacroNewsSummary_default).

(** Every field is [None] or the empty list. *)
Definition all_fields_empty (m : MacroNewsSummary) : Prop :=
  morning_date m = None ∧ morning_url m = None ∧ morning_summary m = None
  ∧ morning_bullets m = []
  ∧ market_close_date m = None ∧ market_close_url m = None
  ∧ market_close_summary m = None ∧ market_close_bullets m = [].

(** ** Where a task stands with respect to the gate *)

(** [p] calls neither [acquire] nor [release]. *)
Fixpoint no_gate {A : Type} (p : prog A) : Prop :=
  match p with
  | Op o k => is_gate o = false ∧ ∀ r, no_gate (k r)
  | _ => True
  end.

(** Every path of [p] ends in a value that satisfies [P]: [p] never
    raises. *)
Fixpoint ends_well {A : Type} (P : A -> Prop) (p : prog A) : Prop :=
  match p with
  | Ret a => P a
  | Throw _ => False
  | Op o k => ∀ r, ends_well P (k r)
  end.

(** A task outside the gate for good. *)
Definition gate_free {A : Type} (P : A -> Prop) (p : prog A) : Prop :=
  no_gate p ∧ ends_well P p.

(** A task inside the gate: one [release] lies ahead on every path, it
    is the only call on the gate, and what follows it is [gate_free]. *)
Fixpoint holding {A : Type} (P : A -> Prop) (p : prog A) : Prop :=
  match p with
  | Op o k =>
      match o with
      | Release => ∀ r, gate_free P (k r)
      | Acquire => False
      | _ => ∀ r, holding P (k r)
      end
  | _ => False
  end.

(** A task at the gate: its next call is [acquire]. *)
Definition waiting {A : Type} (P : A -> Prop) (p : prog A) : Prop :=
  match p with
  | Op Acquire k => ∀ r, holding P (k r)
  | _ => False
  end.

(** What each task of [all_tasks] is to return. *)
Definition ticker_value (ticker : string) (v : task_value) : Prop :=
  ∃ it, v = TickerValue it ∧ item_ticker it = ticker.

Definition macro_value (v : task_value) : Prop := ∃ m, v = MacroValue m.

Definition batch_value (v : task_value) : Prop := ∃ d, v = BatchValue d.

Definition all_posts (fl : flags) (watchlist : list string)
  : list (task_value -> Prop) :=
  map ticker_value watchlist
  ++ (if use_macro_news fl then [macro_value] else [])
  ++ (if use_vital_knowledge fl then [batch_value] else []).

(** The state of the loop is sound: the task of each ticker is at the
    gate, inside it and listed in [holders], or past it; the two other
    tasks never come near it; the counter and the holders add up to the
    ceiling; only the tasks of the tickers have called the gate. *)
Record sound (fl : flags) (watchlist : list string) (max_concurrent : Z)
    (st : loop_state) : Prop := {
  sound_length : length (tasks st) = length (all_posts fl watchlist);
  sound_tasks :
    ∀ i p P, tasks st !! i = Some p -> all_posts fl watchlist !! i = Some P ->
      if decide (i < length watchlist) then
        ((i ∉ holders st) ∧ (waiting P p ∨ gate_free P p))
        ∨ ((i ∈ holders st) ∧ holding P p)
      else gate_free P p;
  sound_holders : NoDup (holders st);
  sound_tickers : ∀ i, i ∈ holders st -> i < length watchlist;
  sound_counter :
    (sem_value st + Z.of_nat (length (holders st)) = max_concurrent)%Z;
  sound_history :
    ∀ i e, (i, e) ∈ history st -> is_gate (ev_op e) = true ->
           i < length watchlist;
}.

(** [all_results] as the three kinds of values it holds. *)
Definition gathered (fl : flags) (results : list item)
    (macro_news_result : option MacroNewsSummary)
    (batch : option (gmap string VitalKnowledgeReport)) : list task_value :=
  map TickerValue results
  ++ (if use_macro_news fl then [MacroValue macro_news_result] else [])
  ++ match batch with
     | Some d => [BatchValue d]
     | None => []
     end.

(** ** [src/core/cli/run_morning_snapshot.py]: the switches of the sources

    [str.strip()] removes the white space of both ends. Below code point
    128 the white space of a Python [str] is made of the characters 9 to
    13 and 28 to 32; [isascii] marks the strings that stay below 128, on
    which [strip] and [lower] are Python's. *)

Definition is_space (c : Ascii.ascii) : bool :=
  let n := Ascii.nat_of_ascii c in
  ((9 <=? n) && (n <=? 13)) || ((28 <=? n) && (n <=? 32)).

Fixpoint lstrip (s : string) : string :=
  match s with
  | EmptyString => EmptyString
  | String c s' => if is_space c then lstrip s' else s
  end.

Fixpoint rstrip (s : string) : string :=
  match s with
  | EmptyString => EmptyString
  | String c s' =>
      match rstrip s' with
      | EmptyString => if is_space c then EmptyString else String c EmptyString
      | kept => String c kept
      end
  end.

Definition strip (s : string) : string := rstrip (lstrip s).

Fixpoint isascii (s : string) : bool :=
  match s with
  | EmptyString => true
  | String c s' => (Ascii.nat_of_ascii c <? 128) && isascii s'
  end.

(** A string of white space. *)
Fixpoint blank (s : string) : bool :=
  match s with
  | EmptyString => true
  | String c s' => is_space c && blank s'
  end.

(** Whether the first, or the last, character is white space. *)
Definition head_space (s : string) : bool :=
  match s with String c _ => is_space c | EmptyString => false end.

Fixpoint last_space (s : string) : bool :=
  match s with
  | EmptyString => false
  | String c EmptyString => is_space c
  | String _ s' => last_space s'
  end.

(** [_env_flag(name, default)] *)
Definition _env_flag (name : string) (default : bool) : prog bool :=
  raw ← getenv name;
  match raw with
  | None => mret default
  | Some raw =>
      mret (in_strings (lower (strip raw)) ["1"; "true"; "yes"; "y"; "on"])
  end.

(** ** Calls a program never makes, and a logic of runs *)

(** [p] makes no call that [f] selects. *)
Fixpoint avoids {A : Type} (f : op -> bool) (p : prog A) : Prop :=
  match p with
  | Op o k => f o = false ∧ ∀ r, avoids f (k r)
  | _ => True
  end.

(** The calls that only read the environment or print. *)
Definition is_env (o : op) : bool :=
  match o with
  | Print _ | Getenv _ => true
  | _ => false
  end.

(** The calls on a page. *)
Definition is_page_call (o : op) : bool :=
  match o with
  | Fetch _ _ _ _ | Goto _ _ _ | Act _ _ | ActObserved _ _
  | WaitForLoadState _ _ | Url _ | Extract _ _ _ | Observe _ _ => true
  | _ => false
  end.

(** [stagehand.close()] *)
Definition is_close (o : op) : bool :=
  match o with
  | Close _ => true
  | _ => false
  end.

(** The reads of one of the variables of [names]. *)
Definition reads (names : list string) (o : op) : bool :=
  match o with
  | Getenv name => in_strings name names
  | _ => false
  end.

(** [stagehand.init()] returned. *)
Definition initialised (e : event) : bool :=
  let 'Ev o r := e in
  match o return resp o -> bool with
  | Init _ => fun r => match r with Ok _ => true | Raised _ => false end
  | _ => fun _ => false
  end r.

(** The calls of [create_stagehand_session] before the two it converts
    with [int]. *)
Definition not_setting (o : op) : bool :=
  negb (is_env o)
  || reads ["STAGEHAND_VERBOSE"; "STAGEHAND_DOM_SETTLE_TIMEOUT_MS"] o.

(** The variable a call reads and the answer it got. *)
Definition getenv_answer (e : event) : option (string * option string) :=
  let 'Ev o r := e in
  match o return resp o -> option (string * option string) with
  | Getenv name => fun r => Some (name, r)
  | _ => fun _ => None
  end r.

(** Every read of [Vital_login], or every read of [Vital_password], found
    the variable unset or empty. *)
Definition credentials_missing (tr : list event) : Prop :=
  (∀ username, Ev (Getenv "Vital_login") username ∈ tr ->
               truthy_str username = false)
  ∨ (∀ password, Ev (Getenv "Vital_password") password ∈ tr ->
                 truthy_str password = false).

(** A state [s] is kept beside a run: [upd] moves it at every call,
    [inv] is to hold of it all along, [Q] of the outcome and of the state
    at the end. *)
Fixpoint wp {S A : Type} (upd : S -> event -> S) (inv : S -> Prop)
    (p : prog A) (s : S) (Q : result A -> S -> Prop) : Prop :=
  inv s ∧
  match p with
  | Ret a => Q (Ok a) s
  | Throw e => Q (Raised e) s
  | Op o k => ∀ r, wp upd inv (k r) (upd s (Ev o r)) Q
  end.

(** The exception a call raised. *)
Definition event_exn (e : event) : option exn :=
  let 'Ev o r := e in
  let raised {A : Type} (r : result A) : option exn :=
    match r with
    | Raised e => Some e
    | Ok _ => None
    end in
  match o return resp o -> option exn with
  | NewStagehand _ => raised
  | Init _ => raised
  | Close _ => raised
  | Fetch _ _ _ _ => raised
  | Goto _ _ _ => raised
  | Act _ _ => raised
  | ActObserved _ _ => raised
  | WaitForLoadState _ _ => raised
  | Extract _ _ _ => raised
  | Observe _ _ => raised
  | WriteText _ _ => raised
  | _ => fun _ => None
  end r.

(** The exception of the last call, when that was a call on the page. *)
Definition page_failure (_ : option exn) (e : event) : option exn :=
  if is_page_call (ev_op e) then event_exn e else None.

(** [p] returns a value that satisfies [P], or raises the exception of a
    call on the page, the last call it made. *)
Definition fails_by_page_call {A : Type} (p : prog A) (P : A -> Prop) : Prop :=
  ∀ s, wp page_failure (fun _ => True) p s
         (fun res s' => match res with
                        | Ok a => P a
                        | Raised e => s' = Some e
                        end).

(** [p] returns a value that satisfies [P], or raises. *)
Definition returns {A : Type} (p : prog A) (P : A -> Prop) : Prop :=
  ∀ s, wp page_failure (fun _ => True) p s
         (fun res _ => match res with
                       | Ok a => P a
                       | Raised _ => True
                       end).

(** A headline with its text only. *)
Definition bare (h : VitalKnowledgeHeadline) : Prop :=
  vkh_context h = None ∧ vkh_sentiment h = None.

(** What the third loop of the batch connector makes of an entry of
    [ticker_data]. *)
Definition report_of_entry (ticker : string) (entry : ticker_entry)
    (r : VitalKnowledgeReport) : Prop :=
  vk_ticker r = upper ticker
  ∧ vk_report_dates r = te_dates entry
  ∧ (vk_headlines r = [] -> vk_summary r = None)
  ∧ Forall bare (vk_headlines r)
  ∧ length (vk_headlines r) <= 5.

(** The reports of the [try] block of the batch connector. *)
Definition scraped (tickers : list string) (reports : list VitalKnowledgeReport)
  : Prop :=
  ∃ morning_date market_close_date,
    Forall2 (fun t r =>
               vk_ticker r = upper t
               ∧ (NoDup tickers ->
                  vk_report_dates r = [morning_date; market_close_date])
               ∧ (vk_headlines r = [] -> vk_summary r = None)
               ∧ Forall bare (vk_headlines r)
               ∧ length (vk_headlines r) <= 5)
      tickers reports.


(** [Path.write_text] *)
Definition is_write (o : op) : bool :=
  match o with
  | WriteText _ _ => true
  | _ => false
  end.

(** Whether a write has failed, with its exception, and the number of
    calls made since. *)
Definition after_failed_write (s : option (exn * nat)) (e : event)
  : option (exn * nat) :=
  match s with
  | Some (x, n) => Some (x, S n)
  | None =>
      if is_write (ev_op e) then (fun x => (x, 0)) <$> event_exn e else None
  end.

(** No call follows a write that failed. *)
Definition stops_at_failed_write (s : option (exn * nat)) : Prop :=
  match s with
  | Some (_, n) => n = 0
  | None => True
  end.

(** [p] raises the exception of a write that fails, at once. *)
Definition fatal_writes {A : Type} (p : prog A) : Prop :=
  wp after_failed_write stops_at_failed_write p None
     (fun res s => match s with
                   | Some (e, _) => res = Raised e
                   | None => True
                   end).

(** ** Browser sessions across the tasks *)









(** ** [src/skills/vital_knowledge/research.py]: the connector of one ticker *)





End Pipeline.

Arguments Ret {elsewhere A} a.
Arguments Throw {elsewhere A} e.
Arguments Op {elsewhere A} o k.

(** * [src/skills/googlenews/research.py]

    The connector of Google News speaks to the page in its own words:
    [goto] with a [wait_until], [extract] with its own prompts and
    schemas, and [evaluate]. Its calls and its coroutines are declared
    here, apart from those of the driver. *)
Module googlenews.

(** [ArticleLink] and [ArticleLinks] *)
Record ArticleLink := {
  al_headline : string;
  al_url : string;
  al_source : option string;
  al_age : option string;
}.

Record ArticleLinks := { articles : list ArticleLink }.

(** An object of the list that the script of [page.evaluate] returns:
    [{ url: href, text: text }]. *)
Record link := { url : string; text : string }.

(** The prompts given to [page.extract], with the values interpolated
    into them. *)
Inductive instruction :=
| TopHeadlines (max_stories max_days : Z)
| ArticleSummary (ticker : string)
| OverallSummary (n : nat) (ticker : string) (all_summaries : string).

Inductive schema := SArticleLinks | SGoogleNewsStory | SGoogleNewsSummary.

Definition schema_type (s : schema) : Type :=
  match s with
  | SArticleLinks => ArticleLinks
  | SGoogleNewsStory => GoogleNewsStory
  | SGoogleNewsSummary => GoogleNewsSummary
  end.

(** [wait_until=] *)
Inductive wait_until := networkidle | load.

(** The one script given to [page.evaluate]: the links of the page whose
    [href] starts with [http] and whose text is longer than 15. *)
Inductive script := CollectLinks.

Inductive op : Type :=
| Print (line : string)
| Goto (page : Page) (url : string) (until : wait_until) (timeout : Z)
| Extract (page : Page) (i : instruction) (sch : schema)
| Evaluate (page : Page) (s : script)
| Url (page : Page).

Definition resp (o : op) : Type :=
  match o with
  | Print _ => unit
  | Goto _ _ _ _ => result unit
  | Extract _ _ sch => result (option (schema_type sch))
  | Evaluate _ _ => result (list link)
  | Url _ => string
  end.

Inductive prog (A : Type) : Type :=
| Ret (a : A)
| Throw (e : exn)
| Op (o : op) (k : resp o -> prog A).
Arguments Ret {A} a.
Arguments Throw {A} e.
Arguments Op {A} o k.

Fixpoint bind {A B : Type} (p : prog A) (f : A -> prog B) : prog B :=
  match p with
  | Ret a => f a
  | Throw e => Throw e
  | Op o k => Op o (fun r => bind (k r) f)
  end.

#[export] Instance prog_ret : MRet prog := @Ret.
#[export] Instance prog_bind : MBind prog := fun A B f p => bind p f.

(** [try: p / except Exception as e: h e] *)
Fixpoint try_except {A : Type} (p : prog A) (h : exn -> prog A) : prog A :=
  match p with
  | Ret a => Ret a
  | Throw e => h e
  | Op o k => Op o (fun r => try_except (k r) h)
  end.

(** The outcome of [p] as a value. *)
Definition attempt {A : Type} (p : prog A) : prog (result A) :=
  try_except (bind p (fun a => Ret (Ok a))) (fun e => Ret (Raised e)).

Definition ask (o : op) : prog (resp o) := Op o Ret.

Definition call {A : Type} (o : op) (cast : resp o -> result A) : prog A :=
  Op o (fun r => match cast r with Ok a => Ret a | Raised e => Throw e end).

Definition print (line : string) : prog unit := ask (Print line).
Definition page_url (page : Page) : prog string := ask (Url page).
Definition goto (page : Page) (url : string) (until : wait_until)
    (timeout : Z) : prog unit :=
  call (Goto page url until timeout) id.
Definition extract (page : Page) (i : instruction) (sch : schema)
  : prog (option (schema_type sch)) :=
  call (Extract page i sch) id.
Definition evaluate (page : Page) (s : script) : prog (list link) :=
  call (Evaluate page s) id.

(** [for x in l: body x], threading the variables the body assigns. *)
Fixpoint for_each {A S : Type} (l : list A) (body : A -> S -> prog S) (s : S)
  : prog S :=
  match l with
  | [] => Ret s
  | x :: l' => s' ← body x s; for_each l' body s'
  end.

Record event := Ev { ev_op : op; ev_resp : resp ev_op }.

Fixpoint runs {A : Type} (p : prog A) (tr : list event) (res : result A)
  : Prop :=
  match p with
  | Ret a => tr = [] ∧ res = Ok a
  | Throw e => tr = [] ∧ res = Raised e
  | Op o k => ∃ r tr', tr = Ev o r :: tr' ∧ runs (k r) tr' res
  end.

Definition printed (e : event) : option string :=
  match ev_op e with
  | Print line => Some line
  | _ => None
  end.

Definition log (tr : list event) : list string := omap printed tr.

Definition world := nat -> forall o : op, resp o.

Fixpoint exec_from {A : Type} (w : world) (n : nat) (p : prog A)
  : list event * result A :=
  match p with
  | Ret a => ([], Ok a)
  | Throw e => ([], Raised e)
  | Op o k =>
      let r := w n o in
      let '(tr, res) := exec_from w (S n) (k r) in
      (Ev o r :: tr, res)
  end.

Definition exec {A : Type} (w : world) (p : prog A) : list event * result A :=
  exec_from w 0 p.

(** [s.replace(old, new)] for a non-empty [old]. *)
Definition replace (old new s : string) : string := join new (split old s).

(** [s[:n]] *)
Definition prefix_of (n : nat) (s : string) : string := String.substring 0 n s.

(** [l[:n]] for an [int]: a negative [n] counts from the end. *)
Definition slice_to {A : Type} (n : Z) (l : list A) : list A :=
  if (0 <=? n)%Z then take (Z.to_nat n) l
  else take (length l - Z.to_nat (- n)) l.

(** [s.summary and not s.summary.startswith("Error")] *)
Definition usable (s : GoogleNewsStory) : bool :=
  truthy_str (gns_summary s)
  && negb (String.prefix "Error" (default "" (gns_summary s))).

(** The inner loop of the matching: the [url] of the first link whose
    text holds the first 30 characters of the headline, whatever the
    case. *)
Fixpoint matching_link (headline : string) (all_links : list link)
  : option string :=
  match all_links with
  | [] => None
  | l :: all_links' =>
      if contains (lower (prefix_of 30 headline)) (lower (text l))
      then Some (url l)
      else matching_link headline all_links'
  end.

(** The outer loop: the articles that have a link, with that link. *)
Fixpoint match_articles (metadata : list ArticleLink) (all_links : list link)
  : list ArticleLink :=
  match metadata with
  | [] => []
  | article :: metadata' =>
      match matching_link (al_headline article) all_links with
      | Some (String _ _ as matching) =>
          {| al_headline := al_headline article; al_url := matching;
             al_source := al_source article; al_age := al_age article |}
          :: match_articles metadata' all_links
      | _ => match_articles metadata' all_links
      end
  end.

(** [article_metadata.articles] *)
Definition articles_of (article_metadata : option ArticleLinks)
  : prog (list ArticleLink) :=
  match article_metadata with
  | Some m => mret (articles m)
  | None =>
      Throw (Exn "AttributeError"
               "'NoneType' object has no attribute 'articles'")
  end.

(** The [try] block up to the loop of the visits: [stories] is still
    empty. *)
Definition find_articles (page : Page) (url : string)
    (max_stories max_days : Z) : prog ArticleLinks :=
  goto page url networkidle 30000;;
  print "[GoogleNews] News results loaded";;
  print "[GoogleNews] Extracting article links...";;
  article_metadata ←
    extract page (TopHeadlines max_stories max_days) SArticleLinks;
  all_links ← evaluate page CollectLinks;
  metadata ← articles_of article_metadata;
  let article_links := {| articles := match_articles metadata all_links |} in
  print ("[GoogleNews] Found " +:+ pretty (length (articles article_links))
         +:+ " articles to visit");;
  mret article_links.

(** The story of an article whose page could not be read. *)
Definition basic_story (article : ArticleLink) : GoogleNewsStory :=
  {| gns_headline := al_headline article; gns_url := al_url article;
     gns_source := al_source article; gns_age := al_age article;
     gns_summary := None; gns_sentiment := None |}.

(** One round of the loop of the visits. *)
Definition visit (page : Page) (ticker : string) (total : Z)
    (numbered : nat * ArticleLink) (stories : list GoogleNewsStory)
  : prog (list GoogleNewsStory) :=
  let '(i, article) := numbered in
  print (nl +:+ "[GoogleNews] [" +:+ pretty (i + 1) +:+ "/" +:+ pretty total
         +:+ "] Visiting: " +:+ prefix_of 60 (al_headline article) +:+ "...");;
  print ("[GoogleNews] URL: " +:+ al_url article);;
  try_except
    (goto page (al_url article) load 30000;;
     print ("[GoogleNews] [" +:+ pretty (i + 1) +:+ "] Page loaded");;
     summary_data ← extract page (ArticleSummary ticker) SGoogleNewsStory;
     final_url ← page_url page;
     let story :=
       {| gns_headline := al_headline article;
          gns_url := final_url;
          gns_source := al_source article;
          gns_age := al_age article;
          gns_summary := summary_data ≫= gns_summary;
          gns_sentiment := summary_data ≫= gns_sentiment |} in
     let stories := stories ++ [story] in
     print ("[GoogleNews] OK Summary: "
            +:+ (if truthy_str (gns_summary story)
                 then prefix_of 80 (default "" (gns_summary story))
                 else "N/A")
            +:+ "...");;
     mret stories)
    (fun e =>
       print ("[GoogleNews] ERROR processing article: " +:+ exn_msg e);;
       mret (stories ++ [basic_story article])).

(** The section of the overall summary. *)
Definition overall_summary (page : Page) (ticker : string)
    (stories : list GoogleNewsStory) : prog (option GoogleNewsSummary) :=
  try_except
    (print (nl +:+ "[GoogleNews] Generating overall summary...");;
     let all_summaries :=
       join nl (map (fun s => "- " +:+ gns_headline s +:+ ": "
                              +:+ default "" (gns_summary s))
                  (filter (fun s => usable s = true) stories)) in
     match all_summaries with
     | String _ _ =>
         try_except
           (extract page
              (OverallSummary
                 (length (filter (fun s => usable s = true) stories))
                 ticker all_summaries)
              SGoogleNewsSummary)
           (fun summary_error =>
              print ("[GoogleNews] Error generating summary (continuing with stories): "
                     +:+ exn_msg summary_error);;
              mret None)
     | EmptyString => mret None
     end)
    (fun e =>
       print ("[GoogleNews] Error in summary generation section (continuing with stories): "
              +:+ exn_msg e);;
       mret None).

(** The [try] block after the loop of the visits. *)
Definition wrap_up (page : Page) (ticker : string)
    (stories : list GoogleNewsStory) : prog GoogleNewsTopStories :=
  print (nl +:+ "[GoogleNews] Processed " +:+ pretty (length stories)
         +:+ " articles ("
         +:+ pretty (length (filter (fun s => truthy_str (gns_summary s) = true)
                               stories))
         +:+ " with summaries)");;
  overall ← overall_summary page ticker stories;
  let result :=
    {| gn_ticker := upper ticker; gn_stories := stories;
       gn_news_summary := overall |} in
  let successful_count := length (filter (fun s => usable s = true) stories) in
  print (nl +:+ "[GoogleNews] Complete! " +:+ pretty (length stories)
         +:+ " stories collected, " +:+ pretty successful_count
         +:+ " with summaries");;
  mret result.

(** The [try] block. [stories] is the one variable of the block that the
    [except] clause reads: the block hands it over as it stands when the
    block is left, together with its outcome. The loop of the visits
    catches what its calls raise, so the block can only be left by an
    exception before the loop or after it. *)
Definition scrape (page : Page) (ticker url : string)
    (max_stories max_days : Z)
  : prog (list GoogleNewsStory * result GoogleNewsTopStories) :=
  let stories : list GoogleNewsStory := [] in
  found ← attempt (
    article_links ← find_articles page url max_stories max_days;
    print (nl +:+ "[GoogleNews] Processing "
           +:+ pretty (Z.min (Z.of_nat (length (articles article_links)))
                         max_stories)
           +:+ " articles sequentially...");;
    mret article_links);
  match found with
  | Raised e => mret (stories, Raised e)
  | Ok article_links =>
      let total :=
        Z.min (Z.of_nat (length (articles article_links))) max_stories in
      let visited := slice_to max_stories (articles article_links) in
      stories ←
        for_each (zip (seq 0 (length visited)) visited)
          (visit page ticker total) stories;
      outcome ← attempt (wrap_up page ticker stories);
      mret (stories, outcome)
  end.

Definition fetch_google_news_stories (page : Page) (ticker : string)
    (max_stories max_days : Z) : prog GoogleNewsTopStories :=
  let search_query := ticker +:+ " stock news" in
  let url :=
    "https://www.google.com/search?"
    +:+ "q=" +:+ replace " " "+" search_query
    +:+ "&tbm=nws"
    +:+ "&tbs=qdr:d" +:+ pretty max_days +:+ ",sbd:1" in
  print ("[GoogleNews] Navigating to Google News for '" +:+ search_query
         +:+ "'");;
  print ("[GoogleNews] URL: " +:+ url);;
  '(stories, outcome) ← scrape page ticker url max_stories max_days;
  match outcome with
  | Ok result => mret result
  | Raised e =>
      print ("[GoogleNews] Fatal error for " +:+ ticker +:+ ": "
             +:+ exn_msg e);;
      match stories with
      | _ :: _ =>
          let successful_count :=
            length (filter (fun s => usable s = true) stories) in
          print ("[GoogleNews] Returning " +:+ pretty (length stories)
                 +:+ " stories collected (" +:+ pretty successful_count
                 +:+ " with summaries) before error");;
          mret {| gn_ticker := upper ticker; gn_stories := stories;
                  gn_news_summary := None |}
      | [] =>
          print "[GoogleNews] No stories collected, returning empty result";;
          mret {| gn_ticker := upper ticker; gn_stories := [];
                  gn_news_summary := None |}
      end
  end.

(** ** What the runs of the connector have in common *)

(** Every run of [p] satisfies [Q]: [Q] is read at each leaf, with the
    calls that lead to it. *)
Fixpoint holds {A : Type} (p : prog A)
    (Q : list event -> result A -> Prop) : Prop :=
  match p with
  | Ret a => Q [] (Ok a)
  | Throw e => Q [] (Raised e)
  | Op o k => ∀ r, holds (k r) (fun tr res => Q (Ev o r :: tr) res)
  end.

(** The line of the [except] clause of the connector, and the line of
    its branch that returns the stories collected so far. *)
Definition fatal_line (line : string) : bool :=
  String.prefix "[GoogleNews] Fatal error for " line.

Definition returning_line (line : string) : bool :=
  String.prefix "[GoogleNews] Returning " line.

Definition alarm (o : op) : bool :=
  match o with
  | Print line => fatal_line line || returning_line line
  | _ => false
  end.

(** A stretch of a run without those lines. *)
Definition quiet (tr : list event) : Prop :=
  Forall (fun ev => alarm (ev_op ev) = false) tr.

(** A story made from an article of the search results. *)
Definition story_of (article : ArticleLink) (story : GoogleNewsStory) : Prop :=
  gns_headline story = al_headline article
  ∧ gns_source story = al_source article
  ∧ gns_age story = al_age article.

End googlenews.

(** * The pipeline on a sample watchlist

    The parameters are set to sample values: a quote is its text, the
    MarketWatch stories are a list of headlines, [int] reads a sign and
    decimal digits. *)

Definition digit (c : Ascii.ascii) : option Z :=
  let n := Ascii.nat_of_ascii c in
  if (48 <=? n) && (n <=? 57) then Some (Z.of_nat (n - 48)) else None.

Fixpoint digits (acc : Z) (s : string) : option Z :=
  match s with
  | EmptyString => Some acc
  | String c s' => d ← digit c; digits (10 * acc + d) s'
  end.

Definition parse_int (s : string) : option Z :=
  match s with
  | EmptyString => None
  | String c EmptyString => digits 0 s
  | String c rest =>
      if Ascii.nat_of_ascii c =? 45 then Z.opp <$> digits 0 rest
      else if Ascii.nat_of_ascii c =? 43 then digits 0 rest
      else digits 0 s
  end.

Definition sample_report (today : string)
    (typed_items :
       list (string * YahooAIAnalysis * option (list string)
             * option GoogleNewsTopStories * option VitalKnowledgeReport))
    (macro_news_obj : option MacroNewsSummary) : result string :=
  Ok ("# Morning Snapshot " +:+ today +:+ ": "
      +:+ pretty (length typed_items) +:+ " tickers").

Definition sample : Elsewhere :=
  {| YahooQuoteSnapshot := string; MarketWatchTopStories := list string |}.

Definition sample_library : @Library sample :=
  @Build_Library sample (@length string) parse_int sample_report.

Definition boom : exn := Exn "TimeoutError" "Timeout 15000ms exceeded".

(** A world in which every call succeeds: the browser opens, the
    credentials are set, Yahoo gives a quote and an analysis, the reports
    have one bullet per ticker. *)
Definition fair : @world sample := fun n o =>
  match o with
  | Print _ => tt
  | Getenv name =>
      if String.eqb name "Vital_login" then Some "reader"
      else if String.eqb name "Vital_password" then Some "secret"
      else None
  | Now _ => "2025-11-20"
  | Sleep _ => tt
  | Acquire => tt
  | Release => tt
  | NewStagehand _ => Ok {| stagehand_id := n |}
  | Init _ => Ok tt
  | Close _ => Ok tt
  | Fetch YahooQuote _ ticker _ => Ok (Some ("quote of " +:+ ticker))
  | Fetch YahooAI _ ticker _ =>
      Ok (Some {| ya_ticker := ticker; ya_title := Some "Outlook";
                  ya_summary := Some "Steady"; ya_bullets := ["Up"] |})
  | Fetch MarketWatch _ _ _ => Ok None
  | Fetch GoogleNews _ _ _ => Ok None
  | Goto _ _ _ => Ok tt
  | Act _ _ => Ok tt
  | ActObserved _ _ => Ok tt
  | WaitForLoadState _ _ => Ok tt
  | Url _ => "https://vitalknowledge.net/article/2025/11/20/report"
  | Extract _ _ SExtractedBullets => Ok (Some {| eb_bullets := ["Earnings beat"] |})
  | Extract _ _ SCombinedBullets => Ok (Some {| top_bullets := ["Earnings beat"] |})
  | Extract _ _ SVitalKnowledgeSummary =>
      Ok (Some {| vks_overall_sentiment := Some bullish;
                  vks_key_themes := ["earnings"];
                  vks_summary := Some "Strong quarter" |})
  | Extract _ _ SMacroExtract =>
      Ok (Some {| me_summary := "Stocks rose"; me_bullets := ["S&P +1%"] |})
  | Observe _ _ => Ok ["first article"]
  | WriteText _ _ => Ok tt
  end.

(** The same world, where one kind of call fails. *)
Definition quote_down : @world sample := fun n o =>
  match o as o' return resp o' with
  | Fetch YahooQuote _ _ _ => Raised boom
  | o' => fair n o'
  end.

Definition close_down : @world sample := fun n o =>
  match o as o' return resp o' with
  | Close _ => Raised boom
  | o' => fair n o'
  end.

Definition failing_click (action : string) : @world sample :=
  fun n o =>
    match o as o' return resp o' with
    | Act page a =>
        if String.eqb a action then Raised boom else fair n (Act page a)
    | o' => fair n o'
    end.

Definition morning_click_down : @world sample :=
  failing_click "Click on the 'morning' link or button in the navigation".

Definition market_close_click_down : @world sample :=
  failing_click "Click on the 'market close' link or button in the navigation".

Definition no_credentials : @world sample := fun n o =>
  match o as o' return resp o' with
  | Getenv _ => None
  | o' => fair n o'
  end.

Definition all_on : flags :=
  {| use_yahoo_quote := true; use_yahoo_analysis := true;
     use_marketwatch := true; use_googlenews := true;
     use_vital_knowledge := true; use_macro_news := true |}.

Definition yahoo_only : flags :=
  {| use_yahoo_quote := true; use_yahoo_analysis := true;
     use_marketwatch := false; use_googlenews := false;
     use_vital_knowledge := true; use_macro_news := true |}.

Definition sample_item (ticker : string)
    (quote : option (@YahooQuoteSnapshot sample))
    (analysis : option YahooAIAnalysis) : @item sample :=
  {| item_ticker := ticker;
     item_error := match quote with Some _ => None | None => Some "YahooQuote failed" end;
     item_quote := quote; item_analysis := analysis;
     item_marketwatch := None; item_googlenews := None;
     item_vital_knowledge := None |}.

Definition sample_page : Page := {| page_of := {| stagehand_id := 0 |} |}.

Definition sample_results : list (@item sample) :=
  [sample_item "AAPL" (Some "quote of AAPL") None; sample_item "msft" None None].

(** Worlds for the switches, the settings of the session, and the disk. *)
Definition flag_padded : @world sample := fun n o =>
  match o as o' return resp o' with
  | Getenv name =>
      if String.eqb name "ENABLE_GOOGLE_NEWS" then Some " Yes " else None
  | o' => fair n o'
  end.

Definition verbose_garbled : @world sample := fun n o =>
  match o as o' return resp o' with
  | Getenv name =>
      if String.eqb name "STAGEHAND_VERBOSE" then Some "two" else None
  | o' => fair n o'
  end.

Definition init_down : @world sample := fun n o =>
  match o as o' return resp o' with
  | Init _ => Raised boom
  | o' => fair n o'
  end.

Definition disk_full : @world sample := fun n o =>
  match o as o' return resp o' with
  | WriteText _ _ => Raised (Exn "OSError" "No space left on device")
  | o' => fair n o'
  end.

(** A world for the connector of Google News: two headlines are found,
    the second has no link on the page, every page can be read. *)
Definition news_fair : googlenews.world := fun n o =>
  match o with
  | googlenews.Print _ => tt
  | googlenews.Goto _ _ _ _ => Ok tt
  | googlenews.Extract _ _ googlenews.SArticleLinks =>
      Ok (Some {| googlenews.articles :=
                    [{| googlenews.al_headline := "Apple beats estimates";
                        googlenews.al_url := "";
                        googlenews.al_source := Some "Reuters";
                        googlenews.al_age := Some "2 hours ago" |};
                     {| googlenews.al_headline := "Services revenue at a record";
                        googlenews.al_url := "";
                        googlenews.al_source := None;
                        googlenews.al_age := None |}] |})
  | googlenews.Extract _ _ googlenews.SGoogleNewsStory =>
      Ok (Some {| gns_headline := ""; gns_url := ""; gns_source := None;
                  gns_age := None; gns_summary := Some "Earnings beat";
                  gns_sentiment := Some positive |})
  | googlenews.Extract _ _ googlenews.SGoogleNewsSummary =>
      Ok (Some {| gsum_overall_sentiment := Some bullish;
                  gsum_bullet_points := ["Earnings beat"] |})
  | googlenews.Evaluate _ _ =>
      Ok [{| googlenews.url := "https://news.example/apple";
             googlenews.text := "APPLE BEATS ESTIMATES - Reuters" |}]
  | googlenews.Url _ => "https://news.example/apple?amp"
  end.


Section Properties.

Context {elsewhere : Elsewhere} {library : Library}.

(** * Runs of composed programs *)

Lemma runs_bind {A B : Type} (p : prog A) (f : A -> prog B) tr res :
  runs (p ≫= f) tr res ↔
    (∃ a tr1 tr2, runs p tr1 (Ok a) ∧ runs (f a) tr2 res ∧ tr = tr1 ++ tr2)
    ∨ (∃ e, runs p tr (Raised e) ∧ res = Raised e).
Proof.
  change (p ≫= f) with (bind p f).
  revert tr. induction p as [a|e|o k IH]; intros tr; simpl.
  - split.
    + intros Hf. left. exists a, [], tr. auto.
    + intros [(a' & tr1 & tr2 & [-> Ha] & Hf & ->)|(e & [_ He] & _)];
        [|discriminate].
      injection Ha as <-. exact Hf.
  - split.
    + intros [-> ->]. right. exists e. auto.
    + intros [(a & tr1 & tr2 & [_ Ha] & _)|(e' & [-> He] & ->)];
        [discriminate|].
      injection He as <-. auto.
  - split.
    + intros (r & tr' & -> & Hk). apply IH in Hk.
      destruct Hk as [(a & tr1 & tr2 & Hp & Hf & ->)|(e & Hp & ->)].
      * left. exists a, (Ev o r :: tr1), tr2. eauto 10.
      * right. exists e. eauto 10.
    + intros [(a & tr1 & tr2 & (r & tr' & -> & Hp) & Hf & ->)
             |(e & (r & tr' & -> & Hp) & ->)].
      * exists r, (tr' ++ tr2). split; [done|]. apply IH. left. eauto 10.
      * exists r, tr'. split; [done|]. apply IH. right. eauto.
Qed.

Lemma runs_fmap {A B : Type} (f : A -> B) (p : prog A) tr res :
  runs (f <$> p) tr res ↔
    (∃ a, runs p tr (Ok a) ∧ res = Ok (f a))
    ∨ (∃ e, runs p tr (Raised e) ∧ res = Raised e).
Proof.
  change (f <$> p) with (p ≫= fun a => mret (f a)).
  rewrite runs_bind. split.
  - intros [(a & tr1 & tr2 & Hp & [-> ->] & ->)|H]; [|by right].
    left. exists a. by rewrite app_nil_r.
  - intros [(a & Hp & ->)|H]; [|by right].
    left. exists a, tr, []. by rewrite app_nil_r.
Qed.

Lemma runs_try_except {A : Type} (p : prog A) (h : exn -> prog A) tr res :
  runs (try_except p h) tr res ↔
    (∃ a, runs p tr (Ok a) ∧ res = Ok a)
    ∨ (∃ e tr1 tr2, runs p tr1 (Raised e) ∧ runs (h e) tr2 res
                    ∧ tr = tr1 ++ tr2).
Proof.
  revert tr. induction p as [a|e|o k IH]; intros tr; simpl.
  - split.
    + intros [-> ->]. left. eauto.
    + intros [(a' & [-> Ha] & ->)|(e & tr1 & tr2 & [_ He] & _)];
        [|discriminate].
      auto.
  - split.
    + intros Hh. right. exists e, [], tr. auto.
    + intros [(a & [_ Ha] & _)|(e' & tr1 & tr2 & [-> He] & Hh & ->)];
        [discriminate|].
      injection He as <-. exact Hh.
  - split.
    + intros (r & tr' & -> & Hk). apply IH in Hk.
      destruct Hk as [(a & Hp & ->)|(e & tr1 & tr2 & Hp & Hh & ->)].
      * left. exists a. eauto 10.
      * right. exists e, (Ev o r :: tr1), tr2. eauto 10.
    + intros [(a & (r & tr' & -> & Hp) & ->)
             |(e & tr1 & tr2 & (r & tr' & -> & Hp) & Hh & ->)].
      * exists r, tr'. split; [done|]. apply IH. left. eauto.
      * exists r, (tr' ++ tr2). split; [done|]. apply IH. right. eauto 10.
Qed.

Lemma runs_attempt {A : Type} (p : prog A) tr res :
  runs (attempt p) tr res ↔ ∃ r, runs p tr r ∧ res = Ok r.
Proof.
  unfold attempt. rewrite runs_try_except. split.
  - intros [(a & Hb & ->)|(e & tr1 & tr2 & Hb & [-> ->] & ->)].
    + change (bind p (λ a, Ret (Ok a))) with (Ok <$> p) in Hb.
      apply runs_fmap in Hb as [(a' & Hp & Ha)|(e & _ & He)];
        [|discriminate].
      injection Ha as ->. eauto.
    + change (bind p (λ a, Ret (Ok a))) with (Ok <$> p) in Hb.
      apply runs_fmap in Hb as [(a' & _ & Ha)|(e' & Hp & He)];
        [discriminate|].
      injection He as ->. rewrite app_nil_r. eauto.
  - intros (r & Hp & ->).
    change (bind p (λ a, Ret (Ok a))) with (Ok <$> p).
    destruct r as [a|e].
    + left. exists (Ok a). split; [|done]. apply runs_fmap. left. eauto.
    + right. exists e, tr, []. rewrite app_nil_r. split; [|done].
      apply runs_fmap. right. eauto.
Qed.

Lemma runs_try_finally {A : Type} (p : prog A) (fin : prog unit) tr res :
  runs (try_finally p fin) tr res ↔
    ∃ tr1 r1 tr2 r2, runs p tr1 r1 ∧ runs fin tr2 r2 ∧ tr = tr1 ++ tr2
      ∧ res = match r2 with Ok _ => r1 | Raised e => Raised e end.
Proof.
  revert tr. induction p as [a|e|o k IH]; intros tr; simpl.
  - change (bind fin (λ _, Ret a)) with (fin ≫= λ _, mret a).
    rewrite runs_bind. split.
    + intros [(u & tr1 & tr2 & Hf & [-> ->] & ->)|(e & Hf & ->)].
      * exists [], (Ok a), tr1, (Ok u). by rewrite app_nil_r.
      * exists [], (Ok a), tr, (Raised e). done.
    + intros (tr1 & r1 & tr2 & r2 & [-> ->] & Hf & -> & ->).
      destruct r2 as [u|e]; [left|right; eauto].
      exists u, tr2, []. by rewrite app_nil_r.
  - change (bind fin (λ _, Throw e)) with (fin ≫= λ _, Throw (A := A) e).
    rewrite runs_bind. split.
    + intros [(u & tr1 & tr2 & Hf & [-> ->] & ->)|(e' & Hf & ->)].
      * exists [], (Raised e), tr1, (Ok u). by rewrite app_nil_r.
      * exists [], (Raised e), tr, (Raised e'). done.
    + intros (tr1 & r1 & tr2 & r2 & [-> ->] & Hf & -> & ->).
      destruct r2 as [u|e']; [left|right; eauto].
      exists u, tr2, []. by rewrite app_nil_r.
  - split.
    + intros (r & tr' & -> & Hk). apply IH in Hk.
      destruct Hk as (tr1 & r1 & tr2 & r2 & Hp & Hf & -> & ->).
      exists (Ev o r :: tr1), r1, tr2, r2. eauto 10.
    + intros (tr1 & r1 & tr2 & r2 & (r & tr' & -> & Hp) & Hf & -> & ->).
      exists r, (tr' ++ tr2). split; [done|]. apply IH. eauto 10.
Qed.

Lemma runs_call {A : Type} (o : op) (cast : resp o -> result A) tr res :
  runs (call o cast) tr res ↔ ∃ r, tr = [Ev o r] ∧ res = cast r.
Proof.
  simpl. split.
  - intros (r & tr' & -> & H). exists r.
    destruct (cast r); destruct H as [-> ->]; done.
  - intros (r & -> & ->). exists r, []. split; [done|].
    destruct (cast r); done.
Qed.

Lemma runs_print (line : string) tr res :
  runs (print line) tr res ↔ tr = [Ev (Print line) tt] ∧ res = Ok tt.
Proof.
  simpl. split.
  - intros ([] & tr' & -> & -> & ->). done.
  - intros [-> ->]. by exists tt, [].
Qed.

(** [exec] follows a path of the tree. *)
Lemma exec_from_runs {A : Type} (w : world) (p : prog A) n :
  runs p (exec_from w n p).1 (exec_from w n p).2.
Proof.
  revert n. induction p as [a|e|o k IH]; intros n; simpl; [done..|].
  specialize (IH (w n o) (S n)).
  destruct (exec_from w (S n) (k (w n o))) as [tr res].
  exists (w n o), tr. done.
Qed.

Lemma exec_runs {A : Type} (w : world) (p : prog A) tr res :
  exec w p = (tr, res) -> runs p tr res.
Proof.
  intros H. pose proof (exec_from_runs w p 0) as Hr.
  unfold exec in H. rewrite H in Hr. exact Hr.
Qed.
(** * The session scope *)

Lemma runs_close_session name stagehand tr res :
  runs (close_session name stagehand) tr res ↔
    res = Ok tt ∧
    match stagehand with
    | Some sh => closing name sh tr
    | None => tr = []
    end.
Proof.
  destruct stagehand as [sh|]; simpl.
  - unfold closing. split.
    + intros ([[]|ce] & tr' & -> & H).
      * destruct H as [-> ->]. auto.
      * destruct H as ([] & tr'' & -> & -> & ->). eauto.
    + intros [-> [->|(ce & ->)]].
      * by exists (Ok tt), [].
      * exists (Raised ce). eexists. split; [done|].
        by exists tt, [].
  - split; [intros [-> ->]|intros [-> ->]]; done.
Qed.

Lemma runs_in_session {A : Type} (body : Page -> prog A) tr res :
  runs (in_session body) tr res ↔
    (∃ e, runs create_stagehand_session tr (Raised e)
          ∧ res = Ok (None, Raised e))
    ∨ (∃ sh page tr_s tr_b out,
         runs create_stagehand_session tr_s (Ok (sh, page))
         ∧ runs (body page) tr_b out
         ∧ tr = tr_s ++ tr_b ∧ res = Ok (Some sh, out)).
Proof.
  unfold in_session. rewrite runs_bind. split.
  - intros [(created & tr1 & tr2 & Hc & Hk & ->)|(e & Hc & _)].
    + apply runs_attempt in Hc as (r & Hc & Hr). injection Hr as ->.
      destruct r as [[sh page]|e].
      * apply runs_bind in Hk
          as [(out & tr3 & tr4 & Hb & [-> ->] & ->)|(e & Hb & _)].
        -- apply runs_attempt in Hb as (r & Hb & Hr). injection Hr as ->.
           right. exists sh, page, tr1, tr3, r. by rewrite app_nil_r.
        -- apply runs_attempt in Hb as (r & _ & ?). discriminate.
      * destruct Hk as [-> ->]. left. exists e. by rewrite app_nil_r.
    + apply runs_attempt in Hc as (r & _ & ?). discriminate.
  - intros [(e & Hc & ->)|(sh & page & tr_s & tr_b & out & Hc & Hb & -> & ->)].
    + left. exists (Raised e), tr, []. rewrite app_nil_r.
      split; [apply runs_attempt; eauto|done].
    + left. exists (Ok (sh, page)), tr_s, tr_b.
      split; [apply runs_attempt; eauto|]. split; [|done].
      apply runs_bind. left. exists out, tr_b, []. rewrite app_nil_r.
      split; [apply runs_attempt; eauto|done].
Qed.

(** Taking a run of a composed program apart. *)
Ltac runs_inv_step :=
  match goal with
  | H : runs (mret _) _ _ |- _ => destruct H as [? ?]
  | H : runs (Ret _) _ _ |- _ => destruct H as [? ?]
  | H : runs (Throw _) _ _ |- _ => destruct H as [? ?]
  | H : runs (print _) _ _ |- _ => apply runs_print in H as [? ?]
  | H : runs (attempt _) _ _ |- _ => apply runs_attempt in H as (? & ? & ?)
  | H : runs (_ ≫= _) _ _ |- _ =>
      apply runs_bind in H as [(? & ? & ? & ? & ? & ?)|(? & ? & ?)]
  | H : runs (_ <$> _) _ _ |- _ =>
      apply runs_fmap in H as [(? & ? & ?)|(? & ? & ?)]
  | H : runs (try_except _ _) _ _ |- _ =>
      apply runs_try_except in H as [(? & ? & ?)|(? & ? & ? & ? & ? & ?)]
  | H : runs (let '(_, _) := ?x in _) _ _ |- _ => destruct x
  end.

Ltac runs_inv := repeat (runs_inv_step; simplify_eq; cbv beta iota in * ).

(** The three wrappers have one shape. *)
Lemma runs_session_wrapper {A B : Type} (body : Page -> prog A)
    (on_return : A -> B) (on_error : B) (error_line : exn -> string)
    (name : string) tr res :
  runs ('(stagehand, outcome) ← in_session body;
        returned ←
          match outcome with
          | Ok result => mret (on_return result)
          | Raised e => print (error_line e);; mret on_error
          end;
        close_session name stagehand;;
        mret returned) tr res ->
  scoped body on_return on_error error_line name tr res.
Proof.
  intros H.
  apply runs_bind in H as [([stagehand outcome] & tr1 & tr2 & Hs & Hk & ->)
                          |(e & Hs & _)].
  2: { apply runs_in_session in Hs
         as [(? & _ & ?)|(? & ? & ? & ? & ? & _ & _ & _ & ?)]; discriminate. }
  apply runs_in_session in Hs
    as [(e & Hc & Hr)|(sh & page & tr_s & tr_b & out & Hc & Hb & -> & Hr)];
    simplify_eq.
  - runs_inv;
      match goal with
      | H : runs (close_session _ _) _ _ |- _ =>
          apply runs_close_session in H as [? ?]
      end; simplify_eq.
    rewrite !app_nil_r. by apply scoped_no_session.
  - destruct out as [a|e]; runs_inv;
      match goal with
      | H : runs (close_session _ _) _ _ |- _ =>
          apply runs_close_session in H as [? ?]
      end; simplify_eq; rewrite ?app_nil_r, <- ?app_assoc; simpl.
    + by eapply scoped_returned.
    + by eapply scoped_raised.
Qed.

(** C6. Every run of [_run_source_with_session], and every run of
    [fetch_macro_news_with_session], is of one of the three kinds of
    [scoped]: no session was created, and the wrapper returns [None]; the
    fetch returned, the session is closed, and the wrapper returns the
    value; the fetch raised, the session is closed, and the wrapper
    returns [None]. In the last two the close is always called; when it
    raises, the warning is printed and the value returned is the same.
    The wrapper raises in none of them. *)
Theorem session_closed_on_every_path {R : Type} (source_name ticker : string)
    (fetch_func : Page -> string -> prog (option R)) :
  (∀ tr res,
     runs (_run_source_with_session source_name ticker fetch_func) tr res ->
     scoped (fun page => fetch_func page ticker) id None
       (fun e => "[ERROR] " +:+ ticker +:+ " " +:+ source_name +:+ " failed: "
                 +:+ exn_msg e)
       (source_name +:+ " session for " +:+ ticker) tr res)
  ∧ (∀ tr res,
       runs fetch_macro_news_with_session tr res ->
       scoped fetch_macro_news Some None
         (fun e => "[ERROR] Macro News failed: " +:+ exn_msg e)
         "Macro News session" tr res).
Proof.
  split; intros tr res H.
  - by apply (runs_session_wrapper (λ page, fetch_func page ticker) id None).
  - by apply (runs_session_wrapper fetch_macro_news Some None).
Qed.
(** * The ticker task *)

Lemma scoped_returns {A B : Type} (body : Page -> prog A) (on_return : A -> B)
    on_error error_line name tr res :
  scoped body on_return on_error error_line name tr res -> ∃ v, res = Ok v.
Proof. destruct 1; eauto. Qed.

Lemma runs_run_source {R : Type} (on : bool) (ticker label name : string)
    (fetch_func : Page -> string -> prog (option R)) (on_ok : R -> string)
    (error_messages : list string) tr res :
  runs (run_source on ticker label name fetch_func on_ok error_messages) tr res ->
  if on then
    ∃ tr_w got,
      runs (_run_source_with_session name ticker fetch_func) tr_w (Ok got)
      ∧ tr = Ev (Print ("[" +:+ ticker +:+ "] Starting " +:+ label +:+ "...")) tt
             :: tr_w
             ++ match got with
                | Some r => [Ev (Print (on_ok r)) tt]
                | None => []
                end
      ∧ res = Ok (got,
                  error_messages
                  ++ match got with
                     | Some _ => []
                     | None => [name +:+ " failed"]
                     end)
  else tr = [] ∧ res = Ok (None, error_messages).
Proof.
  unfold run_source. destruct on; [|by intros [-> ->]].
  intros H. runs_inv.
  - match goal with
    | H : runs (_run_source_with_session _ _ _) ?t (Ok ?g) |- _ =>
        exists t, g; destruct g as [r|]; runs_inv;
        rewrite ?app_nil_r; done
    end.
  - match goal with
    | H : runs (_run_source_with_session _ _ _) _ (Raised _) |- _ =>
        apply runs_session_wrapper, scoped_returns in H as [? ?]; done
    end.
Qed.
Lemma runs_run_source_block {R : Type} (on : bool) (ticker label name : string)
    (fetch_func : Page -> string -> prog (option R)) (on_ok : R -> string)
    (error_messages : list string) tr res :
  runs (run_source on ticker label name fetch_func on_ok error_messages) tr res ->
  ∃ got,
    block on ticker label name fetch_func on_ok tr got
    ∧ res = Ok (got,
                error_messages
                ++ if on then
                     match got with
                     | Some _ => []
                     | None => [name +:+ " failed"]
                     end
                   else []).
Proof.
  intros H. apply runs_run_source in H. unfold block. destruct on.
  - destruct H as (tr_w & got & Hw & -> & ->). eauto.
  - destruct H as [-> ->]. rewrite app_nil_r. eauto.
Qed.

Lemma block_scoped {R : Type} (ticker label name : string)
    (fetch_func : Page -> string -> prog (option R)) (on_ok : R -> string)
    tr got :
  block true ticker label name fetch_func on_ok tr got ->
  ∃ before tr_w after,
    tr = before ++ tr_w ++ after
    ∧ scoped (fun page => fetch_func page ticker) id None
        (fun e => "[ERROR] " +:+ ticker +:+ " " +:+ name +:+ " failed: "
                  +:+ exn_msg e)
        (name +:+ " session for " +:+ ticker) tr_w (Ok got).
Proof.
  intros (tr_w & Hw & ->).
  exists [Ev (Print ("[" +:+ ticker +:+ "] Starting " +:+ label +:+ "...")) tt],
    tr_w. eexists. split; [done|].
  by apply (runs_session_wrapper (λ page, fetch_func page ticker) id None).
Qed.

Lemma block_off {R : Type} (ticker label name : string)
    (fetch_func : Page -> string -> prog (option R)) (on_ok : R -> string)
    tr got :
  block false ticker label name fetch_func on_ok tr got -> got = None.
Proof. by intros [_ ->]. Qed.

(** The runs of the body of [process_ticker]: [pre] and [post] stand for
    what the trace holds before and after. *)
Lemma runs_process_ticker_body (ticker : string)
    (use_quote use_analysis use_mw use_gn use_vk : bool) pre post tr res :
  runs (process_ticker_body ticker use_quote use_analysis use_mw use_gn use_vk)
       tr res ->
  ∃ it,
    res = Ok it
    ∧ item_ticker it = ticker
    ∧ item_vital_knowledge it = None
    ∧ (∀ s, enabled use_quote use_analysis use_mw use_gn s = false ->
            item_payload it s = None)
    ∧ (∀ s, enabled use_quote use_analysis use_mw use_gn s = true ->
            ∃ before tr_s after,
              pre ++ tr ++ post = before ++ tr_s ++ after
              ∧ source_scoped s ticker tr_s (Ok (item_payload it s)))
    ∧ item_error it =
        error_summary
          (filter (fun s => enabled use_quote use_analysis use_mw use_gn s
                            && missing it s = true)
                  [YahooQuote; YahooAI; MarketWatch; GoogleNews]).
Proof.
  unfold process_ticker_body. intros H.
  apply runs_bind in H as [([] & ? & tr4 & Hp & H & ->)|(e & Hp & _)];
    [|apply runs_print in Hp as [_ ?]; discriminate].
  apply runs_print in Hp as [-> _].
  apply runs_bind in H as [([quote em1] & trq & tr5 & Hq & H & ->)|(e & Hq & _)];
    [|apply runs_run_source_block in Hq as (? & _ & ?); discriminate].
  apply runs_run_source_block in Hq as (? & Hq & ?); simplify_eq.
  apply runs_bind in H as [([analysis em2] & tra & tr6 & Hy & H & ->)|(e & Hy & _)];
    [|apply runs_run_source_block in Hy as (? & _ & ?); discriminate].
  apply runs_run_source_block in Hy as (? & Hy & ?); simplify_eq.
  apply runs_bind in H as [([mw em3] & trm & tr7 & Hm & H & ->)|(e & Hm & _)];
    [|apply runs_run_source_block in Hm as (? & _ & ?); discriminate].
  apply runs_run_source_block in Hm as (? & Hm & ?); simplify_eq.
  apply runs_bind in H as [([gn em4] & trg & tr8 & Hg & H & ->)|(e & Hg & _)];
    [|apply runs_run_source_block in Hg as (? & _ & ?); discriminate].
  apply runs_run_source_block in Hg as (? & Hg & ?); simplify_eq.
  destruct H as [-> ->].
  eexists. split; [reflexivity|]. split; [reflexivity|]. split; [reflexivity|].
  split; [|split].
  - intros [] Hs; simpl in Hs; subst; simpl;
      eapply block_off; eassumption.
  - intros [] Hs; simpl in Hs; subst; simpl; unfold source_scoped; simpl.
    + apply block_scoped in Hq as (b & l & a & -> & Hq).
      exists (pre ++ [Ev (Print (nl +:+ "=== Processing " +:+ ticker +:+ " ===")) ()] ++ b), l.
      eexists. split; [|exact Hq].
      rewrite <- !app_assoc. reflexivity.
    + apply block_scoped in Hy as (b & l & a & -> & Hy).
      exists (pre ++ [Ev (Print (nl +:+ "=== Processing " +:+ ticker +:+ " ===")) ()] ++ trq ++ b), l.
      eexists. split; [|exact Hy].
      rewrite <- !app_assoc. reflexivity.
    + apply block_scoped in Hm as (b & l & a & -> & Hm).
      exists (pre ++ [Ev (Print (nl +:+ "=== Processing " +:+ ticker +:+ " ===")) ()] ++ trq ++ tra ++ b), l.
      eexists. split; [|exact Hm].
      rewrite <- !app_assoc. reflexivity.
    + apply block_scoped in Hg as (b & l & a & -> & Hg).
      exists (pre ++ [Ev (Print (nl +:+ "=== Processing " +:+ ticker +:+ " ===")) ()] ++ trq ++ tra ++ trm ++ b), l.
      eexists. split; [|exact Hg].
      rewrite <- !app_assoc. reflexivity.
  - clear. simpl.
    destruct use_quote, use_analysis, use_mw, use_gn; simpl;
      repeat match goal with
             | |- context [match ?x with Some _ => _ | None => _ end] =>
                 destruct x; simpl
             end; reflexivity.
Qed.

Lemma runs_with_sem {A : Type} (body : prog A) tr res :
  runs (with_sem body) tr res ->
  ∃ tr_b, runs body tr_b res
          ∧ tr = [Ev Acquire tt] ++ tr_b ++ [Ev Release tt].
Proof.
  unfold with_sem. intros H.
  apply runs_bind in H as [([] & tr0 & tr1 & Ha & H & ->)|(e & Ha & _)];
    [|destruct Ha as (? & ? & _ & _ & ?); discriminate].
  destruct Ha as ([] & ? & -> & -> & _).
  apply runs_try_finally in H as (tr2 & r & tr3 & r3 & H & Hr & -> & ->).
  destruct Hr as ([] & ? & -> & -> & ->). eauto.
Qed.

(** C1. Every run of [process_ticker] returns a dict: it never raises.
    In that dict the slot of a disabled source is null; each enabled
    source has run in a session of its own, whatever became of the
    others, and its slot holds what its own session wrapper returned:
    null when no session could be created, when the fetch raised and
    when the fetch returned nothing ([scoped]). The [error] entry joins
    one non-empty message per enabled source whose slot is null, and is
    null when there is none. *)
Theorem process_ticker_contains_failures (ticker : string)
    (use_quote use_analysis use_mw use_gn use_vk : bool) tr res :
  runs (process_ticker ticker use_quote use_analysis use_mw use_gn use_vk)
       tr res ->
  ∃ it,
    res = Ok it
    ∧ item_ticker it = ticker
    ∧ item_vital_knowledge it = None
    ∧ (∀ s, enabled use_quote use_analysis use_mw use_gn s = false ->
            item_payload it s = None)
    ∧ (∀ s, enabled use_quote use_analysis use_mw use_gn s = true ->
            ∃ before tr_s after,
              tr = before ++ tr_s ++ after
              ∧ source_scoped s ticker tr_s (Ok (item_payload it s)))
    ∧ item_error it =
        error_summary
          (filter (fun s => enabled use_quote use_analysis use_mw use_gn s
                            && missing it s = true)
                  [YahooQuote; YahooAI; MarketWatch; GoogleNews]).
Proof.
  unfold process_ticker. intros H.
  apply runs_with_sem in H as (tr_b & H & ->).
  by eapply runs_process_ticker_body.
Qed.

(** * The report step *)

Lemma log_app tr1 tr2 : log (tr1 ++ tr2) = log tr1 ++ log tr2.
Proof. apply omap_app. Qed.

Lemma log_prints lines : log (map (fun l => Ev (Print l) tt) lines) = lines.
Proof. induction lines as [|l lines IH]; [done|]. unfold log in *. simpl. by f_equal. Qed.

Lemma runs_optional_object {A : Type} (ticker class : string) (dump : option A)
    tr res :
  runs (optional_object ticker class dump) tr res ↔ tr = [] ∧ res = Ok dump.
Proof. destruct dump; reflexivity. Qed.

Lemma runs_typed_item_of (it : item) (typed_items : list typed_item) tr res :
  runs (typed_item_of it typed_items) tr res ->
  tr = map (fun l => Ev (Print l) tt) (report_lines it)
  ∧ res = Ok (typed_items
              ++ from_option (fun q => [report_entry it q]) [] (item_quote it)).
Proof.
  unfold typed_item_of, report_lines, report_entry.
  destruct (item_quote it) as [q|].
  2: { intros H. runs_inv. simpl. by rewrite app_nil_r. }
  intros H. unfold rebuild in H.
  destruct (item_analysis it) as [analysis|];
    destruct (truthy_str (item_error it));
    repeat (first [runs_inv_step
                  |match goal with
                   | H : runs (optional_object _ _ _) _ _ |- _ =>
                       apply runs_optional_object in H as [? ?]
                   end]; simplify_eq; cbv beta iota in * );
    done.
Qed.

Lemma report_entries_cons (it : item) (results : list item) :
  report_entries (it :: results)
  = from_option (fun q => [report_entry it q]) [] (item_quote it)
    ++ report_entries results.
Proof. unfold report_entries. simpl. by destruct (item_quote it). Qed.

Lemma runs_typed_items_from (results : list item) (typed_items : list typed_item)
    tr res :
  runs (for_each results typed_item_of typed_items) tr res ->
  tr = map (fun l => Ev (Print l) tt) (concat (map report_lines results))
  ∧ res = Ok (typed_items ++ report_entries results).
Proof.
  revert typed_items tr.
  induction results as [|it results IH]; intros typed_items tr.
  - intros [-> ->]. by rewrite app_nil_r.
  - cbn [for_each]. intros H.
    apply runs_bind in H as [(acc & tr1 & tr2 & Hi & H & ->)|(e & Hi & ->)];
      apply runs_typed_item_of in Hi as [-> [= ->]].
    apply IH in H as [-> ->]. split.
    + simpl. by rewrite map_app.
    + by rewrite report_entries_cons, app_assoc.
Qed.

Lemma runs_typed_items_of (results : list item) tr res :
  runs (typed_items_of results) tr res ->
  tr = map (fun l => Ev (Print l) tt) (concat (map report_lines results))
  ∧ res = Ok (report_entries results).
Proof. intros H. by apply runs_typed_items_from in H. Qed.

Lemma report_entries_filter (results : list item) :
  report_entries (filter has_quote results) = report_entries results.
Proof.
  induction results as [|it results IH]; [done|].
  rewrite filter_cons. unfold has_quote at 1.
  destruct (decide (is_Some (item_quote it))) as [Hq|Hq].
  - by rewrite !report_entries_cons, IH.
  - rewrite IH, report_entries_cons.
    destruct (item_quote it) eqn:E; [|done].
    destruct Hq. eauto.
Qed.

Lemma report_entries_quotes (results : list item) :
  map entry_quote (report_entries results) = omap item_quote results.
Proof.
  induction results as [|it results IH]; [done|].
  rewrite report_entries_cons, map_app, IH. simpl.
  by destruct (item_quote it).
Qed.

Lemma report_line_logged (results : list item) (it : item) (line : string) :
  it ∈ results -> line ∈ report_lines it ->
  line ∈ concat (map report_lines results).
Proof.
  intros Hit Hl. induction Hit as [it results|it it' results _ IH]; simpl;
    apply elem_of_app; auto.
Qed.
Lemma calls_prints lines (o : op) :
  o ∈ calls (map (fun l => Ev (Print l) tt) lines) -> ∃ l, o = Print l.
Proof.
  unfold calls. rewrite <- list_fmap_compose. intros H.
  apply list_elem_of_fmap in H as (l & -> & _). eauto.
Qed.

Lemma runs_write_report (fl : flags) (today : string) (results : list item)
    (macro_news_result : option MacroNewsSummary) tr res path md :
  runs (write_report fl today results macro_news_result) tr res ->
  WriteText path (Markdown md) ∈ calls tr ->
  ∃ macro_news_obj,
    build_morning_report today (report_entries results) macro_news_obj = Ok md.
Proof.
  unfold write_report. intros H Hw.
  apply runs_bind in H as [(typed_items & tr1 & tr2 & Ht & H & ->)|(e & Ht & ->)];
    apply runs_typed_items_of in Ht as [-> [= ->]].
  unfold calls in Hw. rewrite fmap_app in Hw.
  apply elem_of_app in Hw as [Hw|Hw];
    [apply calls_prints in Hw as [? ?]; discriminate|].
  destruct (report_entries results) as [|entry entries] eqn:E.
  { apply runs_print in H as [-> _]. simpl in Hw.
    apply list_elem_of_singleton in Hw. discriminate. }
  apply runs_bind in H as [(macro_news_obj & tr3 & tr4 & Hm & H & ->)|(e & Hm & ->)].
  2: { destruct (use_macro_news fl), macro_news_result; simpl in Hm;
         destruct Hm; discriminate. }
  assert (tr3 = []) as ->.
  { destruct (use_macro_news fl), macro_news_result; simpl in Hm;
      by destruct Hm. }
  exists macro_news_obj.
  destruct (build_morning_report today (entry :: entries) macro_news_obj)
    as [report_md|e]; [|destruct H as [-> _]; by apply elem_of_nil in Hw].
  runs_inv;
    match goal with
    | H : runs (write_text _ _) _ _ |- _ =>
        apply runs_call in H as (r & -> & ?)
    end; simpl in Hw.
  - apply elem_of_cons in Hw as [Hw|Hw]; [by injection Hw as _ ->|].
    apply list_elem_of_singleton in Hw. discriminate.
  - apply list_elem_of_singleton in Hw. by injection Hw as _ ->.
Qed.

(** C2. The report loop returns one entry per item that has a quote, in
    the order of the result list, and that entry carries the quote; an
    item without a quote gets the line "Skipping ... (no quote data)" and
    no entry, whatever its other payloads: the entries are those of the
    list without such items, and so is the Markdown that [write_report]
    builds and writes. *)
Theorem quoteless_tickers_excluded (fl : flags) (today : string)
    (results : list item) (macro_news_result : option MacroNewsSummary) :
  (∀ tr res,
     runs (typed_items_of results) tr res ->
     ∃ typed_items,
       res = Ok typed_items
       ∧ typed_items = report_entries (filter has_quote results)
       ∧ map entry_quote typed_items = omap item_quote results
       ∧ ∀ it, it ∈ results -> item_quote it = None ->
           ("[WARN] Skipping " +:+ item_ticker it
            +:+ " in report (no quote data)") ∈ log tr)
  ∧ (∀ tr res path md,
       runs (write_report fl today results macro_news_result) tr res ->
       WriteText path (Markdown md) ∈ calls tr ->
       ∃ macro_news_obj,
         build_morning_report today
           (report_entries (filter has_quote results)) macro_news_obj
         = Ok md).
Proof.
  split.
  - intros tr res H. apply runs_typed_items_of in H as [-> ->].
    exists (report_entries results).
    split; [done|]. split; [by rewrite report_entries_filter|].
    split; [apply report_entries_quotes|].
    intros it Hit Hq. rewrite log_prints.
    apply (report_line_logged _ it); [done|].
    unfold report_lines. rewrite Hq. apply list_elem_of_singleton. done.
  - intros tr res path md H Hw. rewrite report_entries_filter.
    by eapply runs_write_report.
Qed.

(** C3. An item with a quote and no analysis has an entry in the report
    input, and the analysis of that entry is the object with the item's
    ticker, no title, no summary and no bullets; the loop says so in a
    warning. *)
Theorem missing_analysis_falls_back (results : list item) (it : item)
    (q : YahooQuoteSnapshot) tr res :
  runs (typed_items_of results) tr res ->
  it ∈ results ->
  item_quote it = Some q ->
  item_analysis it = None ->
  ∃ typed_items,
    res = Ok typed_items
    ∧ (q,
       {| ya_ticker := item_ticker it; ya_title := None; ya_summary := None;
          ya_bullets := [] |},
       item_marketwatch it, item_googlenews it, item_vital_knowledge it)
      ∈ typed_items
    ∧ ("[WARN] " +:+ item_ticker it
       +:+ ": no Yahoo AI analysis; using empty analysis object") ∈ log tr.
Proof.
  intros H Hit Hq Ha. apply runs_typed_items_of in H as [-> ->].
  exists (report_entries results). split; [done|]. split.
  - unfold report_entries. apply list_elem_of_omap. exists it.
    split; [done|]. rewrite Hq. unfold report_entry. by rewrite Ha.
  - rewrite log_prints. apply (report_line_logged _ it); [done|].
    unfold report_lines. rewrite Hq, Ha. apply elem_of_app. left.
    apply list_elem_of_singleton. done.
Qed.
(** * The batch connector *)

Lemma runs_fetch_batch (page : Page) (tickers : list string) tr res :
  runs (fetch_vital_knowledge_headlines_batch page tickers) tr res ->
  batch_fetch page tickers tr res.
Proof.
  unfold fetch_vital_knowledge_headlines_batch. intros H.
  apply runs_bind in H as [([] & tr0 & tr1 & Hp & H & ->)|(e & Hp & _)];
    [|apply runs_print in Hp as [_ ?]; discriminate].
  apply runs_print in Hp as [-> _].
  apply runs_bind in H as [([] & tr_l & tr2 & Hl & H & ->)|(e & Hl & ->)];
    [|simpl; by apply batch_login_raised].
  apply runs_try_except in H
    as [(reports & Hb & ->)|(e & tr_b & tr3 & Hb & Hh & ->)].
  - simpl. by apply batch_returned.
  - runs_inv. rewrite app_nil_r. simpl. by apply batch_try_raised.
Qed.

Lemma empty_reports_one_per_ticker (tickers : list string) :
  one_per_ticker tickers (empty_reports tickers).
Proof.
  unfold one_per_ticker, empty_reports. split; [by rewrite length_map|].
  split; [by rewrite <- list_fmap_compose|].
  apply Forall_forall. intros r Hr.
  apply list_elem_of_fmap in Hr as (t & -> & _). simpl. lia.
Qed.

Lemma runs_process_bullets (page : Page)
    (ticker_data : gmap string ticker_entry) (ticker : string)
    (results : list VitalKnowledgeReport) tr reports :
  runs (process_bullets page ticker_data ticker results) tr (Ok reports) ->
  ∃ report,
    reports = results ++ [report]
    ∧ vk_ticker report = upper ticker
    ∧ length (vk_headlines report) <= 5.
Proof.
  unfold process_bullets. intros H.
  repeat (first
    [runs_inv_step
    |match goal with
     | H : runs (getitem ?d ?k) _ _ |- _ =>
         unfold getitem in H; destruct (d !! k)
     | H : runs (extract _ _ _) _ _ |- _ =>
         apply runs_call in H as (? & ? & ?)
     | H : runs (match ?l with [] => _ | _ :: _ => _ end) _ _ |- _ =>
         destruct l eqn:?
     | H : runs (match ?l with [] => _ | _ :: _ => _ end ≫= _) _ _ |- _ =>
         destruct l eqn:?
     end]; simplify_eq; cbv beta iota zeta in * ).
  all: eexists; (split; [reflexivity|]); (split; [reflexivity|]).
  all: cbn [vk_headlines]; unfold headlines_of; rewrite length_map.
  all: try (simpl; lia).
  match goal with
  | E : ?l = _, c : option CombinedBullets |- length ?l <= 5 =>
      rewrite E; destruct c; [rewrite length_take; lia|simpl; lia]
  end.
Qed.

Lemma runs_process_all (page : Page) (ticker_data : gmap string ticker_entry)
    (tickers : list string) (results : list VitalKnowledgeReport) tr reports :
  runs (for_each tickers (process_bullets page ticker_data) results) tr
       (Ok reports) ->
  ∃ new, reports = results ++ new ∧ one_per_ticker tickers new.
Proof.
  revert results tr.
  induction tickers as [|ticker tickers IH]; intros results tr.
  - intros [_ [= <-]]. exists []. rewrite app_nil_r.
    unfold one_per_ticker. auto.
  - cbn [for_each]. intros H.
    apply runs_bind in H as [(acc & tr1 & tr2 & Hp & H & ->)|(e & _ & ?)];
      [|discriminate].
    apply runs_process_bullets in Hp as (report & -> & Ht & Hh).
    apply IH in H as (new & -> & Hl & Hn & Hf).
    exists (report :: new). split; [by rewrite <- app_assoc|].
    unfold one_per_ticker. simpl. rewrite Hl, Hn, Ht. auto.
Qed.

Lemma runs_batch_try (page : Page) (tickers : list string)
    (ticker_data : gmap string ticker_entry) tr reports :
  runs (batch_try page tickers ticker_data) tr (Ok reports) ->
  one_per_ticker tickers reports.
Proof.
  unfold batch_try. intros H.
  repeat match goal with
         | H : runs (_ ≫= _) _ (Ok _) |- _ =>
             apply runs_bind in H as [(? & ? & ? & _ & H & _)|(? & _ & ?)];
             [|discriminate]
         end.
  apply runs_process_all in H as (new & -> & Hn). exact Hn.
Qed.

(** C9. Every run of [fetch_vital_knowledge_headlines_batch] is of one of
    the three kinds of [batch_fetch], and whenever the function returns,
    from its [try] block or from its [except] clause, it returns one
    report per input ticker, in the order of the input, under the
    upper-cased ticker and with five headlines at most. It returns unless
    the login phase, which comes before the [try], raises. *)
Theorem batch_returns_one_report_per_ticker (page : Page)
    (tickers : list string) tr res :
  runs (fetch_vital_knowledge_headlines_batch page tickers) tr res ->
  batch_fetch page tickers tr res
  ∧ match res with
    | Ok reports => one_per_ticker tickers reports
    | Raised e =>
        ∃ tr_l, runs (vital_login "[VitalKnowledge]" page) tr_l (Raised e)
    end.
Proof.
  intros H. apply runs_fetch_batch in H. split; [done|].
  destruct H as [tr_l e Hl|tr_l tr_b reports Hl Hb|tr_l tr_b e Hl Hb].
  - eauto.
  - by eapply runs_batch_try.
  - apply empty_reports_one_per_ticker.
Qed.
(** * The macro connector *)

Lemma runs_fetch_macro_news (page : Page) tr res :
  runs (fetch_macro_news page) tr res -> macro_fetch page tr res.
Proof.
  unfold fetch_macro_news. intros H.
  apply runs_bind in H as [([] & tr0 & tr1 & Hp & H & ->)|(e & Hp & _)];
    [|apply runs_print in Hp as [_ ?]; discriminate].
  apply runs_print in Hp as [-> _].
  apply runs_bind in H as [([] & tr_l & tr2 & Hl & H & ->)|(e & Hl & ->)];
    [|simpl; by apply macro_login_raised].
  apply runs_try_except in H
    as [(summary & Hb & ->)|(e & tr_b & tr3 & Hb & Hh & ->)].
  - simpl. by apply macro_returned.
  - runs_inv. rewrite app_nil_r. simpl. by apply macro_try_raised.
Qed.

Lemma macro_fetch_runs (page : Page) tr res :
  macro_fetch page tr res -> runs (fetch_macro_news page) tr res.
Proof.
  unfold fetch_macro_news. intros H.
  destruct H as [tr_l e Hl|tr_l tr_b summary Hl Hb|tr_l tr_b e Hl Hb];
    apply (runs_bind (print _) _ (_ :: _)); left;
    exists tt, [Ev (Print "[MacroNews] Starting macro news scrape") tt]; eexists;
    (split; [by apply runs_print|]); (split; [|reflexivity]);
    apply runs_bind.
  - right. eauto.
  - left. exists tt, tr_l, tr_b. split; [done|]. split; [|done].
    apply runs_try_except. left. eauto.
  - left. exists tt, tr_l. eexists. split; [done|]. split; [|done].
    apply runs_try_except. right. exists e, tr_b. eexists.
    split; [done|]. split; [|done].
    apply runs_bind. left. exists tt. eexists. exists [].
    split; [by apply runs_print|]. split; [done|]. by rewrite app_nil_r.
Qed.

Lemma macro_try_raises_in_market_close (page : Page) tr_m morning tr_c e :
  runs (macro_morning page) tr_m (Ok morning) ->
  runs (macro_market_close page) tr_c (Raised e) ->
  runs (macro_try page)
    (tr_m ++ Ev (Print ("[MacroNews] Morning: "
                        +:+ pretty (length (macro_bullets morning.2))
                        +:+ " bullets extracted")) tt :: tr_c)
    (Raised e).
Proof.
  intros Hm Hc. unfold macro_try. apply runs_bind. left.
  exists morning, tr_m. eexists. split; [done|]. split; [|done].
  destruct morning as [[morning_url morning_date] morning_result].
  apply (runs_bind (macro_morning_done _) _ (_ :: _)). left.
  exists tt. eexists. exists tr_c.
  split; [by apply runs_print|]. split; [|done].
  apply runs_bind. right. eauto.
Qed.

(** C10. Every run of [fetch_macro_news] is of one of the three kinds of
    [macro_fetch]: once the login phase is over, a run in which the [try]
    block raises ends with the line "[MacroNews] Failed: ..." and returns
    [MacroNewsSummary()], of which every field is [None] or the empty
    list. The [try] block raises in particular when the morning phase
    has returned its data and the market close phase raises: the morning
    data is in no field of what is returned. *)
Theorem macro_failure_returns_empty_summary (page : Page) :
  (∀ tr res, runs (fetch_macro_news page) tr res ↔ macro_fetch page tr res)
  ∧ (∀ tr_l tr_b e,
       runs (vital_login "[MacroNews]" page) tr_l (Ok tt) ->
       runs (macro_try page) tr_b (Raised e) ->
       runs (fetch_macro_news page)
         (Ev (Print "[MacroNews] Starting macro news scrape") tt
          :: tr_l ++ tr_b
          ++ [Ev (Print ("[MacroNews] Failed: " +:+ exn_msg e)) tt])
         (Ok MacroNewsSummary_default))
  ∧ (∀ tr_m morning tr_c e,
       runs (macro_morning page) tr_m (Ok morning) ->
       runs (macro_market_close page) tr_c (Raised e) ->
       runs (macro_try page)
         (tr_m ++ Ev (Print ("[MacroNews] Morning: "
                             +:+ pretty (length (macro_bullets morning.2))
                             +:+ " bullets extracted")) tt :: tr_c)
         (Raised e))
  ∧ all_fields_empty MacroNewsSummary_default.
Proof.
  split; [|split; [|split]].
  - intros tr res. split; [apply runs_fetch_macro_news|apply macro_fetch_runs].
  - intros tr_l tr_b e Hl Hb. apply macro_fetch_runs.
    by apply macro_try_raised.
  - apply macro_try_raises_in_market_close.
  - unfold all_fields_empty. simpl. tauto.
Qed.
(** * The batch task and the merge *)

Lemma by_ticker_from_lookup (d : gmap string VitalKnowledgeReport)
    (reports : list VitalKnowledgeReport) (k : string) (r : VitalKnowledgeReport) :
  foldl (fun d result => <[vk_ticker result := result]> d) d reports !! k
  = Some r ->
  (r ∈ reports ∧ vk_ticker r = k) ∨ d !! k = Some r.
Proof.
  revert d. induction reports as [|x reports IH]; intros d; simpl; [auto|].
  intros H. apply IH in H as [[Hr Hk]|H].
  - left. split; [by apply elem_of_cons; right|done].
  - destruct (decide (vk_ticker x = k)) as [<-|Hne].
    + rewrite lookup_insert_eq in H. injection H as <-.
      left. split; [apply elem_of_cons; by left|done].
    + rewrite lookup_insert_ne in H by done. auto.
Qed.

Lemma by_ticker_from_is_Some (d : gmap string VitalKnowledgeReport)
    (reports : list VitalKnowledgeReport) (k : string) :
  is_Some (foldl (fun d result => <[vk_ticker result := result]> d) d reports
           !! k)
  ↔ k ∈ map vk_ticker reports ∨ is_Some (d !! k).
Proof.
  revert d. induction reports as [|x reports IH]; intros d; simpl.
  - split; [auto|]. intros [H|H]; [by apply elem_of_nil in H|done].
  - rewrite IH, elem_of_cons.
    destruct (decide (vk_ticker x = k)) as [<-|Hne].
    + rewrite lookup_insert_eq. split; [auto|]. intros _. right. eauto.
    + rewrite lookup_insert_ne by done. split.
      * intros [H|H]; auto.
      * intros [[H|H]|H]; auto. congruence.
Qed.

(** The keys of the batch mapping are the [ticker] fields of the reports. *)
Lemma by_ticker_keys (reports : list VitalKnowledgeReport) (k : string) :
  is_Some (by_ticker reports !! k) ↔ k ∈ map vk_ticker reports.
Proof.
  unfold by_ticker. rewrite by_ticker_from_is_Some, lookup_empty.
  split; [|auto]. intros [H|[? H]]; [done|discriminate].
Qed.

Lemma by_ticker_lookup (reports : list VitalKnowledgeReport) (k : string)
    (r : VitalKnowledgeReport) :
  by_ticker reports !! k = Some r -> r ∈ reports ∧ vk_ticker r = k.
Proof.
  unfold by_ticker. intros H.
  apply by_ticker_from_lookup in H as [H|H]; [done|].
  by rewrite lookup_empty in H.
Qed.

Lemma by_ticker_empty_reports (tickers : list string) (t : string) :
  t ∈ tickers ->
  by_ticker (empty_reports tickers) !! upper t
  = Some (VitalKnowledgeReport_default (upper t)).
Proof.
  intros Ht.
  assert (is_Some (by_ticker (empty_reports tickers) !! upper t)) as [r Hr].
  { apply by_ticker_keys. unfold empty_reports.
    rewrite <- list_fmap_compose. apply list_elem_of_fmap. eauto. }
  rewrite Hr. apply by_ticker_lookup in Hr as [Hin Hk].
  unfold empty_reports in Hin.
  apply list_elem_of_fmap in Hin as (t' & -> & _).
  simpl in Hk. by rewrite Hk.
Qed.

Lemma runs_merge_item (d : gmap string VitalKnowledgeReport) (it : item)
    tr res :
  runs (merge_item d it) tr res ->
  tr = [Ev (Print (merge_line d it)) tt] ∧ res = Ok (merged d it).
Proof.
  unfold merge_item, merge_line, merged.
  destruct (d !! item_ticker it); intros H; runs_inv; done.
Qed.

Lemma runs_merge_items (d : gmap string VitalKnowledgeReport)
    (results : list item) tr res :
  runs (mapM (merge_item d) results) tr res ->
  tr = map (fun it => Ev (Print (merge_line d it)) tt) results
  ∧ res = Ok (map (merged d) results).
Proof.
  revert tr res. induction results as [|it results IH]; intros tr res.
  - by intros [-> ->].
  - cbn [mapM]. intros H.
    apply runs_bind in H as [(it' & tr1 & tr2 & Hi & H & ->)|(e & Hi & ->)];
      apply runs_merge_item in Hi as [-> [= ->]].
    apply runs_bind in H as [(rest & tr3 & tr4 & Hr & H & ->)|(e & Hr & ->)];
      apply IH in Hr as [-> [= ->]].
    destruct H as [-> ->]. by rewrite app_nil_r.
Qed.

Lemma runs_merge_vital_knowledge (fl : flags) (results : list item)
    (batch : option (gmap string VitalKnowledgeReport)) tr res :
  runs (merge_vital_knowledge fl results batch) tr res ->
  if use_vital_knowledge fl && truthy_dict batch then
    ∃ d, batch = Some d
      ∧ tr = Ev (Print (nl +:+ "[Merging] Adding Vital Knowledge batch results to ticker data...")) tt
             :: map (fun it => Ev (Print (merge_line d it)) tt) results
      ∧ res = Ok (map (merged d) results)
  else tr = [] ∧ res = Ok results.
Proof.
  unfold merge_vital_knowledge.
  destruct (use_vital_knowledge fl && truthy_dict batch) eqn:E;
    [|by intros [-> ->]].
  apply andb_true_iff in E as [_ E].
  destruct batch as [d|]; [|discriminate]. intros H.
  apply runs_bind in H as [([] & tr1 & tr2 & Hp & H & ->)|(e & Hp & _)];
    [|apply runs_print in Hp as [_ ?]; discriminate].
  apply runs_print in Hp as [-> _].
  apply runs_merge_items in H as [-> ->]. eauto.
Qed.

Lemma merged_ticker (d : gmap string VitalKnowledgeReport) (it : item) :
  item_ticker (merged d it) = item_ticker it.
Proof. unfold merged. by destruct (d !! item_ticker it). Qed.
(** * Programs that stay away from the gate *)

Lemma no_gate_bind {A B : Type} (p : prog A) (f : A -> prog B) :
  no_gate p -> (∀ a, no_gate (f a)) -> no_gate (p ≫= f).
Proof.
  change (p ≫= f) with (bind p f).
  induction p as [a|e|o k IH]; simpl; [auto|auto|].
  intros [Ho Hk] Hf. split; [done|]. intros r. by apply IH.
Qed.

Lemma no_gate_fmap {A B : Type} (f : A -> B) (p : prog A) :
  no_gate p -> no_gate (f <$> p).
Proof.
  intros H. change (f <$> p) with (p ≫= fun a => mret (f a)).
  by apply no_gate_bind.
Qed.

Lemma no_gate_try_except {A : Type} (p : prog A) (h : exn -> prog A) :
  no_gate p -> (∀ e, no_gate (h e)) -> no_gate (try_except p h).
Proof.
  induction p as [a|e|o k IH]; simpl; [auto|auto|].
  intros [Ho Hk] Hh. split; [done|]. intros r. by apply IH.
Qed.

Lemma no_gate_attempt {A : Type} (p : prog A) : no_gate p -> no_gate (attempt p).
Proof.
  intros H. unfold attempt. apply no_gate_try_except; [|done].
  by apply (no_gate_bind p).
Qed.

Lemma no_gate_call {A : Type} (o : op) (cast : resp o -> result A) :
  is_gate o = false -> no_gate (call o cast).
Proof. intros H. split; [done|]. intros r. by destruct (cast r). Qed.

Lemma no_gate_ask (o : op) : is_gate o = false -> no_gate (ask o).
Proof. intros H. by split. Qed.

Lemma no_gate_for_each {A S : Type} (l : list A) (body : A -> S -> prog S)
    (s : S) :
  (∀ x s, no_gate (body x s)) -> no_gate (for_each l body s).
Proof.
  intros Hb. revert s. induction l as [|x l IH]; intros s; [done|].
  cbn [for_each]. by apply no_gate_bind.
Qed.

(** One step of the search for a call on the gate. *)
Ltac no_gate_step :=
  match goal with
  | |- no_gate (_ ≫= _) => apply no_gate_bind; [|intros]
  | |- no_gate (_ <$> _) => apply no_gate_fmap
  | |- no_gate (try_except _ _) => apply no_gate_try_except; [|intros]
  | |- no_gate (attempt _) => apply no_gate_attempt
  | |- no_gate (for_each _ _ _) => apply no_gate_for_each; intros
  | |- no_gate (call _ _) => apply no_gate_call; reflexivity
  | |- no_gate (ask _) => apply no_gate_ask; reflexivity
  | |- no_gate (mret _) => exact I
  | |- no_gate (Ret _) => exact I
  | |- no_gate (Throw _) => exact I
  | |- no_gate (match ?x with _ => _ end) => destruct x
  | |- no_gate (let '(_, _) := ?x in _) => destruct x
  end.

Ltac no_gate_tac unfolds := repeat first [no_gate_step | progress unfolds].

Lemma no_gate_create_stagehand_session : no_gate create_stagehand_session.
Proof.
  unfold create_stagehand_session.
  no_gate_tac ltac:(unfold getenv_default, getenv, print, int).
Qed.

Lemma no_gate_close_session name stagehand :
  no_gate (close_session name stagehand).
Proof. unfold close_session. no_gate_tac ltac:(unfold print). Qed.

Lemma no_gate_in_session {A : Type} (body : Page -> prog A) :
  (∀ page, no_gate (body page)) -> no_gate (in_session body).
Proof.
  intros Hb. unfold in_session.
  apply no_gate_bind; [apply no_gate_attempt, no_gate_create_stagehand_session|].
  intros [[sh page]|e]; [|done].
  apply no_gate_bind; [by apply no_gate_attempt|done].
Qed.

Lemma no_gate_run_source_with_session {R : Type} (source_name ticker : string)
    (fetch_func : Page -> string -> prog (option R)) :
  (∀ page, no_gate (fetch_func page ticker)) ->
  no_gate (_run_source_with_session source_name ticker fetch_func).
Proof.
  intros Hf. unfold _run_source_with_session.
  apply no_gate_bind; [by apply no_gate_in_session|]. intros [sh out].
  apply no_gate_bind; [no_gate_tac ltac:(unfold print)|]. intros v.
  apply no_gate_bind; [apply no_gate_close_session|done].
Qed.

Lemma no_gate_vital_login tag page : no_gate (vital_login tag page).
Proof.
  unfold vital_login.
  no_gate_tac ltac:(unfold getenv, print, goto, act, wait_for_load_state).
Qed.

Lemma no_gate_fetch_batch page tickers :
  no_gate (fetch_vital_knowledge_headlines_batch page tickers).
Proof.
  unfold fetch_vital_knowledge_headlines_batch.
  apply no_gate_bind; [by apply no_gate_ask|]. intros _.
  apply no_gate_bind; [apply no_gate_vital_login|]. intros _.
  apply no_gate_try_except; [|intros; no_gate_tac ltac:(unfold print)].
  unfold batch_try.
  no_gate_tac ltac:(unfold extract_morning, extract_market_close,
                      process_bullets, open_market_close, date_of_url,
                      getitem, index, extract, observe, act_observed,
                      page_url, sleep, now, print, goto, act,
                      wait_for_load_state).
Qed.

Lemma no_gate_fetch_macro_news page : no_gate (fetch_macro_news page).
Proof.
  unfold fetch_macro_news.
  apply no_gate_bind; [by apply no_gate_ask|]. intros _.
  apply no_gate_bind; [apply no_gate_vital_login|]. intros _.
  apply no_gate_try_except; [|intros; no_gate_tac ltac:(unfold print)].
  unfold macro_try.
  no_gate_tac ltac:(unfold macro_morning, macro_market_close, macro_report,
                      macro_morning_done, index, extract, page_url, sleep,
                      now, print, act, wait_for_load_state).
Qed.
(** * The tasks and the gate *)

Lemma ends_well_runs {A : Type} (P : A -> Prop) (p : prog A) :
  (∀ tr res, runs p tr res -> ∃ a, res = Ok a ∧ P a) -> ends_well P p.
Proof.
  induction p as [a|e|o k IH]; simpl; intros H.
  - destruct (H [] (Ok a)) as (a' & [= <-] & Ha); done.
  - destruct (H [] (Raised e)) as (a' & ? & _); done.
  - intros r. apply IH. intros tr res Hk. apply (H (Ev o r :: tr)). eauto.
Qed.

Lemma holding_try_finally {A B : Type} (Q : A -> Prop) (P : B -> Prop)
    (f : A -> B) (q : prog A) :
  no_gate q -> ends_well Q q -> (∀ a, Q a -> P (f a)) ->
  holding P (bind (try_finally q (ask Release)) (fun a => Ret (f a))).
Proof.
  intros Hn He Hf. induction q as [a|e|o k IH]; simpl in *.
  - intros []. split; simpl; auto.
  - done.
  - destruct Hn as [Ho Hk].
    destruct o; try discriminate; intros r; by apply IH.
Qed.

Lemma no_gate_run_source {R : Type} (on : bool) (ticker label name : string)
    (fetch_func : Page -> string -> prog (option R)) (on_ok : R -> string)
    (error_messages : list string) :
  (∀ page, no_gate (fetch_func page ticker)) ->
  no_gate (run_source on ticker label name fetch_func on_ok error_messages).
Proof.
  intros Hf. unfold run_source. destruct on; [|done].
  apply no_gate_bind; [by apply no_gate_ask|]. intros _.
  apply no_gate_bind; [by apply no_gate_run_source_with_session|].
  intros [r|]; [|done]. apply no_gate_bind; [by apply no_gate_ask|done].
Qed.

Lemma no_gate_process_ticker_body (ticker : string)
    (use_quote use_analysis use_mw use_gn use_vk : bool) :
  no_gate (process_ticker_body ticker use_quote use_analysis use_mw use_gn
             use_vk).
Proof.
  unfold process_ticker_body.
  apply no_gate_bind; [by apply no_gate_ask|]. intros _.
  repeat (apply no_gate_bind;
          [apply no_gate_run_source; intros; by apply no_gate_call
          |intros [? ?]]).
  done.
Qed.

Lemma ticker_task_waiting (ticker : string)
    (use_quote use_analysis use_mw use_gn use_vk : bool) :
  waiting (ticker_value ticker)
    (TickerValue <$>
       process_ticker ticker use_quote use_analysis use_mw use_gn use_vk).
Proof.
  unfold process_ticker.
  change (TickerValue <$> with_sem ?body)
    with (Op Acquire (fun _ => bind (try_finally body (ask Release))
                                 (fun a => Ret (TickerValue a)))).
  intros r.
  apply (holding_try_finally (fun it => item_ticker it = ticker)).
  - apply no_gate_process_ticker_body.
  - apply ends_well_runs. intros tr res H.
    apply (runs_process_ticker_body _ _ _ _ _ _ [] []) in H
      as (it & -> & Ht & _). eauto.
  - intros it Ht. exists it. done.
Qed.

Lemma macro_task_gate_free :
  gate_free macro_value (MacroValue <$> fetch_macro_news_with_session).
Proof.
  split.
  - apply no_gate_fmap. unfold fetch_macro_news_with_session.
    apply no_gate_bind;
      [apply no_gate_in_session, no_gate_fetch_macro_news|]. intros [sh out].
    apply no_gate_bind; [no_gate_tac ltac:(unfold print)|]. intros v.
    apply no_gate_bind; [apply no_gate_close_session|done].
  - apply ends_well_runs. intros tr res H.
    apply runs_fmap in H as [(m & H & ->)|(e & H & ->)].
    + exists (MacroValue m). split; [done|]. by exists m.
    + apply (runs_session_wrapper fetch_macro_news Some None) in H.
      apply scoped_returns in H as [? ?]. discriminate.
Qed.

Lemma batch_task_gate_free (tickers : list string) :
  gate_free batch_value (BatchValue <$> _run_vital_knowledge_batch tickers).
Proof.
  split.
  - apply no_gate_fmap. unfold _run_vital_knowledge_batch.
    apply no_gate_bind.
    { apply no_gate_in_session. intros page. unfold batch_mapping.
      apply no_gate_bind; [apply no_gate_fetch_batch|done]. }
    intros [sh out].
    apply no_gate_bind; [no_gate_tac ltac:(unfold print)|]. intros v.
    apply no_gate_bind; [apply no_gate_close_session|done].
  - apply ends_well_runs. intros tr res H.
    apply runs_fmap in H as [(d & H & ->)|(e & H & ->)].
    + exists (BatchValue d). split; [done|]. by exists d.
    + apply (runs_session_wrapper (batch_mapping tickers) id ∅) in H.
      apply scoped_returns in H as [? ?]. discriminate.
Qed.

Lemma length_all_tasks (fl : flags) (watchlist : list string) :
  length (all_tasks fl watchlist) = length (all_posts fl watchlist).
Proof.
  unfold all_tasks, all_posts, ticker_tasks.
  rewrite !length_app, !length_map.
  by destruct (use_macro_news fl), (use_vital_knowledge fl).
Qed.

Lemma all_tasks_posts (fl : flags) (watchlist : list string) i p P :
  all_tasks fl watchlist !! i = Some p ->
  all_posts fl watchlist !! i = Some P ->
  if decide (i < length watchlist) then waiting P p else gate_free P p.
Proof.
  unfold all_tasks, all_posts, ticker_tasks. intros Hp HP.
  destruct (decide (i < length watchlist)) as [Hi|Hi].
  - rewrite lookup_app_l in Hp by (by rewrite length_map).
    rewrite lookup_app_l in HP by (by rewrite length_map).
    rewrite list_lookup_fmap in Hp. rewrite list_lookup_fmap in HP.
    apply fmap_Some in Hp as (ticker & Ht & ->).
    apply fmap_Some in HP as (ticker' & Ht' & ->).
    rewrite Ht in Ht'. injection Ht' as <-.
    apply ticker_task_waiting.
  - rewrite lookup_app_r in Hp by (rewrite length_map; lia).
    rewrite lookup_app_r in HP by (rewrite length_map; lia).
    rewrite length_map in Hp, HP.
    destruct (use_macro_news fl), (use_vital_knowledge fl);
      destruct (i - length watchlist) as [|[|?]]; simpl in Hp, HP;
      simplify_eq;
      first [apply macro_task_gate_free | apply batch_task_gate_free].
Qed.

Lemma sound_launch (fl : flags) (watchlist : list string) (max_concurrent : Z) :
  sound fl watchlist max_concurrent
    (launch max_concurrent (all_tasks fl watchlist)).
Proof.
  split; simpl.
  - apply length_all_tasks.
  - intros i p P Hp HP. pose proof (all_tasks_posts _ _ _ _ _ Hp HP) as H.
    destruct (decide (i < length watchlist)); [|done].
    left. split; [apply not_elem_of_nil|auto].
  - constructor.
  - intros i Hi. by apply elem_of_nil in Hi.
  - lia.
  - intros i e Hi. by apply elem_of_nil in Hi.
Qed.

Lemma drop_holder_elem_of (i j : nat) (l : list nat) :
  NoDup l -> j ∈ drop_holder i l ↔ j ∈ l ∧ j ≠ i.
Proof.
  induction 1 as [|x l Hx Hl IH]; simpl.
  - split; [intros H|intros [H _]]; by apply elem_of_nil in H.
  - destruct (decide (i = x)) as [->|Hne].
    + rewrite elem_of_cons. split.
      * intros Hj. split; [auto|]. intros ->. done.
      * intros [[->|Hj] Hne]; done.
    + rewrite !elem_of_cons, IH. split.
      * intros [->|[Hj Hji]]; auto.
      * intros [[->|Hj] Hji]; auto.
Qed.

Lemma drop_holder_NoDup (i : nat) (l : list nat) :
  NoDup l -> NoDup (drop_holder i l).
Proof.
  induction 1 as [|x l Hx Hl IH]; simpl; [constructor|].
  destruct (decide (i = x)); [done|]. constructor; [|done].
  rewrite drop_holder_elem_of by done. tauto.
Qed.

Lemma drop_holder_length (i : nat) (l : list nat) :
  i ∈ l -> S (length (drop_holder i l)) = length l.
Proof.
  induction l as [|x l IH]; simpl; [intros H; by apply elem_of_nil in H|].
  intros H. destruct (decide (i = x)); [done|]. simpl. f_equal. apply IH.
  apply elem_of_cons in H as [->|H]; done.
Qed.
Lemma gate_free_call {A : Type} (P : A -> Prop) (o : op) (k : resp o -> prog A) r :
  gate_free P (Op o k) -> gate_free P (k r).
Proof. intros [[_ Hn] He]. split; [apply Hn|apply He]. Qed.

Lemma gate_free_not_gate {A : Type} (P : A -> Prop) (o : op)
    (k : resp o -> prog A) :
  gate_free P (Op o k) -> is_gate o = false.
Proof. by intros [[Ho _] _]. Qed.

Lemma waiting_is_acquire {A : Type} (P : A -> Prop) (o : op)
    (k : resp o -> prog A) :
  waiting P (Op o k) -> is_gate o = true.
Proof. by destruct o. Qed.

Lemma holding_call {A : Type} (P : A -> Prop) (o : op) (k : resp o -> prog A) r :
  is_gate o = false -> holding P (Op o k) -> holding P (k r).
Proof. destruct o; simpl; intros Ho H; try discriminate; apply H. Qed.

(** A step of the loop keeps its state sound. *)
Lemma sound_step (fl : flags) (watchlist : list string) (max_concurrent : Z)
    (st st' : loop_state) :
  sound fl watchlist max_concurrent st -> step st st' ->
  sound fl watchlist max_concurrent st'.
Proof.
  intros [Hlen Htasks Hnd Htick Hcount Hhist] Hstep.
  destruct Hstep as [st i o k r Hi Ho|st i k Hi Hpos|st i k Hi].
  - (* a call that is not on the gate *)
    split; simpl; [by rewrite length_insert| |done|done|done|].
    + intros j p P Hp HP. destruct (decide (j = i)) as [->|Hne].
      * rewrite list_lookup_insert_eq in Hp by (by eapply lookup_lt_Some).
        injection Hp as <-. specialize (Htasks i _ P Hi HP).
        destruct (decide (i < length watchlist)).
        -- destruct Htasks as [[Hh [Hw|Hg]]|[Hh Hg]].
           ++ apply waiting_is_acquire in Hw. congruence.
           ++ left. split; [done|]. right. by eapply gate_free_call.
           ++ right. split; [done|]. by eapply holding_call.
        -- by eapply gate_free_call.
      * rewrite list_lookup_insert_ne in Hp by done. by apply Htasks.
    + intros j e He Hg. apply elem_of_app in He as [He|He]; [by eapply Hhist|].
      apply list_elem_of_singleton in He. injection He as -> ->.
      simpl in Hg. congruence.
  - (* acquire *)
    assert (i < length (tasks st)) as Hlt by (by eapply lookup_lt_Some).
    rewrite Hlen in Hlt. apply lookup_lt_is_Some in Hlt as [P HP].
    pose proof (Htasks i _ P Hi HP) as Hphase.
    assert (i < length watchlist ∧ (i ∉ holders st) ∧ ∀ r, holding P (k r))
      as (Hticker & Hout & Hin).
    { destruct (decide (i < length watchlist)).
      - destruct Hphase as [[Hh [Hw|Hg]]|[Hh Hg]]; [done| |done].
        apply gate_free_not_gate in Hg. discriminate.
      - apply gate_free_not_gate in Hphase. discriminate. }
    split; simpl; [by rewrite length_insert| | | | |].
    + intros j p Q Hp HQ. destruct (decide (j = i)) as [->|Hne].
      * rewrite list_lookup_insert_eq in Hp by (by eapply lookup_lt_Some).
        injection Hp as <-. rewrite HP in HQ. injection HQ as <-.
        destruct (decide (i < length watchlist)); [|done].
        right. split; [apply elem_of_cons; by left|apply Hin].
      * rewrite list_lookup_insert_ne in Hp by done.
        specialize (Htasks j p Q Hp HQ).
        destruct (decide (j < length watchlist)); [|done].
        rewrite elem_of_cons. destruct Htasks as [[Hh Hw]|[Hh Hg]].
        -- left. split; [|done]. intros [?|?]; done.
        -- right. auto.
    + by constructor.
    + intros j Hj. apply elem_of_cons in Hj as [->|Hj]; auto.
    + lia.
    + intros j e He Hg. apply elem_of_app in He as [He|He]; [by eapply Hhist|].
      apply list_elem_of_singleton in He. by injection He as -> _.
  - (* release *)
    assert (i < length (tasks st)) as Hlt by (by eapply lookup_lt_Some).
    rewrite Hlen in Hlt. apply lookup_lt_is_Some in Hlt as [P HP].
    pose proof (Htasks i _ P Hi HP) as Hphase.
    assert (i < length watchlist ∧ (i ∈ holders st) ∧ ∀ r, gate_free P (k r))
      as (Hticker & Hin & Hfree).
    { destruct (decide (i < length watchlist)).
      - destruct Hphase as [[Hh [Hw|Hg]]|[Hh Hg]]; [done| |done].
        apply gate_free_not_gate in Hg. discriminate.
      - apply gate_free_not_gate in Hphase. discriminate. }
    split; simpl; [by rewrite length_insert| | | | |].
    + intros j p Q Hp HQ. destruct (decide (j = i)) as [->|Hne].
      * rewrite list_lookup_insert_eq in Hp by (by eapply lookup_lt_Some).
        injection Hp as <-. rewrite HP in HQ. injection HQ as <-.
        destruct (decide (i < length watchlist)); [|done].
        left. split; [|right; apply Hfree].
        rewrite drop_holder_elem_of by done. tauto.
      * rewrite list_lookup_insert_ne in Hp by done.
        specialize (Htasks j p Q Hp HQ).
        destruct (decide (j < length watchlist)); [|done].
        rewrite drop_holder_elem_of by done.
        destruct Htasks as [[Hh Hw]|[Hh Hg]]; [left|right]; tauto.
    + by apply drop_holder_NoDup.
    + intros j Hj. apply drop_holder_elem_of in Hj as [Hj _]; auto.
    + pose proof (drop_holder_length i (holders st) Hin). lia.
    + intros j e He Hg. apply elem_of_app in He as [He|He]; [by eapply Hhist|].
      apply list_elem_of_singleton in He. by injection He as -> _.
Qed.

Lemma reachable_sound (fl : flags) (watchlist : list string)
    (max_concurrent : Z) (st : loop_state) :
  reachable max_concurrent (all_tasks fl watchlist) st ->
  sound fl watchlist max_concurrent st.
Proof.
  unfold reachable. intros H.
  revert st H. apply (rtc_ind_r (R := step)); [apply sound_launch|].
  intros st1 st2 _ Hstep Hs. by eapply sound_step.
Qed.

(** The counter never goes below zero. *)
Lemma reachable_counter (max_concurrent : Z) (ts : list (prog task_value))
    (st : loop_state) :
  (0 <= max_concurrent)%Z -> reachable max_concurrent ts st ->
  (0 <= sem_value st)%Z.
Proof.
  unfold reachable. intros HC H.
  revert st H. apply (rtc_ind_r (R := step)); [done|].
  intros st1 st2 _ Hstep Hs.
  destruct Hstep as [? i o k r Hi Ho|? i k Hi Hpos|? i k Hi]; simpl; lia.
Qed.

Lemma run_schedule_reachable (w : world) (schedule : list nat)
    (max_concurrent : Z) (ts : list (prog task_value)) (st : loop_state) :
  reachable max_concurrent ts st ->
  reachable max_concurrent ts (run_schedule w schedule st).
Proof.
  revert st. induction schedule as [|i schedule IH]; intros st Hst; [done|].
  simpl. apply IH. unfold step_task.
  destruct (tasks st !! i) as [[a|e|o k]|] eqn:Hi; [done|done| |done].
  destruct (is_gate o) eqn:Ho.
  - destruct o; try discriminate.
    + destruct (decide (0 < sem_value st)%Z) as [Hpos|]; [|done]. simpl.
      eapply rtc_r; [exact Hst|].
      destruct (w (length (history st)) Acquire). by apply step_acquire.
    + simpl. eapply rtc_r; [exact Hst|].
      destruct (w (length (history st)) Release). by apply step_release.
  - assert (step st
              {| tasks := <[i := k (w (length (history st)) o)]> (tasks st);
                 sem_value := sem_value st; holders := holders st;
                 history := history st
                            ++ [(i, Ev o (w (length (history st)) o))] |})
      as Hstep by (by apply step_call).
    destruct o; try discriminate; simpl; by eapply rtc_r.
Qed.
Lemma runs_get_max_concurrent_browsers tr res :
  runs _get_max_concurrent_browsers tr res ->
  ∃ raw c,
    tr = [Ev (Getenv "MAX_CONCURRENT_BROWSERS") raw]
    ∧ res = Ok c
    ∧ (1 <= c)%Z
    ∧ (truthy_str raw = false -> c = 2%Z)
    ∧ (∀ s, raw = Some s -> int_of_string s = None -> c = 2%Z)
    ∧ (∀ s val, raw = Some s -> s ≠ "" -> int_of_string s = Some val ->
                c = Z.max 1 val).
Proof.
  unfold _get_max_concurrent_browsers. intros H.
  apply runs_bind in H as [(raw & tr1 & tr2 & Hg & H & ->)|(e & Hg & _)];
    [|destruct Hg as (? & ? & _ & _ & ?); discriminate].
  destruct Hg as (raw' & ? & -> & -> & [= ->]). exists raw'.
  destruct raw' as [[|c0 s0]|].
  - destruct H as [-> ->]. exists 2%Z.
    split_and!; [done|done|lia|done|done|]. intros s val [= <-]. done.
  - unfold int in H. destruct (int_of_string (String c0 s0)) as [val|] eqn:E;
      runs_inv; simpl in *;
      repeat match goal with
             | H : _ ∧ _ |- _ => destruct H
             end; simplify_eq;
      eexists; (split_and!; [done|reflexivity|lia|done|..]);
      intros; simplify_eq; congruence.
  - destruct H as [-> ->]. exists 2%Z.
    split_and!; [done|done|lia|done|done|done].
Qed.

(** C8. Whatever the watchlist, the flags and the order in which the
    tasks move, in every state the loop can reach from a semaphore of
    [max_concurrent >= 1]: the tasks between their [acquire] and their
    [release] are at most [max_concurrent], each counted once, and all of
    them are ticker tasks; the macro task and the batch task, whose
    positions come after the tickers', are never at a call on the gate
    and have never made one. [_get_max_concurrent_browsers] never
    raises; what it returns is at least 1, and is 2 when the variable is
    unset or empty and when [int] rejects it. *)
Theorem gate_never_exceeds_ceiling (fl : flags) (watchlist : list string)
    (max_concurrent : Z) (st : loop_state) :
  (1 <= max_concurrent)%Z ->
  reachable max_concurrent (all_tasks fl watchlist) st ->
  (Z.of_nat (length (holders st)) <= max_concurrent)%Z
  ∧ NoDup (holders st)
  ∧ (∀ i, i ∈ holders st -> i < length watchlist)
  ∧ (∀ i o k, length watchlist <= i -> tasks st !! i = Some (Op o k) ->
              is_gate o = false)
  ∧ (∀ i e, (i, e) ∈ history st -> is_gate (ev_op e) = true ->
            i < length watchlist)
  ∧ (∀ tr res,
       runs _get_max_concurrent_browsers tr res ->
       ∃ raw c,
         tr = [Ev (Getenv "MAX_CONCURRENT_BROWSERS") raw]
         ∧ res = Ok c
         ∧ (1 <= c)%Z
         ∧ (truthy_str raw = false -> c = 2%Z)
         ∧ (∀ s, raw = Some s -> int_of_string s = None -> c = 2%Z)
         ∧ (∀ s val, raw = Some s -> s ≠ "" -> int_of_string s = Some val ->
                     c = Z.max 1 val)).
Proof.
  intros HC Hst.
  assert (0 <= sem_value st)%Z as Hpos
    by (eapply reachable_counter; [|exact Hst]; lia).
  apply reachable_sound in Hst as [Hlen Htasks Hnd Htick Hcount Hhist].
  split; [lia|]. split; [done|]. split; [done|]. split; [|split; [done|]].
  - intros i o k Hi Hp.
    assert (i < length (tasks st)) as Hlt by (by eapply lookup_lt_Some).
    rewrite Hlen in Hlt. apply lookup_lt_is_Some in Hlt as [P HP].
    specialize (Htasks i _ P Hp HP).
    destruct (decide (i < length watchlist)); [lia|].
    by eapply gate_free_not_gate.
  - apply runs_get_max_concurrent_browsers.
Qed.

(** * The join *)

Lemma sound_finished (fl : flags) (watchlist : list string)
    (max_concurrent : Z) (st : loop_state) i p P :
  sound fl watchlist max_concurrent st ->
  tasks st !! i = Some p -> all_posts fl watchlist !! i = Some P ->
  match p with
  | Ret v => P v
  | Throw _ => False
  | Op _ _ => True
  end.
Proof.
  intros Hs Hp HP. pose proof (sound_tasks _ _ _ _ Hs i p P Hp HP) as H.
  destruct p as [v|e|o k]; [| |done];
    destruct (decide (i < length watchlist));
    unfold gate_free in *;
    repeat match goal with
           | H : _ ∨ _ |- _ => destruct H
           | H : _ ∧ _ |- _ => destruct H
           end; simpl in *; done.
Qed.

Lemma sound_gather (fl : flags) (watchlist : list string)
    (max_concurrent : Z) (st : loop_state) res :
  sound fl watchlist max_concurrent st -> gather st = Some res ->
  ∃ all_results,
    res = Ok all_results
    ∧ Forall2 (fun v (P : task_value -> Prop) => P v) all_results
        (all_posts fl watchlist).
Proof.
  intros Hs. unfold gather.
  destruct (omap raised (tasks st)) as [|e es] eqn:E.
  - intros H. apply fmap_Some in H as (all_results & Hm & ->).
    exists all_results. split; [done|].
    apply mapM_Some in Hm.
    apply Forall2_same_length_lookup. split.
    + rewrite <- (sound_length _ _ _ _ Hs). symmetry.
      by eapply Forall2_length.
    + intros i v P Hv HP.
      destruct (Forall2_lookup_r _ _ _ _ _ Hm Hv) as (p & Hp & Hr).
      pose proof (sound_finished _ _ _ _ _ _ _ Hs Hp HP) as H.
      destruct p; simplify_eq/=. done.
  - intros _. exfalso.
    assert (e ∈ omap raised (tasks st)) as He
      by (rewrite E; apply elem_of_cons; by left).
    apply list_elem_of_omap in He as (p & Hp & Hr).
    apply list_elem_of_lookup in Hp as [i Hp].
    assert (i < length (tasks st)) as Hlt by (by eapply lookup_lt_Some).
    rewrite (sound_length _ _ _ _ Hs) in Hlt.
    apply lookup_lt_is_Some in Hlt as [P HP].
    pose proof (sound_finished _ _ _ _ _ _ _ Hs Hp HP) as H.
    destruct p; simplify_eq/=. done.
Qed.

Lemma ticker_values (watchlist : list string) (values : list task_value) :
  Forall2 (fun v (P : task_value -> Prop) => P v) values
    (map ticker_value watchlist) ->
  ∃ results, values = map TickerValue results
             ∧ map item_ticker results = watchlist.
Proof.
  revert values. induction watchlist as [|t watchlist IH]; intros values H.
  - apply Forall2_nil_inv_r in H as ->. by exists [].
  - apply Forall2_cons_inv_r in H as (v & values' & (it & -> & <-) & H & ->).
    apply IH in H as (results & -> & <-). by exists (it :: results).
Qed.

Lemma runs_as_items (results : list item) tr res :
  runs (mapM as_item (map TickerValue results)) tr res ->
  tr = [] ∧ res = Ok results.
Proof.
  revert tr res. induction results as [|it results IH]; intros tr res.
  - by intros [-> ->].
  - simpl map. cbn [mapM]. intros H.
    apply runs_bind in H as [(it' & tr1 & tr2 & Hi & H & ->)|(e & Hi & _)];
      [|destruct Hi; discriminate].
    destruct Hi as [-> [= <-]].
    apply runs_bind in H as [(rest & tr3 & tr4 & Hr & H & ->)|(e & Hr & ->)];
      apply IH in Hr as [-> [= <-]].
    by destruct H as [-> ->].
Qed.
Lemma lookup_after_items (results : list item) (v : task_value)
    (rest : list task_value) :
  (map TickerValue results ++ v :: rest) !! length results = Some v.
Proof. apply list_lookup_middle. by rewrite length_map. Qed.

Lemma lookup_after_items_next (results : list item) (v v' : task_value)
    (rest : list task_value) :
  (map TickerValue results ++ v :: v' :: rest) !! (length results + 1)
  = Some v'.
Proof.
  change (v :: v' :: rest) with ([v] ++ v' :: rest). rewrite app_assoc.
  apply list_lookup_middle. rewrite length_app, length_map. done.
Qed.

Lemma runs_separate (fl : flags) (results : list item)
    (macro_news_result : option MacroNewsSummary)
    (batch : option (gmap string VitalKnowledgeReport)) tr res :
  (use_macro_news fl = false -> macro_news_result = None) ->
  (is_Some batch ↔ use_vital_knowledge fl = true) ->
  runs (separate fl (length results)
          (gathered fl results macro_news_result batch)) tr res ->
  tr = [] ∧ res = Ok (results, macro_news_result, batch).
Proof.
  intros Hm Hb. unfold separate, gathered.
  rewrite take_app_length' by (by rewrite length_map). intros H.
  apply runs_bind in H as [(items & tr1 & tr2 & Hi & H & ->)|(e & Hi & ->)];
    apply runs_as_items in Hi as [-> [= ->]].
  unfold index in H.
  destruct (use_vital_knowledge fl) eqn:Ev, batch as [d|];
    try (exfalso; destruct Hb as [Hb1 Hb2];
         first [by destruct (Hb2 eq_refl)
               |by specialize (Hb1 (mk_is_Some _ _ eq_refl))]);
    destruct (use_macro_news fl) eqn:Em;
    rewrite ?Hm in * by done; simpl in H;
    rewrite ?lookup_after_items_next, ?lookup_after_items in H;
    simpl in H;
    repeat match goal with
           | H : _ ∧ _ |- _ => destruct H
           | H : (_ ≫= _) = _ |- _ => idtac
           | _ => progress runs_inv
           | _ => progress simpl in *
           end; simplify_eq; done.
Qed.

Lemma posts_gathered (fl : flags) (watchlist : list string)
    (all_results : list task_value) :
  Forall2 (fun v (P : task_value -> Prop) => P v) all_results
    (all_posts fl watchlist) ->
  ∃ results macro_news_result batch,
    all_results = gathered fl results macro_news_result batch
    ∧ map item_ticker results = watchlist
    ∧ (use_macro_news fl = false -> macro_news_result = None)
    ∧ (is_Some batch ↔ use_vital_knowledge fl = true).
Proof.
  unfold all_posts, gathered. intros H.
  apply Forall2_app_inv_r in H as (l1 & l2 & H1 & H2 & ->).
  apply ticker_values in H1 as (results & -> & Hr).
  apply Forall2_app_inv_r in H2 as (l3 & l4 & H3 & H4 & ->).
  exists results.
  destruct (use_macro_news fl), (use_vital_knowledge fl).
  - apply Forall2_cons_inv_r in H3 as (v & ? & [m ->] & H3 & ->).
    apply Forall2_nil_inv_r in H3 as ->.
    apply Forall2_cons_inv_r in H4 as (v & ? & [d ->] & H4 & ->).
    apply Forall2_nil_inv_r in H4 as ->.
    exists m, (Some d). split_and!; [done|done|done|]. split; eauto.
  - apply Forall2_cons_inv_r in H3 as (v & ? & [m ->] & H3 & ->).
    apply Forall2_nil_inv_r in H3 as ->.
    apply Forall2_nil_inv_r in H4 as ->.
    exists m, None. split_and!; [done|done|done|].
    split; [by intros [? ?]|done].
  - apply Forall2_nil_inv_r in H3 as ->.
    apply Forall2_cons_inv_r in H4 as (v & ? & [d ->] & H4 & ->).
    apply Forall2_nil_inv_r in H4 as ->.
    exists None, (Some d). split_and!; [done|done|done|]. split; eauto.
  - apply Forall2_nil_inv_r in H3 as ->.
    apply Forall2_nil_inv_r in H4 as ->.
    exists None, None. split_and!; [done|done|done|].
    split; [by intros [? ?]|done].
Qed.

(** C7. Whatever the order in which the tasks have moved, when [gather]
    hands [all_results] to the driver no task has raised, and
    [all_results] is the items of the tickers, in the order of the
    watchlist and as many, then the macro summary when it is enabled,
    then the batch mapping when it is enabled. "Separate results" takes
    exactly these three apart, prints nothing and does not raise. *)
Theorem results_follow_watchlist (fl : flags) (watchlist : list string)
    (max_concurrent : Z) (st : loop_state) (res : result (list task_value)) :
  reachable max_concurrent (all_tasks fl watchlist) st ->
  gather st = Some res ->
  ∃ all_results results macro_news_result batch,
    res = Ok all_results
    ∧ all_results = gathered fl results macro_news_result batch
    ∧ map item_ticker results = watchlist
    ∧ length results = length watchlist
    ∧ (use_macro_news fl = false -> macro_news_result = None)
    ∧ (is_Some batch ↔ use_vital_knowledge fl = true)
    ∧ ∀ tr r,
        runs (separate fl (length (ticker_tasks fl watchlist)) all_results)
             tr r ->
        tr = [] ∧ r = Ok (results, macro_news_result, batch).
Proof.
  intros Hst Hg. apply reachable_sound in Hst.
  destruct (sound_gather _ _ _ _ _ Hst Hg) as (all_results & -> & Hall).
  apply posts_gathered in Hall as (results & m & batch & -> & Hr & Hm & Hb).
  exists (gathered fl results m batch), results, m, batch.
  assert (length results = length watchlist) as Hlen
    by (by rewrite <- Hr, length_map).
  split_and!; try done.
  intros tr r. unfold ticker_tasks. rewrite length_map, <- Hlen.
  by apply runs_separate.
Qed.

(** C5, as the code has it. The merge loop runs when Vital Knowledge is
    enabled and the batch mapping is not empty. It keeps every item, in
    order, under its ticker. When it runs, an item whose ticker, as the
    watchlist spells it, is a key of the mapping gets the report under
    that key; an item whose ticker is not a key is left as it was, with
    the line "No Vital Knowledge data from batch". When it does not run,
    the items are left as they were and nothing is printed. The keys of
    the mapping are the [ticker] fields of the reports. *)
Theorem merge_keeps_every_ticker (fl : flags) (results : list item)
    (batch : option (gmap string VitalKnowledgeReport)) tr res :
  runs (merge_vital_knowledge fl results batch) tr res ->
  ∃ merged_results,
    res = Ok merged_results
    ∧ map item_ticker merged_results = map item_ticker results
    ∧ (if use_vital_knowledge fl && truthy_dict batch then
         ∃ d, batch = Some d
           ∧ merged_results = map (merged d) results
           ∧ ∀ it, it ∈ results ->
               match d !! item_ticker it with
               | Some report =>
                   item_vital_knowledge (merged d it) = Some report
               | None =>
                   merged d it = it
                   ∧ ("[WARN] " +:+ item_ticker it
                      +:+ ": No Vital Knowledge data from batch") ∈ log tr
               end
       else merged_results = results ∧ tr = [])
    ∧ ∀ reports k,
        is_Some (by_ticker reports !! k) ↔ k ∈ map vk_ticker reports.
Proof.
  intros H. apply runs_merge_vital_knowledge in H.
  destruct (use_vital_knowledge fl && truthy_dict batch).
  - destruct H as (d & -> & -> & ->). exists (map (merged d) results).
    split_and!; [done| | |apply by_ticker_keys].
    + rewrite <- list_fmap_compose. apply list_fmap_ext.
      intros i it _. apply merged_ticker.
    + exists d. split_and!; [done|done|]. intros it Hit.
      unfold merged. destruct (d !! item_ticker it) as [report|] eqn:E; [done|].
      split; [done|].
      change (?x :: ?l) with ([x] ++ l). rewrite log_app.
      apply elem_of_app. right.
      change (map ?f results)
        with ((fun l => Ev (Print l) tt) ∘ merge_line d <$> results).
      rewrite list_fmap_compose.
      rewrite log_prints. apply list_elem_of_fmap. exists it.
      split; [|done]. unfold merge_line. by rewrite E.
  - destruct H as [-> ->]. exists results.
    split_and!; [done|done|done|done|apply by_ticker_keys].
Qed.

(** C4, as the code has it. The batch task never raises. It returns the
    empty mapping, after the line "[ERROR] Vital Knowledge batch
    failed: ...", when no session could be created and when the
    connector raised, which it does only in its login phase; the merge
    then does not run, and every item is left as it was. When the
    failure is in the [try] block of the connector, the connector
    returns one empty report per ticker, and the mapping holds that
    report under each upper-cased ticker. *)
Theorem batch_failure_is_contained (tickers : list string) :
  (∀ tr res,
     runs (_run_vital_knowledge_batch tickers) tr res ->
     scoped (batch_mapping tickers) id ∅
       (fun e => "[ERROR] Vital Knowledge batch failed: " +:+ exn_msg e)
       "Vital Knowledge batch session" tr res)
  ∧ (∀ page tr res,
       runs (batch_mapping tickers page) tr res ->
       (∃ e, res = Raised e ∧ batch_fetch page tickers tr (Raised e))
       ∨ (∃ reports, res = Ok (by_ticker reports)
                     ∧ batch_fetch page tickers tr (Ok reports)))
  ∧ (∀ fl results tr res,
       runs (merge_vital_knowledge fl results (Some ∅)) tr res ->
       tr = [] ∧ res = Ok results)
  ∧ (∀ t, t ∈ tickers ->
          by_ticker (empty_reports tickers) !! upper t
          = Some (VitalKnowledgeReport_default (upper t))).
Proof.
  split_and!.
  - intros tr res H.
    by apply (runs_session_wrapper (batch_mapping tickers) id ∅).
  - intros page tr res H. unfold batch_mapping in H.
    apply runs_bind in H as [(reports & tr1 & tr2 & Hf & [-> ->] & ->)
                            |(e & Hf & ->)];
      apply runs_fetch_batch in Hf.
    + right. exists reports. by rewrite app_nil_r.
    + left. eauto.
  - intros fl results tr res H. apply runs_merge_vital_knowledge in H.
    replace (use_vital_knowledge fl && truthy_dict (Some ∅)) with false in H;
      [done|].
    unfold truthy_dict. rewrite map_size_empty. simpl.
    by rewrite andb_false_r.
  - apply by_ticker_empty_reports.
Qed.

(** * The switches of the sources *)

Lemma lstrip_blank pad s : blank pad = true -> lstrip (pad +:+ s) = lstrip s.
Proof.
  induction pad as [|c pad IH]; simpl; [done|].
  intros [Hc Hp]%andb_true_iff. rewrite Hc. auto.
Qed.

Lemma rstrip_all_blank pad : blank pad = true -> rstrip pad = "".
Proof.
  induction pad as [|d pad IH]; simpl; [done|].
  intros [Hd Hp]%andb_true_iff. by rewrite (IH Hp), Hd.
Qed.

Lemma rstrip_blank s pad : blank pad = true -> rstrip (s +:+ pad) = rstrip s.
Proof.
  intros Hp. induction s as [|c s IH]; simpl.
  - by apply rstrip_all_blank.
  - by rewrite IH.
Qed.

Lemma lstrip_id s : head_space s = false -> lstrip s = s.
Proof. destruct s as [|c s]; simpl; [done|]. by intros ->. Qed.

Lemma rstrip_id s : last_space s = false -> rstrip s = s.
Proof.
  induction s as [|c s IH]; [done|].
  destruct s as [|d s].
  - simpl. by intros ->.
  - intros H. change (rstrip (String c (String d s)))
      with (match rstrip (String d s) with
            | EmptyString => if is_space c then EmptyString else String c EmptyString
            | kept => String c kept end).
    rewrite IH by exact H. done.
Qed.

Lemma lstrip_all_blank pad : blank pad = true -> lstrip pad = "".
Proof.
  induction pad as [|d pad IH]; simpl; [done|].
  intros [Hd Hp]%andb_true_iff. by rewrite Hd, (IH Hp).
Qed.

Lemma strip_padded pad1 word pad2 :
  blank pad1 = true -> blank pad2 = true ->
  head_space word = false -> last_space word = false ->
  strip (pad1 +:+ word +:+ pad2) = word.
Proof.
  intros H1 H2 Hh Hl. unfold strip.
  rewrite lstrip_blank by done.
  destruct word as [|c word].
  - simpl. rewrite lstrip_all_blank by done. done.
  - rewrite lstrip_id by done. rewrite rstrip_blank by done.
    by apply rstrip_id.
Qed.

Lemma lstrip_split s : ∃ pad, s = pad +:+ lstrip s ∧ blank pad = true.
Proof.
  induction s as [|c s (pad & IH & Hp)]; [by exists ""|].
  cbn [lstrip]. destruct (is_space c) eqn:Hc.
  - exists (String c pad). split.
    + change (String c s = String c (pad +:+ lstrip s)). by rewrite <- IH.
    + cbn [blank]. by rewrite Hc, Hp.
  - by exists "".
Qed.

Lemma rstrip_split s : ∃ pad, s = rstrip s +:+ pad ∧ blank pad = true.
Proof.
  induction s as [|c s (pad & IH & Hp)]; [by exists ""|].
  cbn [rstrip]. destruct (rstrip s) as [|d kept] eqn:Hr.
  - change ("" +:+ pad) with pad in IH. subst pad. destruct (is_space c) eqn:Hc.
    + exists (String c s). split; [done|]. cbn [blank]. by rewrite Hc, Hp.
    + exists s. done.
  - exists pad. split; [|done].
    change (String c s = String c (String d kept +:+ pad)). by rewrite <- IH.
Qed.

Lemma strip_split s :
  ∃ pad1 pad2, s = pad1 +:+ strip s +:+ pad2
               ∧ blank pad1 = true ∧ blank pad2 = true.
Proof.
  destruct (lstrip_split s) as (pad1 & Hs & H1).
  destruct (rstrip_split (lstrip s)) as (pad2 & Hl & H2).
  exists pad1, pad2. unfold strip. by rewrite <- Hl.
Qed.

Lemma is_space_lower c : is_space (lower_ascii c) = is_space c.
Proof. destruct c as [[] [] [] [] [] [] [] []]; reflexivity. Qed.

Lemma head_space_lower s : head_space (lower s) = head_space s.
Proof. destruct s; simpl; [done|]. apply is_space_lower. Qed.

Lemma last_space_lower s : last_space (lower s) = last_space s.
Proof.
  induction s as [|c s IH]; [done|].
  destruct s as [|d s]; [apply is_space_lower|]. exact IH.
Qed.

Lemma runs_ask (o : op) tr res :
  runs (ask o) tr res ↔ ∃ r, tr = [Ev o r] ∧ res = Ok r.
Proof.
  simpl. split.
  - intros (r & tr' & -> & -> & ->). eauto.
  - intros (r & -> & ->). by exists r, [].
Qed.

(** X1. [_env_flag name default] reads the variable [name] once and
    returns a boolean. Unset, the variable gives [default]. Set to an
    ASCII string, it gives [True] exactly when the string is one of
    [1], [true], [yes], [y], [on] in any mix of cases, with white space
    allowed before and after: every other value, the empty string
    included, switches the source off. *)
Theorem env_flag_reads_five_words (name : string) (default : bool) tr res :
  runs (_env_flag name default) tr res ->
  ∃ raw b,
    tr = [Ev (Getenv name) raw] ∧ res = Ok b
    ∧ match raw with
      | None => b = default
      | Some s =>
          isascii s = true ->
          b = true ↔
          ∃ pad1 word pad2,
            s = pad1 +:+ word +:+ pad2
            ∧ blank pad1 = true ∧ blank pad2 = true
            ∧ lower word ∈ ["1"; "true"; "yes"; "y"; "on"]
      end.
Proof.
  unfold _env_flag. intros H.
  apply runs_bind in H as [(raw & tr1 & tr2 & Hg & Hk & ->)|(e & Hg & _)].
  2: { apply runs_ask in Hg as (? & _ & ?). discriminate. }
  apply runs_ask in Hg as (r & -> & Hr). injection Hr as ->.
  simpl in r. destruct r as [s|]; destruct Hk as [-> ->].
  - exists (Some s), (in_strings (lower (strip s)) ["1"; "true"; "yes"; "y"; "on"]).
    split; [done|]. split; [done|]. intros _. unfold in_strings.
    rewrite bool_decide_eq_true. split.
    + intros Hin. destruct (strip_split s) as (pad1 & pad2 & Hs & H1 & H2).
      exists pad1, (strip s), pad2. done.
    + intros (pad1 & word & pad2 & -> & H1 & H2 & Hin).
      rewrite strip_padded; [done..| |].
      * rewrite <- head_space_lower.
        repeat (apply elem_of_cons in Hin as [->|Hin]; [reflexivity|]).
        by apply elem_of_nil in Hin.
      * rewrite <- last_space_lower.
        repeat (apply elem_of_cons in Hin as [->|Hin]; [reflexivity|]).
        by apply elem_of_nil in Hin.
  - exists None, default. done.
Qed.

(** * Calls a program never makes *)

Lemma avoids_bind {A B : Type} (f : op -> bool) (p : prog A) (k : A -> prog B) :
  avoids f p -> (∀ a, avoids f (k a)) -> avoids f (p ≫= k).
Proof.
  change (p ≫= k) with (bind p k).
  induction p as [a|e|o c IH]; simpl; [auto|auto|].
  intros [Ho Hc] Hk. split; [done|]. intros r. by apply IH.
Qed.

Lemma avoids_fmap {A B : Type} (f : op -> bool) (g : A -> B) (p : prog A) :
  avoids f p -> avoids f (g <$> p).
Proof.
  intros H. change (g <$> p) with (p ≫= fun a => mret (g a)).
  by apply avoids_bind.
Qed.

Lemma avoids_try_except {A : Type} (f : op -> bool) (p : prog A)
    (h : exn -> prog A) :
  avoids f p -> (∀ e, avoids f (h e)) -> avoids f (try_except p h).
Proof.
  induction p as [a|e|o c IH]; simpl; [auto|auto|].
  intros [Ho Hc] Hh. split; [done|]. intros r. by apply IH.
Qed.

Lemma avoids_try_finally {A : Type} (f : op -> bool) (p : prog A)
    (fin : prog unit) :
  avoids f p -> avoids f fin -> avoids f (try_finally p fin).
Proof.
  induction p as [a|e|o c IH]; simpl.
  - intros _ Hf. by apply (avoids_bind f fin).
  - intros _ Hf. by apply (avoids_bind f fin).
  - intros [Ho Hc] Hf. split; [done|]. intros r. by apply IH.
Qed.

Lemma avoids_attempt {A : Type} (f : op -> bool) (p : prog A) :
  avoids f p -> avoids f (attempt p).
Proof.
  intros H. unfold attempt. apply avoids_try_except; [|done].
  by apply (avoids_bind f p).
Qed.

Lemma avoids_call {A : Type} (f : op -> bool) (o : op)
    (cast : resp o -> result A) :
  f o = false -> avoids f (call o cast).
Proof. intros H. split; [done|]. intros r. by destruct (cast r). Qed.

Lemma avoids_ask (f : op -> bool) (o : op) : f o = false -> avoids f (ask o).
Proof. intros H. by split. Qed.

Lemma avoids_for_each {A S : Type} (f : op -> bool) (l : list A)
    (body : A -> S -> prog S) (s : S) :
  (∀ x s, avoids f (body x s)) -> avoids f (for_each l body s).
Proof.
  intros Hb. revert s. induction l as [|x l IH]; intros s; [done|].
  cbn [for_each]. by apply avoids_bind.
Qed.

Lemma avoids_mapM {A B : Type} (f : op -> bool) (g : A -> prog B) (l : list A) :
  (∀ x, avoids f (g x)) -> avoids f (mapM g l).
Proof.
  intros Hg. induction l as [|x l IH]; [done|].
  cbn [mapM]. apply avoids_bind; [done|]. intros y.
  apply avoids_bind; [done|]. done.
Qed.

Lemma avoids_runs {A : Type} (f : op -> bool) (p : prog A) tr res :
  avoids f p -> runs p tr res -> Forall (fun e => f (ev_op e) = false) tr.
Proof.
  revert tr. induction p as [a|e|o k IH]; simpl; intros tr.
  - intros _ [-> _]. constructor.
  - intros _ [-> _]. constructor.
  - intros [Ho Hk] (r & tr' & -> & Hr). constructor; [done|]. by eapply IH.
Qed.

Ltac avoids_step :=
  match goal with
  | |- avoids _ (_ ≫= _) => apply avoids_bind; [|intros]
  | |- avoids _ (_ <$> _) => apply avoids_fmap
  | |- avoids _ (try_except _ _) => apply avoids_try_except; [|intros]
  | |- avoids _ (try_finally _ _) => apply avoids_try_finally
  | |- avoids _ (attempt _) => apply avoids_attempt
  | |- avoids _ (for_each _ _ _) => apply avoids_for_each; intros
  | |- avoids _ (mapM _ _) => apply avoids_mapM; intros
  | |- avoids _ (call _ _) => apply avoids_call; reflexivity
  | |- avoids _ (ask _) => apply avoids_ask; reflexivity
  | |- avoids _ (mret _) => exact I
  | |- avoids _ (Ret _) => exact I
  | |- avoids _ (Throw _) => exact I
  | |- avoids _ (match ?x with _ => _ end) => destruct x
  | |- avoids _ (let '(_, _) := ?x in _) => destruct x
  end.

Ltac avoids_tac unfolds := repeat first [avoids_step | progress unfolds].

Lemma ends_well_ok {A : Type} (P : A -> Prop) (p : prog A) tr res :
  ends_well P p -> runs p tr res -> ∃ a, res = Ok a ∧ P a.
Proof.
  revert tr. induction p as [a|e|o k IH]; simpl; intros tr.
  - intros HP [_ ->]. eauto.
  - done.
  - intros Hk (r & tr' & _ & Hr). by eapply IH.
Qed.

Lemma ends_well_bind {A B : Type} (P : B -> Prop) (p : prog A) (k : A -> prog B) :
  ends_well (fun a => ends_well P (k a)) p -> ends_well P (p ≫= k).
Proof.
  change (p ≫= k) with (bind p k).
  induction p as [a|e|o c IH]; simpl; [auto|auto|].
  intros Hc r. by apply IH.
Qed.

(** A run of [m ≫= k] where [m] only reads the environment and never
    raises. *)
Lemma runs_env_bind {A B : Type} (f : op -> bool) (m : prog A) (k : A -> prog B)
    tr res :
  avoids f m -> ends_well (fun _ => True) m ->
  runs (m ≫= k) tr res ->
  ∃ a tr1 tr2, Forall (fun e => f (ev_op e) = false) tr1
               ∧ runs (k a) tr2 res ∧ tr = tr1 ++ tr2.
Proof.
  intros Ha He H.
  apply runs_bind in H as [(a & tr1 & tr2 & Hm & Hk & ->)|(e & Hm & _)].
  - exists a, tr1, tr2. split; [by eapply avoids_runs|done].
  - by apply (ends_well_ok _ _ _ _ He) in Hm as (? & ? & _).
Qed.

Lemma runs_getenv_int (name dflt : string) tr res :
  runs (getenv_default name dflt ≫= int) tr res ->
  ∃ v, tr = [Ev (Getenv name) v]
       ∧ match int_of_string (from_option id dflt v) with
         | Some z => res = Ok z
         | None => ∃ e, res = Raised e ∧ exn_class e = "ValueError"
         end.
Proof.
  unfold getenv_default, getenv, int. intros H.
  apply runs_bind in H as [(s & tr1 & tr2 & Hg & Hi & ->)|(e & Hg & _)].
  - apply runs_bind in Hg as [(v & tr3 & tr4 & Hg & [-> Hs] & ->)|(e & Hg & _)].
    + apply runs_ask in Hg as (r & -> & Hr). injection Hr as <-.
      injection Hs as ->. exists v.
      destruct (int_of_string (from_option id dflt v)) as [z|];
        destruct Hi as [-> ->]; simpl; eauto.
    + apply runs_ask in Hg as (? & _ & ?). discriminate.
  - apply runs_bind in Hg as [(v & tr3 & tr4 & Hg & [_ ?] & _)|(e' & Hg & _)];
      [discriminate|].
    apply runs_ask in Hg as (? & _ & ?). discriminate.
Qed.

Ltac env_bind H Hpre :=
  apply (runs_env_bind not_setting) in H
    as (? & ? & ? & Hpre & H & ->);
  [|solve [avoids_tac ltac:(unfold getenv_default, getenv, print)]
   |solve [repeat first [ exact I | intro
                 | progress (unfold getenv_default, getenv, print; simpl)
                 | match goal with
                   | |- ends_well _ (match ?x with _ => _ end) => destruct x
                   end ]]].

Lemma runs_create_stagehand_session tr res :
  runs create_stagehand_session tr res ->
  ∃ pre verbose dom_settle,
    Forall (fun e => not_setting (ev_op e) = false) pre
    ∧ let v := from_option id "1" verbose in
      let d := from_option id "30000" dom_settle in
      (int_of_string v = None
       ∧ tr = pre ++ [Ev (Getenv "STAGEHAND_VERBOSE") verbose]
       ∧ ∃ e, res = Raised e ∧ exn_class e = "ValueError")
      ∨ (is_Some (int_of_string v) ∧ int_of_string d = None
         ∧ tr = pre ++ [Ev (Getenv "STAGEHAND_VERBOSE") verbose;
                        Ev (Getenv "STAGEHAND_DOM_SETTLE_TIMEOUT_MS") dom_settle]
         ∧ ∃ e, res = Raised e ∧ exn_class e = "ValueError")
      ∨ (∃ cfg tail,
           int_of_string v = Some (cfg_verbose cfg)
           ∧ int_of_string d = Some (cfg_dom_settle_timeout_ms cfg)
           ∧ cfg_env cfg = "BROWSERBASE" ∧ cfg_self_heal cfg = true
           ∧ cfg_browser_settings cfg ≠ Some []
           ∧ tr = pre ++ [Ev (Getenv "STAGEHAND_VERBOSE") verbose;
                          Ev (Getenv "STAGEHAND_DOM_SETTLE_TIMEOUT_MS") dom_settle]
                  ++ tail
           ∧ ((∃ e, tail = [Ev (NewStagehand cfg) (Raised e)] ∧ res = Raised e)
              ∨ ∃ sh,
                  (∃ e, tail = [Ev (NewStagehand cfg) (Ok sh);
                                Ev (Init sh) (Raised e)]
                        ∧ res = Raised e)
                  ∨ (tail = [Ev (NewStagehand cfg) (Ok sh); Ev (Init sh) (Ok tt)]
                     ∧ res = Ok (sh, {| page_of := sh |})))).
Proof.
  unfold create_stagehand_session. intros H.
  env_bind H Hp1. cbv zeta in H.
  env_bind H Hp2. env_bind H Hp3. env_bind H Hp4. env_bind H Hp5.
  env_bind H Hp6. env_bind H Hp7. env_bind H Hp8. env_bind H Hp9.
  env_bind H Hp10. env_bind H Hp11. env_bind H Hp12. env_bind H Hp13.
  repeat match goal with
         | H1 : Forall _ ?a, H2 : Forall _ ?b |- context [?a ++ ?b ++ _] =>
             pose proof (proj2 (Forall_app _ a b) (conj H1 H2));
             clear H1 H2; rewrite (app_assoc a b)
         end.
  match goal with
  | Hp : Forall _ ?l |- context [?l ++ ?t] =>
      exists l; generalize dependent l; intros pre Hpre
  end.
  apply runs_bind in H as [(verbose & tr1 & tr2 & Hv & H & ->)|(e & Hv & ->)];
    apply runs_getenv_int in Hv as (v & -> & Hv).
  2: { exists v, None. split; [done|]. left.
       destruct (int_of_string (from_option id "1" v)); [discriminate Hv|].
       split; [done|]. split; [done|].
       destruct Hv as (e0 & [= <-] & He). eauto. }
  destruct (int_of_string (from_option id "1" v)) as [z|] eqn:Hz;
    [|by destruct Hv as (? & ? & _)].
  injection Hv as <-.
  apply runs_bind in H as [(dom & tr1 & tr3 & Hd & H & ->)|(e & Hd & ->)];
    apply runs_getenv_int in Hd as (d & -> & Hd).
  2: { exists v, d. split; [done|]. right. left. rewrite Hz.
       destruct (int_of_string (from_option id "30000" d)); [discriminate Hd|].
       split; [done|]. split; [done|]. split; [done|].
       destruct Hd as (e0 & [= <-] & He). eauto. }
  destruct (int_of_string (from_option id "30000" d)) as [z'|] eqn:Hz';
    [|by destruct Hd as (? & ? & _)].
  injection Hd as <-.
  exists v, d. split; [done|]. right. right. cbv zeta in H.
  match type of H with
  | runs (call (NewStagehand ?c) _ ≫= _) _ _ => exists c, tr3
  end.
  rewrite Hz, Hz'. split_and!; [done|done|done|done| |done|].
  { simpl. by destruct x12. }
  apply runs_bind in H as [(sh & tr4 & tr5 & Hn & H & ->)|(e & Hn & ->)].
  - apply runs_call in Hn as (r & -> & Hr). simpl in r.
    destruct r as [sh'|e]; [|discriminate Hr]. injection Hr as <-.
    right. exists sh.
    apply runs_bind in H as [(u & tr4 & tr6 & Hi & [-> ->] & ->)|(e & Hi & ->)].
    + apply runs_call in Hi as (r & -> & Hr). simpl in r.
      destruct r as [[]|e]; [|discriminate Hr]. right. by destruct u.
    + apply runs_call in Hi as (r & -> & Hr). simpl in r.
      destruct r as [[]|e']; [discriminate Hr|]. injection Hr as <-.
      left. eauto.
  - apply runs_call in Hn as (r & -> & Hr). simpl in r.
    destruct r as [sh'|e']; [discriminate Hr|]. injection Hr as <-.
    left. eauto.
Qed.

(** * Creating a session, and doing without *)

Lemma getenv_event_inj name name' (a a' : option string) :
  Ev (Getenv name) a = Ev (Getenv name') a' -> name = name' ∧ a = a'.
Proof. intros H. apply (f_equal getenv_answer) in H. by injection H. Qed.


(** X3. When [STAGEHAND_VERBOSE] or [STAGEHAND_DOM_SETTLE_TIMEOUT_MS]
    is set to a string that [int] rejects, [create_stagehand_session]
    raises [ValueError] before any [Stagehand] is built: the run has
    only read the environment and printed. *)
Theorem bad_integer_setting_stops_session tr res (s : string) :
  runs create_stagehand_session tr res ->
  Ev (Getenv "STAGEHAND_VERBOSE") (Some s) ∈ tr
  ∨ Ev (Getenv "STAGEHAND_DOM_SETTLE_TIMEOUT_MS") (Some s) ∈ tr ->
  int_of_string s = None ->
  (∃ e, res = Raised e ∧ exn_class e = "ValueError")
  ∧ Forall (fun e => is_env (ev_op e) = true) tr.
Proof.
  intros H Hin Hs. apply runs_create_stagehand_session in H
    as (pre & verbose & dom & Hpre & H). cbv zeta in H.
  assert (∀ name a, name ∈ ["STAGEHAND_VERBOSE"; "STAGEHAND_DOM_SETTLE_TIMEOUT_MS"] ->
            Ev (Getenv name) a ∉ pre) as Hnot.
  { intros name a Hname Hmem. rewrite Forall_forall in Hpre.
    apply Hpre in Hmem. unfold not_setting in Hmem. simpl in Hmem.
    unfold in_strings in Hmem. by rewrite bool_decide_eq_false in Hmem. }
  assert (Forall (λ e, is_env (ev_op e) = true) pre) as Henv.
  { eapply Forall_impl; [exact Hpre|]. intros ev Hev. unfold not_setting in Hev.
    apply orb_false_iff in Hev as [Hev _]. by apply negb_false_iff in Hev. }
  assert (∀ name a l, Ev (Getenv name) a ∈ pre ++ l ->
            name ∈ ["STAGEHAND_VERBOSE"; "STAGEHAND_DOM_SETTLE_TIMEOUT_MS"] ->
            Ev (Getenv name) a ∈ l) as Hl.
  { intros name a l [Hm|Hm]%elem_of_app Hname; [|done]. by apply Hnot in Hm. }
  destruct H as [(Hv & -> & He)|[(Hv & Hd & -> & He)|H]].
  - split; [done|]. apply Forall_app. split; [done|]. repeat constructor.
  - split; [done|]. apply Forall_app. split; [done|]. repeat constructor.
  - exfalso. destruct H as (cfg & tail & Hv & Hd & _ & _ & _ & -> & H).
    assert (∀ name a, Ev (Getenv name) a ∉ tail) as Htail.
    { intros name a Hm.
      destruct H as [(e & -> & _)|(sh' & [(e & -> & _)|[-> _]])];
        repeat (apply elem_of_cons in Hm as [Hm|Hm];
                [by apply (f_equal getenv_answer) in Hm|]);
        by apply elem_of_nil in Hm. }
    destruct Hin as [Hin|Hin].
    + apply Hl in Hin; [|apply elem_of_cons; by left].
      apply elem_of_app in Hin as [Hin|Hin]; [|by apply Htail in Hin].
      apply elem_of_cons in Hin as [Hin|Hin].
      * apply getenv_event_inj in Hin as [_ <-]. simpl in Hv. congruence.
      * apply elem_of_cons in Hin as [Hin|Hin]; [|by apply elem_of_nil in Hin].
        by apply getenv_event_inj in Hin as [? _].
    + apply Hl in Hin; [|apply elem_of_cons; right; apply elem_of_cons; by left].
      apply elem_of_app in Hin as [Hin|Hin]; [|by apply Htail in Hin].
      apply elem_of_cons in Hin as [Hin|Hin].
      * by apply getenv_event_inj in Hin as [? _].
      * apply elem_of_cons in Hin as [Hin|Hin]; [|by apply elem_of_nil in Hin].
        apply getenv_event_inj in Hin as [_ <-]. simpl in Hd. congruence.
Qed.

Lemma create_avoids_close : avoids is_close create_stagehand_session.
Proof.
  unfold create_stagehand_session.
  avoids_tac ltac:(unfold getenv_default, getenv, print, int).
Qed.

Lemma create_avoids_page_calls : avoids is_page_call create_stagehand_session.
Proof.
  unfold create_stagehand_session.
  avoids_tac ltac:(unfold getenv_default, getenv, print, int).
Qed.

Lemma create_avoids_credentials :
  avoids (reads ["Vital_login"; "Vital_password"]) create_stagehand_session.
Proof.
  unfold create_stagehand_session.
  avoids_tac ltac:(unfold getenv_default, getenv, print, int).
Qed.

Lemma created_is_initialised tr sh page :
  runs create_stagehand_session tr (Ok (sh, page)) ->
  ∃ ev, ev ∈ tr ∧ initialised ev = true.
Proof.
  intros H. apply runs_create_stagehand_session in H
    as (pre & verbose & dom & Hpre & H). cbv zeta in H.
  destruct H as [(_ & _ & e & ? & _)|[(_ & _ & _ & e & ? & _)|H]];
    [discriminate..|].
  destruct H as (cfg & tail & _ & _ & _ & _ & _ & -> & H).
  destruct H as [(e & _ & ?)|(sh' & [(e & _ & ?)|[-> Hr]])]; [discriminate..|].
  exists (Ev (Init sh') (Ok tt)). split; [|done].
  rewrite !elem_of_app, !elem_of_cons. auto.
Qed.

Lemma avoids_calls {A : Type} (f : op -> bool) (p : prog A) tr res (o : op) :
  avoids f p -> runs p tr res -> o ∈ calls tr -> f o = false.
Proof.
  intros Ha Hr Ho. apply (avoids_runs f p tr res Ha) in Hr.
  apply list_elem_of_fmap in Ho as (ev & -> & Hev).
  rewrite Forall_forall in Hr. by apply Hr.
Qed.

(** A wrapper's run in which no [init] returned. *)
Lemma scoped_without_init {A B : Type} (body : Page -> prog A)
    (on_return : A -> B) (on_error : B) (error_line : exn -> string)
    (name : string) tr res :
  scoped body on_return on_error error_line name tr res ->
  (∀ ev, ev ∈ tr -> initialised ev = false) ->
  res = Ok on_error
  ∧ (∀ sh, Close sh ∉ calls tr)
  ∧ ∃ tr_s e, runs create_stagehand_session tr_s (Raised e)
              ∧ tr = tr_s ++ [Ev (Print (error_line e)) tt].
Proof.
  intros Hs Hno. destruct Hs as [tr_s e Hc|tr_s sh page tr_b a tr_c Hc _ _
                                |tr_s sh page tr_b e tr_c Hc _ _].
  - split; [done|]. split; [|eauto]. intros sh Hin.
    unfold calls in Hin. rewrite fmap_app in Hin.
    apply elem_of_app in Hin as [Hin|Hin].
    + by apply (avoids_calls is_close _ _ _ _ create_avoids_close Hc) in Hin.
    + apply list_elem_of_singleton in Hin. discriminate.
  - apply created_is_initialised in Hc as (ev & Hev & Hi).
    rewrite Hno in Hi; [done|]. apply elem_of_app. by left.
  - apply created_is_initialised in Hc as (ev & Hev & Hi).
    rewrite Hno in Hi; [done|]. apply elem_of_app. by left.
Qed.

(** X4. In a run of one of the three session wrappers in which no
    [init] returned (the session could not be created), [close] is
    never called, and the wrapper returns its fallback: [None] for a
    source and for the macro news, the empty dict for the batch. *)
Theorem failed_init_is_never_closed :
  (∀ (R : Type) (source_name ticker : string)
     (fetch_func : Page -> string -> prog (option R)) tr res,
     runs (_run_source_with_session source_name ticker fetch_func) tr res ->
     (∀ ev, ev ∈ tr -> initialised ev = false) ->
     res = Ok None ∧ ∀ sh, Close sh ∉ calls tr)
  ∧ (∀ tr res,
       runs fetch_macro_news_with_session tr res ->
       (∀ ev, ev ∈ tr -> initialised ev = false) ->
       res = Ok None ∧ ∀ sh, Close sh ∉ calls tr)
  ∧ (∀ tickers tr res,
       runs (_run_vital_knowledge_batch tickers) tr res ->
       (∀ ev, ev ∈ tr -> initialised ev = false) ->
       res = Ok ∅ ∧ ∀ sh, Close sh ∉ calls tr).
Proof.
  split_and!.
  - intros R source_name ticker fetch_func tr res H Hno.
    apply (runs_session_wrapper (λ page, fetch_func page ticker) id None) in H.
    by destruct (scoped_without_init _ _ _ _ _ _ _ H Hno) as (? & ? & _).
  - intros tr res H Hno.
    apply (runs_session_wrapper fetch_macro_news Some None) in H.
    by destruct (scoped_without_init _ _ _ _ _ _ _ H Hno) as (? & ? & _).
  - intros tickers tr res H Hno.
    apply (runs_session_wrapper (batch_mapping tickers) id ∅) in H.
    by destruct (scoped_without_init _ _ _ _ _ _ _ H Hno) as (? & ? & _).
Qed.

(** The login phase reads the two variables first, and stops there when
    one of them is unset or empty. *)
Lemma runs_vital_login (tag : string) (page : Page) tr res :
  runs (vital_login tag page) tr res ->
  ∃ username password rest,
    tr = Ev (Getenv "Vital_login") username
         :: Ev (Getenv "Vital_password") password :: rest
    ∧ (truthy_str username && truthy_str password = false ->
       rest = []
       ∧ res = Raised (Exn "ValueError"
                         "Missing Vital_login or Vital_password in .env"))
    ∧ (∀ a, res = Ok a -> truthy_str username && truthy_str password = true).
Proof.
  unfold vital_login, getenv. intros H.
  apply runs_bind in H as [(u & tr1 & tr2 & Hu & H & ->)|(e & Hu & _)];
    apply runs_ask in Hu as (r & -> & Hr); [injection Hr as <-|discriminate].
  apply runs_bind in H as [(p & tr1 & tr3 & Hp & H & ->)|(e & Hp & _)];
    apply runs_ask in Hp as (r' & -> & Hr); [injection Hr as <-|discriminate].
  exists u, p, tr3. split; [done|].
  assert (∀ tr' : list event,
            tr' = [] ∧ res = Raised (Exn "ValueError"
                           "Missing Vital_login or Vital_password in .env") ->
            (false = false ->
             tr' = [] ∧ res = Raised (Exn "ValueError"
                            "Missing Vital_login or Vital_password in .env"))
            ∧ ∀ a : (), res = Ok a -> false = true) as Hmiss.
  { intros tr' [-> ->]. split; [done|]. discriminate. }
  destruct u as [[|c u]|]; simpl; [by apply Hmiss| |by apply Hmiss].
  destruct p as [[|c' p]|]; simpl; [by apply Hmiss| |by apply Hmiss].
  split; [done|]. done.
Qed.

(** With the credentials missing, a run of the login phase is the two
    reads. *)
Lemma login_without_credentials (tag : string) (page : Page) tr_l tr res :
  runs (vital_login tag page) tr_l res ->
  credentials_missing tr -> (∀ ev, ev ∈ tr_l -> ev ∈ tr) ->
  res = Raised (Exn "ValueError" "Missing Vital_login or Vital_password in .env")
  ∧ Forall (fun e => is_page_call (ev_op e) = false) tr_l.
Proof.
  intros H Hmiss Hsub.
  apply runs_vital_login in H as (u & p & rest & -> & Hno & _).
  assert (truthy_str u && truthy_str p = false) as Hf.
  { apply andb_false_iff. destruct Hmiss as [Hu|Hp]; [left|right].
    - apply Hu, Hsub. apply elem_of_cons. by left.
    - apply Hp, Hsub. apply elem_of_cons. right. apply elem_of_cons. by left. }
  destruct (Hno Hf) as [-> ->]. split; [done|]. repeat constructor.
Qed.

Lemma closing_no_page_calls name sh tr :
  closing name sh tr -> Forall (fun e => is_page_call (ev_op e) = false) tr.
Proof. intros [->|(e & ->)]; repeat constructor. Qed.

(** A wrapper's run with the credentials missing, when the body is a
    connector that begins with the login phase. *)
Lemma scoped_without_credentials {A B : Type} (body : Page -> prog A)
    (on_return : A -> B) (on_error : B) (error_line : exn -> string)
    (name : string) (tag start : string) tr res :
  (∀ page tr_b out,
     runs (body page) tr_b out ->
     ∃ tr_l r tr_k,
       runs (vital_login tag page) tr_l r
       ∧ tr_b = Ev (Print start) tt :: tr_l ++ tr_k
       ∧ ∀ e, r = Raised e -> tr_k = [] ∧ out = Raised e) ->
  scoped body on_return on_error error_line name tr res ->
  credentials_missing tr ->
  res = Ok on_error
  ∧ Forall (fun e => is_page_call (ev_op e) = false) tr
  ∧ ((∃ ev, ev ∈ tr ∧ initialised ev = true) ->
     error_line (Exn "ValueError" "Missing Vital_login or Vital_password in .env")
     ∈ log tr).
Proof.
  intros Hbody Hs Hmiss.
  destruct Hs as [tr_s e Hc|tr_s sh page tr_b a tr_c Hc Hb Hcl
                 |tr_s sh page tr_b e tr_c Hc Hb Hcl].
  - split; [done|]. split.
    + apply Forall_app. split; [|repeat constructor].
      by apply (avoids_runs is_page_call _ _ _ create_avoids_page_calls Hc).
    + intros (ev & Hev & Hi). exfalso.
      apply elem_of_app in Hev as [Hev|Hev].
      * apply runs_create_stagehand_session in Hc
          as (pre & verbose & dom & Hpre & H). cbv zeta in H.
        assert (∀ ev, ev ∈ pre -> initialised ev = false) as Hpre'.
        { intros ev' Hev'. rewrite Forall_forall in Hpre.
          apply Hpre in Hev'. destruct ev' as [[] r]; done. }
        destruct H as [(_ & -> & _)|[(_ & _ & -> & _)|H]].
        -- apply elem_of_app in Hev as [Hev|Hev]; [by rewrite Hpre' in Hi|].
           apply list_elem_of_singleton in Hev as ->. done.
        -- apply elem_of_app in Hev as [Hev|Hev]; [by rewrite Hpre' in Hi|].
           repeat (apply elem_of_cons in Hev as [->|Hev]; [done|]).
           by apply elem_of_nil in Hev.
        -- destruct H as (cfg & tail & _ & _ & _ & _ & _ & -> & H).
           apply elem_of_app in Hev as [Hev|Hev]; [by rewrite Hpre' in Hi|].
           destruct H as [(e' & -> & _)|(sh' & [(e' & -> & _)|[_ ?]])];
             [..|discriminate];
             repeat (apply elem_of_cons in Hev as [->|Hev]; [done|]);
             by apply elem_of_nil in Hev.
      * apply list_elem_of_singleton in Hev as ->. done.
  - exfalso. apply Hbody in Hb as (tr_l & r & tr_k & Hl & -> & Hr).
    destruct (login_without_credentials _ _ _ _ _ Hl Hmiss) as [-> _].
    + intros ev Hev. rewrite !elem_of_app, elem_of_cons, elem_of_app. auto.
    + by destruct (Hr _ eq_refl).
  - apply Hbody in Hb as (tr_l & r & tr_k & Hl & -> & Hr).
    destruct (login_without_credentials _ _ _ _ _ Hl Hmiss) as [-> Hpage].
    { intros ev Hev. rewrite !elem_of_app, elem_of_cons, elem_of_app. auto. }
    destruct (Hr _ eq_refl) as [-> [= <-]]. split; [done|]. split.
    + apply Forall_app. split.
      { by apply (avoids_runs is_page_call _ _ _ create_avoids_page_calls Hc). }
      apply Forall_app. split.
      { constructor; [done|]. by rewrite app_nil_r. }
      constructor; [done|]. by eapply closing_no_page_calls.
    + intros _. rewrite !log_app. rewrite !elem_of_app. right. right.
      apply elem_of_cons. by left.
Qed.

(** X5. When [Vital_login] or [Vital_password] is unset or empty at
    every read, the batch task returns the empty dict and the macro
    task [None], without a single call on a page; if a session had been
    created, the line that names the missing credentials is printed. *)
Theorem missing_credentials_end_the_scrape :
  (∀ tickers tr res,
     runs (_run_vital_knowledge_batch tickers) tr res ->
     credentials_missing tr ->
     res = Ok ∅
     ∧ Forall (fun e => is_page_call (ev_op e) = false) tr
     ∧ ((∃ ev, ev ∈ tr ∧ initialised ev = true) ->
        "[ERROR] Vital Knowledge batch failed: Missing Vital_login or Vital_password in .env"
        ∈ log tr))
  ∧ (∀ tr res,
       runs fetch_macro_news_with_session tr res ->
       credentials_missing tr ->
       res = Ok None
       ∧ Forall (fun e => is_page_call (ev_op e) = false) tr
       ∧ ((∃ ev, ev ∈ tr ∧ initialised ev = true) ->
          "[ERROR] Macro News failed: Missing Vital_login or Vital_password in .env"
          ∈ log tr)).
Proof.
  split.
  - intros tickers tr res H Hmiss.
    apply (runs_session_wrapper (batch_mapping tickers) id ∅) in H.
    eapply (scoped_without_credentials (batch_mapping tickers) id ∅ _ _
              "[VitalKnowledge]") in H; [exact H| |exact Hmiss].
    intros page tr_b out Hb. unfold batch_mapping in Hb.
    apply runs_bind in Hb as [(reports & tr1 & tr2 & Hf & [-> ->] & ->)
                             |(e & Hf & ->)];
      apply runs_fetch_batch in Hf; inversion Hf; subst; simplify_eq.
    + eexists _, _, _. split; [eassumption|]. rewrite app_nil_r.
      split; [reflexivity|]. discriminate.
    + eexists _, _, _. split; [eassumption|]. rewrite app_nil_r.
      split; [reflexivity|]. discriminate.
    + eexists _, _, []. split; [eassumption|]. rewrite app_nil_r.
      split; [reflexivity|]. by intros ? [= <-].
  - intros tr res H Hmiss.
    apply (runs_session_wrapper fetch_macro_news Some None) in H.
    eapply (scoped_without_credentials fetch_macro_news Some None _ _
              "[MacroNews]") in H; [exact H| |exact Hmiss].
    intros page tr_b out Hb.
    apply runs_fetch_macro_news in Hb. inversion Hb; subst.
    + eexists _, _, []. split; [eassumption|]. rewrite app_nil_r.
      split; [reflexivity|]. by intros ? [= <-].
    + eexists _, _, _. split; [eassumption|].
      split; [reflexivity|]. discriminate.
    + eexists _, _, _. split; [eassumption|].
      split; [reflexivity|]. discriminate.
Qed.

(** * A logic of runs *)

Section Logic.
Context {S : Type} (upd : S -> event -> S) (inv : S -> Prop).


Lemma wp_mono {A : Type} (p : prog A) s (Q Q' : result A -> S -> Prop) :
  (∀ r s', inv s' -> Q r s' -> Q' r s') -> wp upd inv p s Q -> wp upd inv p s Q'.
Proof.
  intros HQ. revert s. induction p as [a|e|o k IH]; simpl; intros s.
  - intros [Hi H]. auto.
  - intros [Hi H]. auto.
  - intros [Hi H]. split; [done|]. intros r. by apply IH.
Qed.

Lemma wp_bind {A B : Type} (p : prog A) (f : A -> prog B) s Q :
  wp upd inv p s
     (fun r s' => match r with
                  | Ok a => wp upd inv (f a) s' Q
                  | Raised e => Q (Raised e) s'
                  end) ->
  wp upd inv (p ≫= f) s Q.
Proof.
  change (p ≫= f) with (bind p f).
  revert s. induction p as [a|e|o k IH]; simpl; intros s.
  - by intros [_ H].
  - done.
  - intros [Hi H]. split; [done|]. intros r. by apply IH.
Qed.


Lemma wp_try_except {A : Type} (p : prog A) (h : exn -> prog A) s Q :
  wp upd inv p s
     (fun r s' => match r with
                  | Ok a => Q (Ok a) s'
                  | Raised e => wp upd inv (h e) s' Q
                  end) ->
  wp upd inv (try_except p h) s Q.
Proof.
  revert s. induction p as [a|e|o k IH]; simpl; intros s.
  - done.
  - by intros [_ H].
  - intros [Hi H]. split; [done|]. intros r. by apply IH.
Qed.



Lemma wp_call {A : Type} (o : op) (cast : resp o -> result A) s Q :
  inv s ->
  (∀ r, inv (upd s (Ev o r)) ∧ Q (cast r) (upd s (Ev o r))) ->
  wp upd inv (call o cast) s Q.
Proof.
  intros Hi H. split; [done|]. intros r. destruct (H r) as [Hi' HQ].
  by destruct (cast r).
Qed.

Lemma wp_ask (o : op) s Q :
  inv s ->
  (∀ r, inv (upd s (Ev o r)) ∧ Q (Ok r) (upd s (Ev o r))) ->
  wp upd inv (ask o) s Q.
Proof. intros Hi H. split; [done|]. intros r. by destruct (H r). Qed.

Lemma wp_ret {A : Type} (a : A) s (Q : result A -> S -> Prop) :
  inv s -> Q (Ok a) s -> wp upd inv (mret a) s Q.
Proof. by split. Qed.

Lemma wp_throw {A : Type} (e : exn) s (Q : result A -> S -> Prop) :
  inv s -> Q (Raised e) s -> wp upd inv (Throw e) s Q.
Proof. by split. Qed.

(** A loop, with an invariant on what is left of the list, the variables
    of the loop and the state. *)
Lemma wp_for_each {X St : Type} (I : list X -> St -> S -> Prop)
    (l : list X) (body : X -> St -> prog St) st s Q :
  I l st s ->
  (∀ l' st s, I l' st s -> inv s) ->
  (∀ x l' st s, I (x :: l') st s ->
     wp upd inv (body x st) s
        (fun r s' => match r with
                     | Ok st' => I l' st' s'
                     | Raised e => Q (Raised e) s'
                     end)) ->
  (∀ st s, I [] st s -> Q (Ok st) s) ->
  wp upd inv (for_each l body st) s Q.
Proof.
  intros HI Hinv Hbody Hend. revert st s HI.
  induction l as [|x l IH]; intros st s HI.
  - split; [by eapply Hinv|]. by apply Hend.
  - cbn [for_each]. apply wp_bind. eapply wp_mono; [|by apply Hbody].
    intros [st'|e] s' Hi H; [|done]. by apply IH.
Qed.

(** What [wp] says of a run. *)
Lemma wp_runs {A : Type} (p : prog A) s Q tr res :
  wp upd inv p s Q -> runs p tr res -> Q res (foldl upd s tr).
Proof.
  revert s tr. induction p as [a|e|o k IH]; simpl; intros s tr.
  - by intros [_ H] [-> ->].
  - by intros [_ H] [-> ->].
  - intros [_ H] (r & tr' & -> & Hr). simpl. by eapply IH.
Qed.

Lemma wp_runs_inv {A : Type} (p : prog A) s Q tr res tr1 tr2 :
  wp upd inv p s Q -> runs p tr res -> tr = tr1 ++ tr2 ->
  inv (foldl upd s tr1).
Proof.
  revert s tr tr1. induction p as [a|e|o k IH]; simpl; intros s tr tr1.
  - intros [Hi _] [-> _] Htr. symmetry in Htr.
    apply app_eq_nil in Htr as [-> _]. done.
  - intros [Hi _] [-> _] Htr. symmetry in Htr.
    apply app_eq_nil in Htr as [-> _]. done.
  - intros [Hi H] (r & tr' & -> & Hr) Htr.
    destruct tr1 as [|ev tr1]; [done|].
    injection Htr as <- ->. simpl. by eapply IH.
Qed.

(** A program that makes none of the calls that move the state. *)
Lemma wp_avoids {A : Type} (f : op -> bool) (p : prog A) s Q :
  (∀ o r, f o = false -> upd s (Ev o r) = s) ->
  avoids f p -> inv s -> (∀ r, Q r s) -> wp upd inv p s Q.
Proof.
  intros Hupd Ha Hi HQ. induction p as [a|e|o k IH]; simpl.
  - by split.
  - by split.
  - destruct Ha as [Ho Hk]. split; [done|]. intros r.
    rewrite Hupd by done. by apply IH.
Qed.

End Logic.

(** * What the batch connector returns *)

Lemma fails_by_page_call_bind {A B : Type} (p : prog A) (f : A -> prog B)
    (P : A -> Prop) (Q : B -> Prop) :
  fails_by_page_call p P -> (∀ a, P a -> fails_by_page_call (f a) Q) ->
  fails_by_page_call (p ≫= f) Q.
Proof.
  intros Hp Hf s. apply wp_bind. eapply wp_mono; [|apply Hp].
  intros [a|e] s' _ H; [by apply Hf|done].
Qed.

Lemma fails_by_page_call_mono {A : Type} (p : prog A) (P Q : A -> Prop) :
  (∀ a, P a -> Q a) -> fails_by_page_call p P -> fails_by_page_call p Q.
Proof.
  intros HPQ Hp s. eapply wp_mono; [|apply Hp].
  intros [a|e] s' _ H; [by apply HPQ|done].
Qed.

Lemma fails_by_page_call_ret {A : Type} (a : A) (P : A -> Prop) :
  P a -> fails_by_page_call (mret a) P.
Proof. intros H s. by split. Qed.

Lemma fails_by_page_call_quiet (o : op) :
  is_page_call o = false -> fails_by_page_call (ask o) (fun _ => True).
Proof. intros Ho s. by apply wp_ask. Qed.

Lemma fails_by_page_call_url (page : Page) :
  fails_by_page_call (page_url page) (fun _ => True).
Proof. intros s. by apply wp_ask. Qed.

Lemma fails_by_page_call_call {A : Type} (o : op) (r0 : resp o -> result A) :
  is_page_call o = true ->
  (∀ r e, r0 r = Raised e -> event_exn (Ev o r) = Some e) ->
  fails_by_page_call (call o r0) (fun _ => True).
Proof.
  intros Ho Hr s. apply wp_call; [done|]. intros r. split; [done|].
  destruct (r0 r) as [a|e] eqn:E; [done|].
  unfold page_failure. cbn [ev_op]. rewrite Ho. by apply Hr.
Qed.

Lemma returns_of_fails {A : Type} (p : prog A) (P : A -> Prop) :
  fails_by_page_call p P -> returns p P.
Proof.
  intros Hp s. eapply wp_mono; [|apply Hp]. by intros [a|e] s' _ H.
Qed.

Lemma returns_bind {A B : Type} (p : prog A) (f : A -> prog B)
    (P : A -> Prop) (Q : B -> Prop) :
  returns p P -> (∀ a, P a -> returns (f a) Q) -> returns (p ≫= f) Q.
Proof.
  intros Hp Hf s. apply wp_bind. eapply wp_mono; [|apply Hp].
  intros [a|e] s' _ H; [by apply Hf|done].
Qed.

Lemma returns_throw {A : Type} (e : exn) (P : A -> Prop) : returns (Throw e) P.
Proof. intros s. by split. Qed.

Lemma fails_by_page_call_try_except {A : Type} (p : prog A)
    (h : exn -> prog A) (P : A -> Prop) :
  returns p P -> (∀ e, fails_by_page_call (h e) P) ->
  fails_by_page_call (try_except p h) P.
Proof.
  intros Hp Hh s. apply wp_try_except. eapply wp_mono; [|apply Hp].
  intros [a|e] s' _ H; [done|]. apply Hh.
Qed.

Lemma fails_by_page_call_for_each {X St : Type} (I : list X -> St -> Prop)
    (l : list X) (body : X -> St -> prog St) (st : St) :
  I l st ->
  (∀ x l' st, I (x :: l') st -> fails_by_page_call (body x st) (I l')) ->
  fails_by_page_call (for_each l body st) (I []).
Proof.
  intros HI Hbody s.
  apply (wp_for_each _ _ (fun l' st' _ => I l' st')); [done|done| |done].
  intros x l' st' s' HI'. eapply wp_mono; [|by apply Hbody].
  by intros [a|e] s'' _ H.
Qed.

(** What a run of such a program looks like when it raises. *)
Lemma fails_by_page_call_runs {A : Type} (p : prog A) (P : A -> Prop) tr res :
  fails_by_page_call p P -> runs p tr res ->
  match res with
  | Ok a => P a
  | Raised e =>
      ∃ tr' ev, tr = tr' ++ [ev] ∧ is_page_call (ev_op ev) = true
                ∧ event_exn ev = Some e
  end.
Proof.
  intros Hp Hr. pose proof (wp_runs _ _ _ _ _ _ _ (Hp None) Hr) as H.
  destruct res as [a|e]; [done|].
  destruct tr as [|ev tr _] using rev_ind; [done|].
  rewrite foldl_app in H. simpl in H. unfold page_failure in H.
  exists tr, ev. split; [done|].
  destruct (is_page_call (ev_op ev)); [done|discriminate].
Qed.

Lemma fails_print (line : string) :
  fails_by_page_call (print line) (fun _ => True).
Proof. by apply fails_by_page_call_quiet. Qed.

Lemma fails_now (fmt : string) : fails_by_page_call (now fmt) (fun _ => True).
Proof. by apply fails_by_page_call_quiet. Qed.

Lemma fails_sleep (n : nat) : fails_by_page_call (sleep n) (fun _ => True).
Proof. by apply fails_by_page_call_quiet. Qed.

Lemma fails_goto (page : Page) (url : string) (timeout : Z) :
  fails_by_page_call (goto page url timeout) (fun _ => True).
Proof. apply fails_by_page_call_call; [done|]. by intros [|] ? [= ->]. Qed.

Lemma fails_act (page : Page) (action : string) :
  fails_by_page_call (act page action) (fun _ => True).
Proof. apply fails_by_page_call_call; [done|]. by intros [|] ? [= ->]. Qed.

Lemma fails_act_observed (page : Page) (element : string) :
  fails_by_page_call (act_observed page element) (fun _ => True).
Proof. apply fails_by_page_call_call; [done|]. by intros [|] ? [= ->]. Qed.

Lemma fails_wait_for_load_state (page : Page) (timeout : Z) :
  fails_by_page_call (wait_for_load_state page timeout) (fun _ => True).
Proof. apply fails_by_page_call_call; [done|]. by intros [|] ? [= ->]. Qed.

Lemma fails_extract (page : Page) (i : instruction) (sch : schema) :
  fails_by_page_call (extract page i sch) (fun _ => True).
Proof. apply fails_by_page_call_call; [done|]. by intros [|] ? [= ->]. Qed.

Lemma fails_observe (page : Page) (query : string) :
  fails_by_page_call (observe page query) (fun _ => True).
Proof. apply fails_by_page_call_call; [done|]. by intros [|] ? [= ->]. Qed.

Lemma fails_by_page_call_bind_quiet {A B : Type} (p : prog A)
    (f : A -> prog B) (Q : B -> Prop) :
  fails_by_page_call p (fun _ => True) ->
  (∀ a, fails_by_page_call (f a) Q) ->
  fails_by_page_call (p ≫= f) Q.
Proof. intros Hp Hf. eapply fails_by_page_call_bind; [exact Hp|]. auto. Qed.

Lemma spec_getitem {V : Type} (d : gmap string V) (k : string) (v : V) :
  d !! k = Some v -> fails_by_page_call (getitem d k) (fun x => x = v).
Proof. intros H. unfold getitem. rewrite H. by apply fails_by_page_call_ret. Qed.

Ltac fpc_prim :=
  first
    [ apply fails_print | apply fails_now | apply fails_sleep
    | apply fails_by_page_call_url | apply fails_goto | apply fails_act
    | apply fails_act_observed | apply fails_wait_for_load_state
    | apply fails_extract | apply fails_observe ].

Ltac fpc_step :=
  match goal with
  | |- fails_by_page_call (getitem _ _ ≫= _) _ =>
      eapply fails_by_page_call_bind;
      [eapply spec_getitem; first [eassumption|apply lookup_insert_eq]
      |intros ? ->]
  | |- fails_by_page_call (_ ≫= _) _ =>
      apply fails_by_page_call_bind_quiet; [fpc_prim|intros ?]
  | |- fails_by_page_call (mret _) _ => apply fails_by_page_call_ret
  | |- fails_by_page_call (Ret _) _ => apply fails_by_page_call_ret
  | |- fails_by_page_call (match ?l with [] => _ | _ :: _ => _ end) _ =>
      destruct l eqn:?
  | |- fails_by_page_call (if ?b then _ else _) _ => destruct b eqn:?
  | |- fails_by_page_call _ _ =>
      first [fpc_prim
            | apply (fails_by_page_call_mono _ (fun _ => True));
              [intros ? _|fpc_prim]]
  end.

Ltac fpc := repeat fpc_step.

Lemma returns_any {A : Type} (p : prog A) : returns p (fun _ => True).
Proof.
  intros s. revert s. induction p as [a|e|o k IH]; intros s; simpl; [done..|].
  split; [done|]. intros r. apply IH.
Qed.

Lemma fails_caught {A : Type} (p : prog A) (h : exn -> prog A) :
  (∀ e, fails_by_page_call (h e) (fun _ => True)) ->
  fails_by_page_call (try_except p h) (fun _ => True).
Proof.
  intros Hh. apply fails_by_page_call_try_except; [apply returns_any|done].
Qed.

Lemma spec_extract_morning (page : Page) (d t : string)
    (td : gmap string ticker_entry) (en : ticker_entry) :
  td !! t = Some en ->
  fails_by_page_call (extract_morning page d t td)
    (fun td' => ∃ en', td' = <[t := en']> td
                       ∧ te_dates en' = te_dates en ++ [d]).
Proof.
  intros Hen. unfold extract_morning. fpc.
  eexists. rewrite insert_insert_eq. done.
Qed.

Lemma spec_extract_market_close (page : Page) (d t : string)
    (td : gmap string ticker_entry) (en : ticker_entry) :
  td !! t = Some en ->
  fails_by_page_call (extract_market_close page d t td)
    (fun td' => ∃ en', td' = <[t := en']> td
                       ∧ te_dates en' = te_dates en ++ [d]).
Proof.
  intros Hen. unfold extract_market_close. fpc.
  eexists. rewrite insert_insert_eq. done.
Qed.

(** A loop that adds the date [d] to the entry of each ticker. *)
Lemma spec_dates_loop
    (body : string -> gmap string ticker_entry -> prog (gmap string ticker_entry))
    (d : string) (base : list string) (tickers : list string)
    (td : gmap string ticker_entry) :
  (∀ t td en, td !! t = Some en ->
     fails_by_page_call (body t td)
       (fun td' => ∃ en', td' = <[t := en']> td
                          ∧ te_dates en' = te_dates en ++ [d])) ->
  (∀ t, t ∈ tickers ->
        ∃ en, td !! t = Some en ∧ (NoDup tickers -> te_dates en = base)) ->
  fails_by_page_call (for_each tickers body td)
    (fun td' =>
       ∀ t, t ∈ tickers ->
            ∃ en, td' !! t = Some en
                  ∧ (NoDup tickers -> te_dates en = base ++ [d])).
Proof.
  intros Hbody Htd.
  eapply fails_by_page_call_mono;
    [|apply (fails_by_page_call_for_each
               (fun l' td' =>
                  ∃ seen, tickers = seen ++ l'
                    ∧ ∀ t, t ∈ tickers ->
                        ∃ en, td' !! t = Some en
                              ∧ (NoDup tickers ->
                                 te_dates en
                                 = if bool_decide (t ∈ seen)
                                   then base ++ [d] else base)))].
  - intros td' (seen & Hs & H) t Ht. rewrite app_nil_r in Hs. subst seen.
    destruct (H t Ht) as (en & Hen & Hd). exists en. split; [done|].
    intros Hnd. rewrite (Hd Hnd). by rewrite bool_decide_eq_true_2.
  - exists []. split; [done|]. intros t Ht.
    destruct (Htd t Ht) as (en & Hen & Hd). exists en. split; [done|].
    intros Hnd. rewrite bool_decide_eq_false_2; [auto|]. apply not_elem_of_nil.
  - intros x l' td' (seen & Hs & H).
    assert (x ∈ tickers) as Hx.
    { rewrite Hs. apply elem_of_app. right. apply elem_of_cons. by left. }
    destruct (H x Hx) as (en & Hen & Hd).
    eapply fails_by_page_call_mono; [|by apply Hbody].
    intros td'' (en' & -> & Hd'). exists (seen ++ [x]).
    split; [by rewrite <- app_assoc|]. intros t Ht.
    destruct (decide (t = x)) as [->|Hne].
    + exists en'. rewrite lookup_insert_eq. split; [done|]. intros Hnd.
      rewrite Hd', (Hd Hnd).
      rewrite Hs in Hnd. apply NoDup_app in Hnd as (_ & Hnd & _).
      rewrite bool_decide_eq_false_2.
      2: { intros Hin. apply (Hnd x Hin). apply elem_of_cons. by left. }
      rewrite bool_decide_eq_true_2; [done|].
      apply elem_of_app. right. apply elem_of_cons. by left.
    + destruct (H t Ht) as (en0 & Hen0 & Hd0). exists en0.
      rewrite lookup_insert_ne by done. split; [done|]. intros Hnd.
      rewrite (Hd0 Hnd).
      rewrite (bool_decide_ext (t ∈ seen ++ [x]) (t ∈ seen)); [done|].
      rewrite elem_of_app, list_elem_of_singleton.
      split; [intros [?|?]; [done|congruence]|auto].
Qed.

Lemma spec_process_bullets (page : Page) (td : gmap string ticker_entry)
    (t : string) (en : ticker_entry) (results : list VitalKnowledgeReport) :
  td !! t = Some en ->
  fails_by_page_call (process_bullets page td t results)
    (fun res => ∃ r, res = results ++ [r] ∧ report_of_entry t en r).
Proof.
  intros Hen. unfold process_bullets. fpc.
  eapply (fails_by_page_call_bind _ _ (fun fb => length fb <= 5)).
  { fpc; [simpl; lia|].
    match goal with
    | c : option CombinedBullets |- _ =>
        destruct c; [rewrite length_take; lia|simpl; lia]
    end. }
  intros final_bullets Hlen.
  eapply (fails_by_page_call_bind _ _
            (fun sm => final_bullets = [] -> sm = None)).
  { fpc; [done|discriminate]. }
  intros summary Hsum. fpc.
  eexists. split; [done|]. unfold report_of_entry. cbn.
  unfold headlines_of.
  split_and!; [done|done| |  |by rewrite length_map].
  - intros Hh. apply Hsum. by destruct final_bullets.
  - apply Forall_forall. intros h Hh.
    apply list_elem_of_fmap in Hh as (b & -> & _). by split.
Qed.

Lemma spec_process_loop (page : Page) (td : gmap string ticker_entry)
    (tickers : list string) :
  (∀ t, t ∈ tickers -> is_Some (td !! t)) ->
  fails_by_page_call (for_each tickers (process_bullets page td) [])
    (fun reports =>
       Forall2 (fun t r => t ∈ tickers
                           ∧ ∃ en, td !! t = Some en ∧ report_of_entry t en r)
         tickers reports).
Proof.
  intros Htd.
  eapply fails_by_page_call_mono;
    [|apply (fails_by_page_call_for_each
               (fun l' reports =>
                  ∃ seen, tickers = seen ++ l'
                    ∧ Forall2 (fun t r =>
                                 t ∈ tickers
                                 ∧ ∃ en, td !! t = Some en
                                         ∧ report_of_entry t en r)
                        seen reports))].
  - intros reports (seen & Hs & H). rewrite app_nil_r in Hs. by subst seen.
  - exists []. split; [done|]. constructor.
  - intros x l' reports (seen & Hs & H).
    assert (x ∈ tickers) as Hx.
    { rewrite Hs. apply elem_of_app. right. apply elem_of_cons. by left. }
    destruct (Htd x Hx) as [en Hen].
    eapply fails_by_page_call_mono; [|by apply spec_process_bullets].
    intros res (r & -> & Hr). exists (seen ++ [x]).
    split; [by rewrite <- app_assoc|].
    apply Forall2_app; [done|]. constructor; [eauto|constructor].
Qed.

Lemma spec_open_market_close (page : Page) (query : string)
    (fallback : string -> string) :
  fails_by_page_call (open_market_close page query fallback) (fun _ => True).
Proof. unfold open_market_close. fpc. Qed.

Lemma spec_date_of_url (a b : string) :
  fails_by_page_call (date_of_url a b) (fun _ => True).
Proof. unfold date_of_url. apply fails_caught. intros _. fpc. Qed.

Lemma spec_batch_try (page : Page) (tickers : list string)
    (td : gmap string ticker_entry) :
  (∀ t, t ∈ tickers -> ∃ en, td !! t = Some en ∧ te_dates en = []) ->
  fails_by_page_call (batch_try page tickers td) (scraped tickers).
Proof.
  intros Htd. unfold batch_try. fpc.
  apply fails_by_page_call_bind_quiet;
    [apply fails_caught; intros _; fpc|intros morning_date].
  fpc.
  eapply fails_by_page_call_bind.
  { apply (spec_dates_loop _ morning_date []);
      [intros; by apply spec_extract_morning|].
    intros t Ht. destruct (Htd t Ht) as (en & Hen & Hd). eauto. }
  intros td1 Htd1. fpc.
  apply fails_by_page_call_bind_quiet;
    [apply spec_open_market_close|intros _].
  fpc.
  apply fails_by_page_call_bind_quiet.
  { fpc; [|done].
    apply fails_by_page_call_bind_quiet;
      [apply spec_open_market_close|intros _].
    fpc. }
  intros current_url.
  apply fails_by_page_call_bind_quiet;
    [apply spec_date_of_url|intros market_close_date].
  fpc.
  eapply fails_by_page_call_bind.
  { apply (spec_dates_loop _ market_close_date [morning_date]);
      [intros; by apply spec_extract_market_close|exact Htd1]. }
  intros td2 Htd2.
  eapply fails_by_page_call_mono; [|apply spec_process_loop].
  2: { intros t Ht. destruct (Htd2 t Ht) as (en & Hen & _). eauto. }
  intros reports Hr. exists morning_date, market_close_date.
  eapply Forall2_impl; [exact Hr|].
  intros t r (Hin & en & Hen & Ht & Hdates & Hsum & Hbare & Hlen).
  split_and!; [done| |done..].
  intros Hnd. rewrite Hdates. destruct (Htd2 t Hin) as (en' & Hen' & Hd).
  rewrite Hen in Hen'. injection Hen' as <-. by apply Hd.
Qed.

Lemma ticker_data_init_lookup (tickers : list string) (t : string) :
  t ∈ tickers ->
  ∃ en, ticker_data_init tickers !! t = Some en ∧ te_dates en = [].
Proof.
  unfold ticker_data_init.
  generalize (∅ : gmap string ticker_entry).
  induction tickers as [|x tickers IH] using rev_ind; intros d Ht.
  - by apply elem_of_nil in Ht.
  - rewrite foldl_app. simpl. destruct (decide (t = x)) as [->|Hne].
    + rewrite lookup_insert_eq. eauto.
    + rewrite lookup_insert_ne by done. apply IH.
      apply elem_of_app in Ht as [Ht|Ht]; [done|].
      by apply list_elem_of_singleton in Ht.
Qed.

(** A run of the batch connector that returns. *)
Lemma batch_returned_reports (page : Page) (tickers : list string) tr reports :
  runs (fetch_vital_knowledge_headlines_batch page tickers) tr (Ok reports) ->
  scraped tickers reports
  ∨ (reports = empty_reports tickers
     ∧ ∃ failed e,
         failed ∈ tr ∧ is_page_call (ev_op failed) = true
         ∧ event_exn failed = Some e
         ∧ ("[VitalKnowledge] Failed in batch scrape: " +:+ exn_msg e) ∈ log tr).
Proof.
  intros H. apply runs_fetch_batch in H.
  pose proof (spec_batch_try page tickers _ (ticker_data_init_lookup tickers))
    as Hs.
  inversion H as [|tr_l tr_b reports' Hl Hb|tr_l tr_b e Hl Hb]; subst.
  - left. by apply (fails_by_page_call_runs _ _ _ _ Hs) in Hb.
  - right. split; [done|].
    apply (fails_by_page_call_runs _ _ _ _ Hs) in Hb
      as (tr' & failed & -> & Hp & He).
    exists failed, e. split_and!; [|done|done|].
    + rewrite elem_of_cons, !elem_of_app, list_elem_of_singleton. auto.
    + change (?x :: ?l) with ([x] ++ l). rewrite !log_app.
      rewrite !elem_of_app. right. right. right. apply elem_of_cons. by left.
Qed.



(** X8. In every report the batch connector returns, the headlines
    carry neither context nor sentiment, and a report without headlines
    has no summary. *)
Theorem summary_only_with_headlines (page : Page) (tickers : list string)
    tr reports :
  runs (fetch_vital_knowledge_headlines_batch page tickers) tr (Ok reports) ->
  Forall (fun r => (vk_headlines r = [] -> vk_summary r = None)
                   ∧ Forall bare (vk_headlines r))
    reports.
Proof.
  intros H. apply batch_returned_reports in H as [(d1 & d2 & H)|[-> _]].
  - apply Forall_forall. intros r Hr.
    apply list_elem_of_lookup in Hr as [i Hi].
    by destruct (Forall2_lookup_r _ _ _ _ _ H Hi) as (t & _ & _ & _ & ? & ? & _).
  - apply Forall_forall. intros r Hr.
    apply list_elem_of_fmap in Hr as (t & -> & _). simpl. split; [done|].
    constructor.
Qed.

(** * What the macro connector returns *)





(** * The batch mapping, the snapshots and the report *)

Lemma by_ticker_snoc (reports : list VitalKnowledgeReport)
    (r : VitalKnowledgeReport) :
  by_ticker (reports ++ [r]) = <[vk_ticker r := r]> (by_ticker reports).
Proof. unfold by_ticker. by rewrite foldl_app. Qed.

Lemma NoDup_fmap_eq {A B : Type} (f : A -> B) (l : list A) (x y : A) :
  NoDup (map f l) -> x ∈ l -> y ∈ l -> f x = f y -> x = y.
Proof.
  induction l as [|z l IH]; simpl; intros Hnd Hx Hy Hf.
  { by apply elem_of_nil in Hx. }
  apply NoDup_cons in Hnd as [Hz Hnd].
  apply elem_of_cons in Hx as [->|Hx]; apply elem_of_cons in Hy as [->|Hy].
  - done.
  - exfalso. apply Hz. rewrite Hf. by apply list_elem_of_fmap_2.
  - exfalso. apply Hz. rewrite <- Hf. by apply list_elem_of_fmap_2.
  - by apply IH.
Qed.

(** X11. [{result.ticker: result for result in results}] keeps, for
    each ticker, the last report that bears it; when no two reports
    bear the same ticker, every report is found under its own. *)
Theorem last_report_of_a_ticker_wins (reports : list VitalKnowledgeReport) :
  (∀ k, by_ticker reports !! k
        = last (filter (fun r => vk_ticker r = k) reports))
  ∧ (NoDup (map vk_ticker reports) ->
     ∀ r, r ∈ reports -> by_ticker reports !! vk_ticker r = Some r).
Proof.
  split.
  - intros k. induction reports as [|r reports IH] using rev_ind; [done|].
    rewrite by_ticker_snoc, filter_app.
    destruct (decide (vk_ticker r = k)) as [<-|Hne].
    + rewrite lookup_insert_eq. rewrite filter_cons_True by done.
      rewrite filter_nil. by rewrite last_snoc.
    + rewrite lookup_insert_ne by done. rewrite filter_cons_False by done.
      rewrite filter_nil, app_nil_r. exact IH.
  - intros Hnd r Hr.
    assert (is_Some (by_ticker reports !! vk_ticker r)) as [r' Hr'].
    { apply by_ticker_keys. by apply list_elem_of_fmap_2. }
    rewrite Hr'. f_equal.
    apply by_ticker_lookup in Hr' as [Hin Hk].
    by apply (NoDup_fmap_eq vk_ticker reports).
Qed.

(** The keys of the mapping the batch task returns. *)
Lemma batch_mapping_keys (tickers : list string) tr mapping (k : string) :
  runs (_run_vital_knowledge_batch tickers) tr (Ok mapping) ->
  is_Some (mapping !! k) -> k ∈ map upper tickers.
Proof.
  intros H Hk.
  apply (runs_session_wrapper (batch_mapping tickers) id ∅) in H.
  assert (∀ page tr_b a, runs (batch_mapping tickers page) tr_b (Ok a) ->
            is_Some (a !! k) -> k ∈ map upper tickers) as Hbody.
  { intros page tr_b a Hb Ha. unfold batch_mapping in Hb.
    apply runs_bind in Hb as [(reports & tr1 & tr2 & Hf & [_ [= ->]] & _)
                             |(e & _ & ?)]; [|discriminate].
    apply by_ticker_keys in Ha.
    assert (one_per_ticker tickers reports) as (_ & <- & _); [|done].
    apply runs_fetch_batch in Hf.
    inversion Hf; subst; [by eapply runs_batch_try
                         |apply empty_reports_one_per_ticker]. }
  inversion H as [tr_s e Hc|tr_s sh page tr_b a tr_c Hc Hb Hcl
                 |tr_s sh page tr_b e tr_c Hc Hb Hcl]; subst.
  - by rewrite lookup_empty in Hk; destruct Hk.
  - by eapply Hbody.
  - by rewrite lookup_empty in Hk; destruct Hk.
Qed.

(** X10. The keys of the dict that [_run_vital_knowledge_batch]
    returns are tickers of the watchlist in upper case. The merge looks
    an item up under its ticker as the watchlist spells it: an item
    whose ticker is not the upper case of a ticker of the watchlist
    is left as it was. *)
Theorem batch_mapping_is_keyed_in_upper_case (tickers : list string)
    tr mapping :
  runs (_run_vital_knowledge_batch tickers) tr (Ok mapping) ->
  (∀ k, is_Some (mapping !! k) -> k ∈ map upper tickers)
  ∧ (∀ it, item_ticker it ∉ map upper tickers -> merged mapping it = it).
Proof.
  intros H. split.
  - intros k. by apply (batch_mapping_keys tickers tr).
  - intros it Hnot. unfold merged.
    destruct (mapping !! item_ticker it) as [r|] eqn:E; [|done].
    exfalso. apply Hnot. apply (batch_mapping_keys tickers tr mapping); [done|].
    by rewrite E.
Qed.

Lemma separate_avoids_writes fl n all_results :
  avoids is_write (separate fl n all_results).
Proof.
  unfold separate.
  avoids_tac ltac:(unfold as_item, as_macro, as_batch, index).
Qed.

Lemma merge_avoids_writes fl results batch :
  avoids is_write (merge_vital_knowledge fl results batch).
Proof.
  unfold merge_vital_knowledge.
  avoids_tac ltac:(unfold merge_item, print).
Qed.

Lemma typed_items_avoid_writes results :
  avoids is_write (typed_items_of results).
Proof.
  unfold typed_items_of.
  avoids_tac ltac:(unfold typed_item_of, optional_object, rebuild, print).
Qed.

Lemma fatal_writes_bind {A B : Type} (p : prog A) (f : A -> prog B) :
  fatal_writes p -> (∀ a, fatal_writes (f a)) -> fatal_writes (p ≫= f).
Proof.
  intros Hp Hf. apply wp_bind. eapply wp_mono; [|exact Hp].
  intros [a|e] [[x n]|] _ H; try (by simplify_eq). apply Hf.
Qed.

Lemma fatal_writes_avoids {A : Type} (p : prog A) :
  avoids is_write p -> fatal_writes p.
Proof.
  intros H. apply (wp_avoids _ _ is_write); [|done|done|done].
  intros o r Ho. simpl. by rewrite Ho.
Qed.

Lemma fatal_writes_write (path : string) (content : artifact) :
  fatal_writes (write_text path content).
Proof. apply wp_call; [done|]. by intros [[]|e]. Qed.

Ltac fatal_step :=
  match goal with
  | |- fatal_writes (write_text _ _) => apply fatal_writes_write
  | |- fatal_writes (_ ≫= _) => apply fatal_writes_bind; [|intros]
  | |- fatal_writes (if ?b then _ else _) => destruct b
  | |- fatal_writes (match ?x with _ => _ end) => destruct x
  | |- fatal_writes (let '(_, _) := ?x in _) => destruct x
  | |- fatal_writes _ =>
      apply fatal_writes_avoids;
      solve [ apply separate_avoids_writes | apply merge_avoids_writes
            | apply typed_items_avoid_writes
            | avoids_tac ltac:(unfold print, rebuild) ]
  end.

Lemma main_after_gather_fatal_writes fl watchlist today all_results :
  fatal_writes (main_after_gather fl watchlist today all_results).
Proof.
  unfold main_after_gather, write_snapshots, write_report.
  repeat fatal_step.
Qed.

(** X13. In the steps after the join, a [write_text] that raises is
    the last call of the run, and the run raises its exception: no
    later snapshot and no report is written. *)
Theorem failed_write_ends_main (fl : flags) (watchlist : list string)
    (today : string) (all_results : list task_value) tr res
    tr1 failed tr2 e :
  runs (main_after_gather fl watchlist today all_results) tr res ->
  tr = tr1 ++ failed :: tr2 ->
  is_write (ev_op failed) = true -> event_exn failed = Some e ->
  tr2 = [] ∧ res = Raised e.
Proof.
  intros Hr -> Hw He.
  pose proof (main_after_gather_fatal_writes fl watchlist today all_results)
    as Hwp.
  assert (foldl after_failed_write None (tr1 ++ [failed]) = Some (e, 0)) as Hs.
  { rewrite foldl_app. simpl.
    destruct (foldl after_failed_write None tr1) as [[x n]|] eqn:E.
    - exfalso.
      pose proof (wp_runs_inv _ _ _ _ _ _ _ (tr1 ++ [failed]) tr2 Hwp Hr) as Hi.
      rewrite <- app_assoc in Hi. specialize (Hi eq_refl).
      rewrite foldl_app, E in Hi. simpl in Hi. done.
    - simpl. by rewrite Hw, He. }
  assert (tr2 = []) as ->.
  { destruct tr2 as [|next tr2]; [done|]. exfalso.
    pose proof (wp_runs_inv _ _ _ _ _ _ _ (tr1 ++ [failed; next]) tr2 Hwp Hr)
      as Hi.
    rewrite <- app_assoc in Hi. specialize (Hi eq_refl).
    change (tr1 ++ [failed; next]) with (tr1 ++ [failed] ++ [next]) in Hi.
    rewrite app_assoc, foldl_app, Hs in Hi. simpl in Hi. done. }
  split; [done|].
  pose proof (wp_runs _ _ _ _ _ _ _ Hwp Hr) as HQ. by rewrite Hs in HQ.
Qed.

Lemma runs_mapM_as_item (values : list task_value) tr results :
  runs (mapM as_item values) tr (Ok results) ->
  tr = [] ∧ values = map TickerValue results.
Proof.
  revert tr results. induction values as [|v values IH]; intros tr results.
  - intros [-> Hr]. injection Hr as ->. done.
  - cbn [mapM]. intros H.
    apply runs_bind in H as [(it & tr1 & tr2 & Hv & H & ->)|(e & _ & ?)];
      [|discriminate].
    apply runs_bind in H as [(its & tr3 & tr4 & Hvs & [-> Hr] & ->)
                            |(e & _ & ?)]; [|discriminate].
    injection Hr as ->. apply IH in Hvs as [-> ->].
    destruct v as [it'| |]; destruct Hv as [-> Hv]; [|discriminate..].
    injection Hv as ->. done.
Qed.

Lemma runs_separate_items (fl : flags) (n : nat) (all_results : list task_value)
    tr results macro batch :
  runs (separate fl n all_results) tr (Ok (results, macro, batch)) ->
  tr = [] ∧ map TickerValue results = take n all_results.
Proof.
  unfold separate. intros H.
  apply runs_bind in H as [(its & tr1 & tr2 & Hi & H & ->)|(e & _ & ?)];
    [|discriminate].
  apply runs_mapM_as_item in Hi as [-> Hi].
  apply runs_bind in H as [([m b] & tr3 & tr4 & Hmb & [-> Hr] & ->)
                          |(e & _ & ?)]; [|discriminate].
  injection Hr as -> -> ->.
  split; [|done]. rewrite app_nil_r. simpl.
  assert (avoids (fun _ => true)
            (if use_macro_news fl
             then macro_news_result ← index all_results n ≫= as_macro;
                  (if use_vital_knowledge fl
                   then batch ← index all_results (n + 1) ≫= as_batch;
                        mret (macro_news_result, Some batch)
                   else mret (macro_news_result, None))
             else if use_vital_knowledge fl
                  then batch ← index all_results n ≫= as_batch;
                       mret (None, Some batch)
                  else mret (None, None))) as Ha.
  { avoids_tac ltac:(unfold index, as_macro, as_batch). }
  apply (avoids_runs _ _ _ _ Ha) in Hmb. by destruct Hmb.
Qed.

Lemma runs_write_text (path : string) (content : artifact) tr res :
  runs (write_text path content) tr res ↔
    ∃ r, tr = [Ev (WriteText path content) r] ∧ res = r.
Proof. unfold write_text. by rewrite runs_call. Qed.

(** The first write of [write_snapshots]. *)
Lemma runs_write_snapshots_first (fl : flags) (today : string)
    (results : list item) (macro : option MacroNewsSummary) tr :
  runs (write_snapshots fl today results macro) tr (Ok tt) ->
  WriteText ("data/snapshots/yahoo_snapshot_" +:+ today +:+ ".json")
    (YahooSnapshot today
       (map (fun it => (item_ticker it, item_error it, item_quote it,
                        item_analysis it)) results))
  ∈ calls tr
  ∧ ∀ path md, WriteText path (Markdown md) ∉ calls tr.
Proof.
  unfold write_snapshots. intros H.
  assert (avoids (fun o => match o with
                           | WriteText _ (Markdown _) => true
                           | _ => false
                           end)
            (write_snapshots fl today results macro)) as Ha.
  { unfold write_snapshots. avoids_tac ltac:(unfold write_text, print). }
  split.
  - apply runs_bind in H as [([] & tr1 & tr2 & Hw & _ & ->)|(e & _ & ?)];
      [|discriminate].
    apply runs_write_text in Hw as (r & -> & _).
    apply elem_of_cons. by left.
  - intros path md Hin.
    by apply (avoids_calls _ _ _ _ _ Ha H) in Hin.
Qed.

Lemma merged_quote (d : gmap string VitalKnowledgeReport) (it : item) :
  item_quote (merged d it) = item_quote it.
Proof. unfold merged. by destruct (d !! item_ticker it). Qed.

Lemma report_entries_nil (results : list item) :
  report_entries results = [] ↔ Forall (fun it => item_quote it = None) results.
Proof.
  induction results as [|it results IH].
  - split; [constructor|done].
  - rewrite report_entries_cons, Forall_cons. destruct (item_quote it); simpl.
    + split; [done|]. by intros [? _].
    + rewrite IH. split; [by split|by intros [_ ?]].
Qed.

(** X12. In a run of the steps after the join that returns, the Yahoo
    snapshot is written with one row per ticker task, in the order of
    the tasks, with the ticker and the quote of each, quoteless ones
    included. When no item has a quote, no Markdown file is written and
    the warning is printed; when one has, the report of the day is
    written. *)
Theorem snapshots_keep_what_the_report_drops (fl : flags)
    (watchlist : list string) (today : string)
    (all_results : list task_value) tr :
  runs (main_after_gather fl watchlist today all_results) tr (Ok tt) ->
  ∃ results rows,
    map TickerValue results = take (length watchlist) all_results
    ∧ WriteText ("data/snapshots/yahoo_snapshot_" +:+ today +:+ ".json")
        (YahooSnapshot today rows) ∈ calls tr
    ∧ map (fun row => row.1.1.1) rows = map item_ticker results
    ∧ map (fun row => row.1.2) rows = map item_quote results
    ∧ (Forall (fun it => item_quote it = None) results ->
       (∀ path md, WriteText path (Markdown md) ∉ calls tr)
       ∧ "[WARN] No successful tickers to include in report." ∈ log tr)
    ∧ (Exists (fun it => is_Some (item_quote it)) results ->
       ∃ md, WriteText ("data/reports/morning_snapshot_" +:+ today +:+ ".md")
               (Markdown md) ∈ calls tr).
Proof.
  unfold main_after_gather. intros H.
  apply runs_bind in H as [([[results macro] batch] & tr1 & tr2 & Hs & H & ->)
                          |(e & _ & ?)]; [|discriminate].
  apply runs_separate_items in Hs as [-> Hs].
  unfold ticker_tasks in Hs. rewrite length_map in Hs.
  apply runs_bind in H as [(results' & tr3 & tr4 & Hm & H & ->)|(e & _ & ?)];
    [|discriminate].
  assert (map item_ticker results' = map item_ticker results
          ∧ map item_quote results' = map item_quote results
          ∧ ∀ o, o ∈ calls tr3 -> is_write o = false) as (Ht & Hq & Hcalls).
  { split_and!.
    - apply runs_merge_vital_knowledge in Hm.
      destruct (use_vital_knowledge fl && truthy_dict batch).
      + destruct Hm as (d & -> & -> & Hr). injection Hr as ->.
        rewrite <- list_fmap_compose. apply list_fmap_ext.
        intros i it _. apply merged_ticker.
      + destruct Hm as [_ Hr]. by injection Hr as ->.
    - apply runs_merge_vital_knowledge in Hm.
      destruct (use_vital_knowledge fl && truthy_dict batch).
      + destruct Hm as (d & -> & -> & Hr). injection Hr as ->.
        rewrite <- list_fmap_compose. apply list_fmap_ext.
        intros i it _. apply merged_quote.
      + destruct Hm as [_ Hr]. by injection Hr as ->.
    - intros o. apply (avoids_calls is_write _ _ _ _
                         (merge_avoids_writes fl results batch) Hm). }
  apply runs_bind in H as [([] & tr5 & tr6 & Hw & Hrep & ->)|(e & _ & ?)];
    [|discriminate].
  apply runs_write_snapshots_first in Hw as [Hy Hmd].
  exists results, (map (fun it => (item_ticker it, item_error it, item_quote it,
                                   item_analysis it)) results').
  split; [done|]. split.
  { unfold calls. rewrite !fmap_app, !elem_of_app. auto. }
  split; [by rewrite <- list_fmap_compose|].
  split; [by rewrite <- list_fmap_compose|].
  unfold write_report in Hrep.
  apply runs_bind in Hrep as [(typed_items & tr7 & tr8 & Hti & Hrep & ->)
                             |(e & _ & ?)]; [|discriminate].
  apply runs_typed_items_of in Hti as [-> Hti]. injection Hti as ->.
  assert (Forall (fun it => item_quote it = None) results
          ↔ report_entries results' = []) as Hnone.
  { rewrite report_entries_nil.
    rewrite <- (Forall_fmap item_quote (fun q => q = None) results).
    rewrite <- (Forall_fmap item_quote (fun q => q = None) results').
    change (item_quote <$> results') with (map item_quote results').
    change (item_quote <$> results) with (map item_quote results).
    by rewrite Hq. }
  split.
  - intros Hall. apply Hnone in Hall. rewrite Hall in Hrep.
    apply runs_print in Hrep as [-> _]. split.
    + intros path md Hin. unfold calls in Hin.
      rewrite !fmap_app, !elem_of_app in Hin.
      destruct Hin as [Hin|[Hin|[Hin|[Hin|Hin]]]].
      * by apply elem_of_nil in Hin.
      * by apply Hcalls in Hin.
      * by apply Hmd in Hin.
      * apply calls_prints in Hin as [? ?]. discriminate.
      * apply list_elem_of_singleton in Hin. discriminate.
    + rewrite !log_app, !elem_of_app. right. right. right. right.
      apply elem_of_cons. by left.
  - intros Hex.
    destruct (report_entries results') as [|entry entries] eqn:E.
    { exfalso. assert (Forall (fun it => item_quote it = None) results) as E'
        by (by apply Hnone).
      clear E. rename E' into E. rewrite Forall_forall in E.
      apply Exists_exists in Hex as (it & Hin & [q Hq']).
      rewrite (E it Hin) in Hq'. discriminate. }
    apply runs_bind in Hrep as [(obj & tr9 & tr10 & _ & Hrep & ->)|(e & _ & ?)];
      [|discriminate].
    apply runs_bind in Hrep as [(md & tr11 & tr12 & _ & Hrep & ->)|(e & _ & ?)];
      [|discriminate].
    apply runs_bind in Hrep as [([] & tr13 & tr14 & Hwr & _ & ->)|(e & _ & ?)];
      [|discriminate].
    apply runs_write_text in Hwr as (r & -> & _).
    exists md. unfold calls. rewrite !fmap_app, !elem_of_app.
    right. right. right. right. right. right. left.
    apply elem_of_cons. by left.
Qed.

(** A check of [credentials_missing] on a given trace. *)
Lemma credentials_missing_check (tr : list event) :
  forallb (fun e => match getenv_answer e with
                    | Some (name, a) =>
                        negb (String.eqb name "Vital_login")
                        || negb (truthy_str a)
                    | None => true
                    end) tr = true ->
  credentials_missing tr.
Proof.
  intros H. left. intros username Hin.
  induction tr as [|e tr IH]; [by apply elem_of_nil in Hin|].
  simpl in H. apply andb_true_iff in H as [He H].
  apply elem_of_cons in Hin as [<-|Hin]; [|by apply IH].
  simpl in He. by destruct (truthy_str username).
Qed.

(** * The join goes on, and the sessions it holds *)

(** Every call has an answer. *)
Lemma resp_inhabited (o : op) : inhabited (resp o).
Proof.
  destruct o; constructor; simpl;
    first [exact tt | exact None | exact EmptyString
          | exact (Raised (Exn "" ""))].
Qed.

(** A task inside the gate can move. *)
Lemma holding_can_step {P : task_value -> Prop} (st : loop_state) (i : nat)
    (p : prog task_value) :
  tasks st !! i = Some p -> holding P p -> ∃ st', step st st'.
Proof.
  intros Hi Hh. destruct p as [v|e|o k]; [done..|].
  destruct (is_gate o) eqn:Ho.
  - destruct o; try discriminate; [done|]. eexists. by eapply step_release.
  - destruct (resp_inhabited o) as [r]. eexists. by eapply (step_call _ _ _ _ r).
Qed.

Lemma gate_free_can_step {P : task_value -> Prop} (st : loop_state) (i : nat)
    (o : op) (k : resp o -> prog task_value) :
  tasks st !! i = Some (Op o k) -> gate_free P (Op o k) -> ∃ st', step st st'.
Proof.
  intros Hi Hg. apply gate_free_not_gate in Hg.
  destruct (resp_inhabited o) as [r]. eexists. by eapply (step_call _ _ _ _ r).
Qed.

(** While [gather] has nothing to return, a task is at a call. *)
Lemma gather_None_unfinished (fl : flags) (watchlist : list string)
    (max_concurrent : Z) (st : loop_state) :
  sound fl watchlist max_concurrent st -> gather st = None ->
  ∃ i o k, tasks st !! i = Some (Op o k).
Proof.
  intros Hs Hg. unfold gather in Hg.
  destruct (omap raised (tasks st)) eqn:Hr; [|done].
  apply fmap_None in Hg.
  assert (¬ Forall (fun p => is_Some (returned p)) (tasks st)) as Hn.
  { intros Hall. apply mapM_is_Some in Hall as [? ?]. congruence. }
  apply not_Forall_Exists in Hn; [|apply _].
  apply Exists_exists in Hn as (p & Hin & Hp).
  apply list_elem_of_lookup in Hin as [i Hi].
  assert (i < length (all_posts fl watchlist)) as Hlt.
  { rewrite <- (sound_length _ _ _ _ Hs). by eapply lookup_lt_Some. }
  apply lookup_lt_is_Some in Hlt as [P HP].
  pose proof (sound_finished _ _ _ _ _ _ _ Hs Hi HP) as Hf.
  destruct p as [v|e|o k]; [|done|by eauto].
  exfalso. apply Hp. by eexists.
Qed.

(** X14. Whatever [MAX_CONCURRENT_BROWSERS] holds, the ceiling that
    [_get_max_concurrent_browsers] returns lets the join go on: in every
    state the tasks can reach under it, as long as [gather] has nothing
    to return, some task can make its next call. The tasks never all
    wait at the gate. *)
Theorem join_never_blocks (fl : flags) (watchlist : list string) tr res :
  runs _get_max_concurrent_browsers tr res ->
  ∃ max_concurrent,
    res = Ok max_concurrent
    ∧ ∀ st, reachable max_concurrent (all_tasks fl watchlist) st ->
            gather st = None -> ∃ st', step st st'.
Proof.
  intros H. apply runs_get_max_concurrent_browsers in H
    as (raw & c & _ & -> & Hc & _).
  exists c. split; [done|]. intros st Hreach Hg.
  pose proof (reachable_sound _ _ _ _ Hreach) as Hs.
  assert (0 <= sem_value st)%Z as Hsem
    by (eapply reachable_counter; [|exact Hreach]; lia).
  destruct (gather_None_unfinished _ _ _ _ Hs Hg) as (i & o & k & Hi).
  assert (i < length (all_posts fl watchlist)) as Hlt.
  { rewrite <- (sound_length _ _ _ _ Hs). by eapply lookup_lt_Some. }
  apply lookup_lt_is_Some in Hlt as [P HP].
  pose proof (sound_tasks _ _ _ _ Hs i _ P Hi HP) as Hphase.
  destruct (decide (i < length watchlist)) as [Hticker|_];
    [|by eapply gate_free_can_step].
  destruct Hphase as [[_ [Hw|Hf]]|[_ Hh]];
    [|by eapply gate_free_can_step|by eapply holding_can_step].
  destruct o; try done.
  destruct (decide (0 < sem_value st)%Z) as [Hpos|Hzero].
  { eexists. by eapply step_acquire. }
  pose proof (sound_counter _ _ _ _ Hs) as Hcount.
  destruct (holders st) as [|j hs] eqn:Hh; [simpl in Hcount; lia|].
  assert (j ∈ holders st) as Hj by (rewrite Hh; apply elem_of_cons; by left).
  pose proof (sound_tickers _ _ _ _ Hs j Hj) as Hjt.
  assert (j < length (tasks st)) as Hjl.
  { rewrite (sound_length _ _ _ _ Hs). unfold all_posts.
    rewrite length_app, length_map. lia. }
  apply lookup_lt_is_Some in Hjl as [q Hq].
  assert (j < length (all_posts fl watchlist)) as Hjp.
  { rewrite <- (sound_length _ _ _ _ Hs). by eapply lookup_lt_Some. }
  apply lookup_lt_is_Some in Hjp as [Q HQ].
  pose proof (sound_tasks _ _ _ _ Hs j _ Q Hq HQ) as Hphase.
  destruct (decide (j < length watchlist)); [|done].
  destruct Hphase as [[Hout _]|[_ Hin]]; [done|].
  by eapply holding_can_step.
Qed.






























(** * The Vital Knowledge connector of one ticker *)






(** * The connector of Google News *)

Section GoogleNews.
Import googlenews.

Lemma news_holds_runs {A : Type} (p : prog A) Q tr res :
  holds p Q -> runs p tr res -> Q tr res.
Proof.
  revert Q tr. induction p as [a|e|o k IH]; intros Q tr; simpl.
  - by intros HQ [-> ->].
  - by intros HQ [-> ->].
  - intros HQ (r & tr' & -> & Hk). by apply (IH r _ _ (HQ r)).
Qed.

Lemma news_exec_from_runs {A : Type} (w : world) (p : prog A) n :
  runs p (exec_from w n p).1 (exec_from w n p).2.
Proof.
  revert n. induction p as [a|e|o k IH]; intros n; simpl; [done..|].
  specialize (IH (w n o) (S n)).
  destruct (exec_from w (S n) (k (w n o))) as [tr res].
  exists (w n o), tr. done.
Qed.

Lemma news_holds_mono {A : Type} (p : prog A)
    (Q Q' : list event -> result A -> Prop) :
  (∀ tr res, Q tr res -> Q' tr res) -> holds p Q -> holds p Q'.
Proof.
  revert Q Q'. induction p as [a|e|o k IH]; intros Q Q' HQ; simpl; auto.
  intros H r. eapply IH; [|apply H]. intros tr res. apply HQ.
Qed.

Lemma news_holds_bind {A B : Type} (p : prog A) (f : A -> prog B) Q :
  holds p (fun tr1 r =>
             match r with
             | Ok a => holds (f a) (fun tr2 res => Q (tr1 ++ tr2) res)
             | Raised e => Q tr1 (Raised e)
             end) ->
  holds (p ≫= f) Q.
Proof.
  change (p ≫= f) with (bind p f).
  revert Q. induction p as [a|e|o k IH]; intros Q; simpl; auto.
Qed.

Lemma news_holds_try_except {A : Type} (p : prog A) (h : exn -> prog A) Q :
  holds p (fun tr1 r =>
             match r with
             | Ok a => Q tr1 (Ok a)
             | Raised e => holds (h e) (fun tr2 res => Q (tr1 ++ tr2) res)
             end) ->
  holds (try_except p h) Q.
Proof.
  revert Q. induction p as [a|e|o k IH]; intros Q; simpl; auto.
Qed.

Lemma news_holds_attempt {A : Type} (p : prog A)
    (Q : list event -> result (result A) -> Prop) :
  holds p (fun tr r => Q tr (Ok r)) -> holds (attempt p) Q.
Proof.
  intros H. unfold attempt. apply news_holds_try_except.
  change (bind p (fun a => Ret (Ok a))) with (p ≫= fun a => Ret (Ok a)).
  apply news_holds_bind. eapply news_holds_mono; [|apply H].
  intros tr [a|e] HQ; simpl; by rewrite app_nil_r.
Qed.

Lemma news_holds_print (line : string)
    (Q : list event -> result unit -> Prop) :
  Q [Ev (Print line) tt] (Ok tt) -> holds (print line) Q.
Proof. intros HQ []. exact HQ. Qed.

Lemma news_quiet_app (tr1 tr2 : list event) :
  quiet tr1 -> quiet tr2 -> quiet (tr1 ++ tr2).
Proof. intros H1 H2. by apply Forall_app. Qed.

Ltac news_leaf :=
  split; [repeat constructor|].

(** A visit adds one story, that of its article. *)
Lemma news_visit (page : Page) (ticker : string) (total : Z) (i : nat)
    (article : ArticleLink) (stories : list GoogleNewsStory) :
  holds (visit page ticker total (i, article) stories)
    (fun tr res =>
       quiet tr
       ∧ ∃ story, res = Ok (stories ++ [story]) ∧ story_of article story).
Proof.
  unfold visit. simpl. intros [] [] [[]|e]; simpl.
  - intros [] [summary_data|e]; simpl.
    + intros final_url []. news_leaf. by eexists.
    + intros []. news_leaf. by eexists.
  - intros []. news_leaf. by eexists.
Qed.

Lemma news_visits (page : Page) (ticker : string) (total : Z)
    (numbered : list (nat * ArticleLink)) (stories : list GoogleNewsStory) :
  holds (for_each numbered (visit page ticker total) stories)
    (fun tr res =>
       quiet tr
       ∧ ∃ new, res = Ok (stories ++ new)
                ∧ Forall2 story_of numbered.*2 new).
Proof.
  revert stories. induction numbered as [|[i article] l IH]; intros stories.
  - simpl. split; [constructor|]. exists []. by rewrite app_nil_r.
  - change (for_each ((i, article) :: l) (visit page ticker total) stories)
      with (visit page ticker total (i, article) stories
              ≫= for_each l (visit page ticker total)).
    apply news_holds_bind. eapply news_holds_mono; [|apply news_visit].
    intros tr1 res (Hq & story & -> & Hs).
    eapply news_holds_mono; [|apply IH].
    intros tr2 res (Hq2 & new & -> & Hn).
    split; [by apply news_quiet_app|]. exists (story :: new).
    split; [by rewrite <- app_assoc|]. by constructor.
Qed.

Lemma news_filter_nonempty {X : Type} (P : X -> Prop) `{!∀ x, Decision (P x)}
    (l : list X) :
  filter P l ≠ [] -> Exists P l.
Proof.
  destruct (filter P l) as [|x k] eqn:E; [done|]. intros _.
  assert (x ∈ filter P l) as Hx by (rewrite E; apply elem_of_cons; by left).
  apply list_elem_of_filter in Hx as [HP Hx]. apply Exists_exists. eauto.
Qed.

Lemma news_overall_summary (page : Page) (ticker : string)
    (stories : list GoogleNewsStory) :
  holds (overall_summary page ticker stories)
    (fun tr res =>
       quiet tr
       ∧ ∃ overall, res = Ok overall
                    ∧ (is_Some overall ->
                       Exists (fun s => usable s = true) stories)).
Proof.
  unfold overall_summary. simpl. intros [].
  destruct (filter (fun s => usable s = true) stories) as [|s l] eqn:E.
  { simpl. news_leaf. exists None. split; [done|]. by intros [? ?]. }
  assert (Exists (fun s => usable s = true) stories) as Hex
    by (apply (news_filter_nonempty (fun s => usable s = true));
        by rewrite E).
  destruct (join nl _) as [|c rest]; simpl.
  - news_leaf. by exists None.
  - intros [overall|e]; simpl.
    + news_leaf. by exists overall.
    + intros []. news_leaf. by exists None.
Qed.

Lemma news_wrap_up (page : Page) (ticker : string)
    (stories : list GoogleNewsStory) :
  holds (wrap_up page ticker stories)
    (fun tr res =>
       quiet tr
       ∧ ∃ r, res = Ok r
              ∧ gn_ticker r = upper ticker ∧ gn_stories r = stories
              ∧ (is_Some (gn_news_summary r) ->
                 Exists (fun s => usable s = true) stories)).
Proof.
  unfold wrap_up. apply news_holds_bind, news_holds_print. cbv beta iota.
  apply news_holds_bind.
  eapply news_holds_mono; [|apply news_overall_summary].
  intros tr1 res (Hq & overall & -> & Ho).
  apply news_holds_bind, news_holds_print. cbv beta iota. simpl.
  split.
  - constructor; [done|]. apply news_quiet_app; [done|]. by repeat constructor.
  - by eexists.
Qed.

Ltac news_in :=
  repeat first [apply elem_of_cons; left; reflexivity
               |apply elem_of_cons; right].

Lemma news_find_articles (page : Page) (url : string)
    (max_stories max_days : Z) :
  holds (find_articles page url max_stories max_days)
    (fun tr res =>
       quiet tr
       ∧ match res with
         | Ok article_links =>
             ∃ metadata all_links,
               Ev (Extract page (TopHeadlines max_stories max_days)
                     SArticleLinks) (Ok (Some metadata)) ∈ tr
               ∧ Ev (Evaluate page CollectLinks) (Ok all_links) ∈ tr
               ∧ articles article_links
                 = match_articles (articles metadata) all_links
         | Raised _ => True
         end).
Proof.
  unfold find_articles. simpl. intros [[]|e]; simpl; [|by news_leaf].
  intros [] [] [metadata|e]; simpl; [|by news_leaf].
  intros [all_links|e]; simpl; [|by news_leaf].
  destruct metadata as [metadata|]; simpl; [|by news_leaf].
  intros []. news_leaf. exists metadata, all_links.
  split_and!; [news_in..|done].
Qed.

Lemma news_scrape (page : Page) (ticker url : string)
    (max_stories max_days : Z) :
  holds (scrape page ticker url max_stories max_days)
    (fun tr res =>
       quiet tr
       ∧ ∃ stories outcome,
           res = Ok (stories, outcome)
           ∧ match outcome with
             | Raised _ => stories = []
             | Ok r =>
                 gn_ticker r = upper ticker ∧ gn_stories r = stories
                 ∧ (is_Some (gn_news_summary r) ->
                    Exists (fun s => usable s = true) stories)
                 ∧ ∃ metadata all_links,
                     Ev (Extract page (TopHeadlines max_stories max_days)
                           SArticleLinks) (Ok (Some metadata)) ∈ tr
                     ∧ Ev (Evaluate page CollectLinks) (Ok all_links) ∈ tr
                     ∧ Forall2 story_of
                         (slice_to max_stories
                            (match_articles (articles metadata) all_links))
                         stories
             end).
Proof.
  unfold scrape. apply news_holds_bind, news_holds_attempt, news_holds_bind.
  eapply news_holds_mono; [|apply news_find_articles].
  intros tr1 [article_links|e] [Hq H].
  2: { simpl. rewrite app_nil_r. split; [done|]. by eexists _, _. }
  destruct H as (metadata & all_links & Hm & Hl & Ha).
  apply news_holds_bind, news_holds_print. cbv beta iota.
  cbn [holds mret prog_ret]. cbv beta iota.
  apply news_holds_bind.
  eapply news_holds_mono; [|apply news_visits].
  intros tr2 res (Hq2 & new & -> & Hn).
  apply news_holds_bind, news_holds_attempt.
  eapply news_holds_mono; [|apply news_wrap_up].
  intros tr3 res (Hq3 & r & -> & Ht & Hs & Hu). simpl.
  split.
  { rewrite app_nil_r. repeat apply news_quiet_app; try done.
    by repeat constructor. }
  exists new, (Ok r). split; [done|]. split_and!; [done..|].
  exists metadata, all_links. split_and!.
  - rewrite !elem_of_app. auto.
  - rewrite !elem_of_app. auto.
  - rewrite <- Ha. rewrite snd_zip in Hn; [done|]. by rewrite length_seq.
Qed.

(** The two ways the connector ends: with what its [try] block returns,
    or with the empty result of its [except] clause. *)
Lemma news_fetch (page : Page) (ticker : string) (max_stories max_days : Z) :
  holds (fetch_google_news_stories page ticker max_stories max_days)
    (fun tr res =>
       ∃ r, res = Ok r
         ∧ gn_ticker r = upper ticker
         ∧ (is_Some (gn_news_summary r) ->
            Exists (fun s => usable s = true) (gn_stories r))
         ∧ ((quiet tr
             ∧ ∃ metadata all_links,
                 Ev (Extract page (TopHeadlines max_stories max_days)
                       SArticleLinks) (Ok (Some metadata)) ∈ tr
                 ∧ Ev (Evaluate page CollectLinks) (Ok all_links) ∈ tr
                 ∧ Forall2 story_of
                     (slice_to max_stories
                        (match_articles (articles metadata) all_links))
                     (gn_stories r))
            ∨ (gn_stories r = [] ∧ gn_news_summary r = None
               ∧ ∃ e tr0,
                   quiet tr0
                   ∧ tr = tr0
                          ++ [Ev (Print ("[GoogleNews] Fatal error for "
                                         +:+ ticker +:+ ": " +:+ exn_msg e)) tt;
                              Ev (Print "[GoogleNews] No stories collected, returning empty result") tt]))).
Proof.
  unfold fetch_google_news_stories. cbv zeta.
  apply news_holds_bind, news_holds_print. cbv beta iota.
  apply news_holds_bind, news_holds_print. cbv beta iota.
  apply news_holds_bind.
  eapply news_holds_mono; [|apply news_scrape].
  intros tr1 res (Hq & stories & [r|e] & -> & H).
  - destruct H as (Ht & <- & Hu & metadata & all_links & Hm & Hl & Hs).
    simpl. exists r. split_and!; [done..|]. left. split.
    + rewrite app_nil_r. repeat constructor. exact Hq.
    + exists metadata, all_links. rewrite app_nil_r.
      split_and!; [by news_in..|done].
  - subst stories. simpl. intros [] [].
    eexists. split_and!; [done|done|by intros [? ?]|]. right.
    split_and!; [done..|].
    exists e. eexists (_ :: _ :: tr1). split; [|simpl; reflexivity].
    by repeat constructor.
Qed.



Lemma news_slice_to_length {X : Type} (n : Z) (l : list X) :
  (0 <= n)%Z -> length (slice_to n l) <= Z.to_nat n.
Proof.
  intros Hn. unfold slice_to.
  destruct (0 <=? n)%Z eqn:E; [|lia]. rewrite length_take. lia.
Qed.

(** X17. [fetch_google_news_stories] never raises and never returns
    [None]: every run returns a [GoogleNewsTopStories] under the ticker
    in upper case. With a [max_stories] that is not negative it holds
    [max_stories] stories at most; it has an overall summary only when
    some story has a summary that does not start with [Error]. *)
Theorem news_connector_always_returns (page : Page) (ticker : string)
    (max_stories max_days : Z) tr res :
  runs (fetch_google_news_stories page ticker max_stories max_days) tr res ->
  ∃ r, res = Ok r
    ∧ gn_ticker r = upper ticker
    ∧ ((0 <= max_stories)%Z ->
       length (gn_stories r) <= Z.to_nat max_stories)
    ∧ (is_Some (gn_news_summary r) ->
       Exists (fun s => usable s = true) (gn_stories r)).
Proof.
  intros H. apply (news_holds_runs _ _ _ _ (news_fetch _ _ _ _)) in H
    as (r & -> & Ht & Hu & H).
  exists r. split_and!; [done..| |done]. intros Hn.
  destruct H as [(_ & metadata & all_links & _ & _ & Hs)|(-> & _)];
    [|simpl; lia].
  apply Forall2_length in Hs. rewrite <- Hs. by apply news_slice_to_length.
Qed.

(** X18. The stories returned are the headlines that [page.extract]
    found and for which the page has a link whose text holds their
    first 30 characters, in order, cut at [max_stories]: one story per
    such article, with its headline, source and age, whether its page
    could be read or not. Otherwise the [except] clause has printed its
    line and the result has no story and no summary. *)
Theorem stories_follow_the_matched_articles (page : Page) (ticker : string)
    (max_stories max_days : Z) tr r :
  runs (fetch_google_news_stories page ticker max_stories max_days) tr (Ok r) ->
  (∃ metadata all_links,
     Ev (Extract page (TopHeadlines max_stories max_days) SArticleLinks)
        (Ok (Some metadata)) ∈ tr
     ∧ Ev (Evaluate page CollectLinks) (Ok all_links) ∈ tr
     ∧ Forall2 story_of
         (slice_to max_stories (match_articles (articles metadata) all_links))
         (gn_stories r))
  ∨ (gn_stories r = [] ∧ gn_news_summary r = None
     ∧ ∃ e, ("[GoogleNews] Fatal error for " +:+ ticker +:+ ": "
             +:+ exn_msg e) ∈ log tr).
Proof.
  intros H. apply (news_holds_runs _ _ _ _ (news_fetch _ _ _ _)) in H
    as (r' & Hr & _ & _ & H). injection Hr as <-.
  destruct H as [(_ & H)|(Hs & Hn & e & tr0 & _ & ->)]; [by left|].
  right. split_and!; [done..|]. exists e.
  unfold log. rewrite omap_app, elem_of_app. right.
  apply elem_of_cons. by left.
Qed.


End GoogleNews.

End Properties.

(** * The pipeline on the sample watchlist *)

#[export] Existing Instance sample.
#[export] Existing Instance sample_library.

(** Yahoo's quote is down for AAPL: the analysis is fetched all the same. *)
Lemma process_ticker_contains_failures_witness :
  ∃ tr res (it : item),
    runs (process_ticker "AAPL" true true false false
            true) tr res
    ∧ res = Ok it
    ∧ item_quote it = None
    ∧ item_error it = Some "YahooQuote failed"
    ∧ ∃ before tr_s after,
        tr = before ++ tr_s ++ after
        ∧ source_scoped YahooAI "AAPL" tr_s (Ok (item_analysis it)).
Proof.
  pose (run := exec quote_down
                 (process_ticker "AAPL" true true
                    false false true)).
  assert (runs (process_ticker "AAPL" true true false
                  false true) run.1 run.2) as Hrun by apply exec_from_runs.
  destruct (process_ticker_contains_failures "AAPL"
              true true false false true _ _ Hrun)
    as (it & Hres & _ & _ & Hoff & Hon & Herr).
  exists run.1, run.2, it. split; [exact Hrun|]. split; [exact Hres|].
  assert (it = sample_item "AAPL" None
                 (Some {| ya_ticker := "AAPL"; ya_title := Some "Outlook";
                          ya_summary := Some "Steady"; ya_bullets := ["Up"] |}))
    as Hit by (vm_compute in Hres; by injection Hres as <-).
  split; [by rewrite Hit|]. split; [by rewrite Hit|].
  exact (Hon YahooAI eq_refl).
Defined.

(** The close raises after the quote was fetched: the quote is returned. *)
Lemma session_closed_on_every_path_witness :
  ∃ tr res,
    runs (_run_source_with_session "YahooQuote" "AAPL"
            (fetch_yahoo_quote)) tr res
    ∧ res = Ok (Some "quote of AAPL")
    ∧ Print "[WARN] Error closing YahooQuote session for AAPL: Timeout 15000ms exceeded"
      ∈ calls tr
    ∧ scoped (fun page => fetch_yahoo_quote page "AAPL") id None
        (fun e => "[ERROR] " +:+ "AAPL" +:+ " " +:+ "YahooQuote" +:+ " failed: "
                  +:+ exn_msg e)
        ("YahooQuote" +:+ " session for " +:+ "AAPL") tr res.
Proof.
  pose (p := _run_source_with_session "YahooQuote" "AAPL"
               (fetch_yahoo_quote)).
  exists (exec close_down p).1, (exec close_down p).2.
  split; [apply exec_from_runs|]. split; [vm_compute; reflexivity|].
  split.
  - apply list_elem_of_lookup. exists 17. vm_compute. reflexivity.
  - apply (proj1 (session_closed_on_every_path "YahooQuote" "AAPL"
                    fetch_yahoo_quote)).
    apply exec_from_runs.
Defined.

(** msft has no quote: it is skipped, AAPL alone reaches the report. *)
Lemma quoteless_tickers_excluded_witness :
  ∃ tr res typed_items,
    runs (typed_items_of sample_results) tr res
    ∧ res = Ok typed_items
    ∧ map entry_quote typed_items = ["quote of AAPL"]
    ∧ "[WARN] Skipping msft in report (no quote data)" ∈ log tr.
Proof.
  pose (run := exec fair (typed_items_of sample_results)).
  assert (runs (typed_items_of sample_results) run.1 run.2) as Hrun
    by apply exec_from_runs.
  destruct (proj1 (quoteless_tickers_excluded all_on "2025-11-20"
                     sample_results None) _ _ Hrun)
    as (typed_items & Hres & _ & Hq & Hlog).
  exists run.1, run.2, typed_items. split; [exact Hrun|]. split; [exact Hres|].
  split; [exact Hq|].
  apply (Hlog (sample_item "msft" None None)); [|reflexivity].
  apply elem_of_cons. right. apply elem_of_cons. by left.
Defined.

(** AAPL has a quote and no analysis: it gets the empty analysis. *)
Lemma missing_analysis_falls_back_witness :
  ∃ tr res typed_items,
    runs (typed_items_of sample_results) tr res
    ∧ res = Ok typed_items
    ∧ ("quote of AAPL", empty_analysis "AAPL", None, None, None) ∈ typed_items.
Proof.
  pose (run := exec fair (typed_items_of sample_results)).
  assert (runs (typed_items_of sample_results) run.1 run.2) as Hrun
    by apply exec_from_runs.
  destruct (missing_analysis_falls_back sample_results
              (sample_item "AAPL" (Some "quote of AAPL") None) "quote of AAPL"
              _ _ Hrun ltac:(apply elem_of_cons; by left) eq_refl eq_refl)
    as (typed_items & Hres & Hin & _).
  exists run.1, run.2, typed_items. auto.
Defined.

(** The credentials are missing: the connector raises in its login phase
    and the batch task returns the empty mapping. *)
Lemma batch_failure_is_contained_witness :
  ∃ tr res,
    runs (_run_vital_knowledge_batch
            ["AAPL"]) tr res
    ∧ res = Ok ∅
    ∧ scoped (batch_mapping ["AAPL"]) id ∅
        (fun e => "[ERROR] Vital Knowledge batch failed: " +:+ exn_msg e)
        "Vital Knowledge batch session" tr res.
Proof.
  pose (p := _run_vital_knowledge_batch
               ["AAPL"]).
  exists (exec no_credentials p).1, (exec no_credentials p).2.
  split; [apply exec_from_runs|]. split; [vm_compute; reflexivity|].
  apply (proj1 (batch_failure_is_contained ["AAPL"])).
  apply exec_from_runs.
Defined.

(** The click on "morning" times out, inside the [try] block of the
    connector: the batch task returns a mapping that is not empty, and the
    merge gives AAPL a report, not a null. *)
Lemma batch_mapping_not_empty_after_failure :
  ∃ tr mapping page,
    runs (_run_vital_knowledge_batch
            ["AAPL"])
         tr (Ok mapping)
    ∧ tr !! 27
      = Some (Ev (Act page "Click on the 'morning' link or button in the navigation")
                 (Raised boom))
    ∧ mapping ≠ ∅
    ∧ mapping !! "AAPL" = Some (VitalKnowledgeReport_default "AAPL")
    ∧ item_vital_knowledge
        (merged mapping (sample_item "AAPL" (Some "quote of AAPL") None))
      = Some (VitalKnowledgeReport_default "AAPL").
Proof.
  eexists _, _, _. split.
  { apply (exec_runs morning_click_down). vm_compute. reflexivity. }
  split; [vm_compute; reflexivity|]. split.
  { intros H. apply (f_equal (fun m => m !! "AAPL")) in H.
    vm_compute in H. discriminate. }
  split; vm_compute; reflexivity.
Defined.

(** The mapping has a report for AAPL and none for msft. *)
Lemma merge_keeps_every_ticker_witness :
  ∃ tr res merged_results,
    runs (merge_vital_knowledge all_on sample_results
            (Some (by_ticker [VitalKnowledgeReport_default "AAPL"]))) tr res
    ∧ res = Ok merged_results
    ∧ map item_ticker merged_results = ["AAPL"; "msft"].
Proof.
  pose (p := merge_vital_knowledge all_on sample_results
               (Some (by_ticker [VitalKnowledgeReport_default "AAPL"]))).
  destruct (merge_keeps_every_ticker all_on sample_results
              (Some (by_ticker [VitalKnowledgeReport_default "AAPL"]))
              (exec fair p).1 (exec fair p).2 (exec_from_runs fair p 0))
    as (merged_results & Hres & Ht & _).
  exists (exec fair p).1, (exec fair p).2, merged_results.
  split; [apply exec_from_runs|]. split; [exact Hres|exact Ht].
Defined.

(** The batch failed and the mapping is empty: AAPL is not in it, the
    merge does not run, and no line says that AAPL has no data. *)
Lemma merge_skipped_without_diagnostic :
  ∃ tr,
    runs (merge_vital_knowledge all_on
            [sample_item "AAPL" (Some "quote of AAPL") None] (Some ∅))
         tr (Ok [sample_item "AAPL" (Some "quote of AAPL") None])
    ∧ (∅ : gmap string VitalKnowledgeReport) !! "AAPL" = None
    ∧ "[WARN] AAPL: No Vital Knowledge data from batch" ∉ log tr.
Proof.
  exists []. split; [|split].
  - apply (exec_runs fair). vm_compute. reflexivity.
  - apply lookup_empty.
  - apply not_elem_of_nil.
Defined.

(** The batch task moves first and the tickers last, one at a time. *)
Lemma results_follow_watchlist_witness :
  ∃ st res (results : list item),
    reachable 1 (all_tasks yahoo_only ["AAPL"; "msft"])
      st
    ∧ gather st = Some res
    ∧ (∃ macro_news_result batch,
         res = Ok (gathered yahoo_only results macro_news_result batch))
    ∧ map item_ticker results = ["AAPL"; "msft"].
Proof.
  pose (st := run_schedule fair (concat (replicate 150 [3; 2; 1; 0]))
                (launch 1 (all_tasks yahoo_only
                             ["AAPL"; "msft"]))).
  assert (reachable 1
            (all_tasks yahoo_only ["AAPL"; "msft"]) st)
    as Hst by (apply run_schedule_reachable, rtc_refl).
  destruct (gather st) as [res|] eqn:Hg; [|vm_compute in Hg; discriminate].
  destruct (results_follow_watchlist yahoo_only
              ["AAPL"; "msft"] 1 st res Hst Hg)
    as (all_results & results & m & b & -> & -> & Ht & _).
  exists st, (Ok (gathered yahoo_only results m b)), results. eauto 10.
Defined.

(** Five rounds in: the first ticker holds the gate, the second waits. *)
Lemma gate_never_exceeds_ceiling_witness :
  ∃ st : loop_state,
    reachable 1 (all_tasks yahoo_only ["AAPL"; "msft"])
      st
    ∧ holders st = [0]
    ∧ (Z.of_nat (length (holders st)) <= 1)%Z.
Proof.
  pose (st := run_schedule fair (concat (replicate 5 [0; 1; 2; 3]))
                (launch 1 (all_tasks yahoo_only
                             ["AAPL"; "msft"]))).
  assert (reachable 1
            (all_tasks yahoo_only ["AAPL"; "msft"]) st)
    as Hst by (apply run_schedule_reachable, rtc_refl).
  exists st. split; [exact Hst|]. split; [vm_compute; reflexivity|].
  apply (gate_never_exceeds_ceiling yahoo_only
           ["AAPL"; "msft"] 1 st); [lia|exact Hst].
Defined.

(** Two tickers, one of them in lower case. *)
Lemma batch_returns_one_report_per_ticker_witness :
  ∃ tr reports,
    runs (fetch_vital_knowledge_headlines_batch sample_page ["AAPL"; "msft"])
         tr (Ok reports)
    ∧ map vk_ticker reports = ["AAPL"; "MSFT"]
    ∧ one_per_ticker ["AAPL"; "msft"] reports.
Proof.
  pose (p := fetch_vital_knowledge_headlines_batch sample_page
               ["AAPL"; "msft"]).
  destruct (exec fair p).2 as [reports|e] eqn:Hres;
    [|vm_compute in Hres; discriminate].
  assert (runs p (exec fair p).1 (Ok reports)) as Hrun
    by (rewrite <- Hres; apply exec_from_runs).
  destruct (batch_returns_one_report_per_ticker sample_page ["AAPL"; "msft"]
              _ _ Hrun) as [_ Hone].
  exists (exec fair p).1, reports. split; [exact Hrun|].
  split; [|exact Hone]. by destruct Hone as (_ & -> & _).
Defined.

(** The click on "market close" times out after the morning report was
    read: the summary returned is empty. *)
Lemma macro_failure_returns_empty_summary_witness :
  ∃ tr,
    runs (fetch_macro_news sample_page)
         tr (Ok MacroNewsSummary_default)
    ∧ Extract sample_page MacroMorning SMacroExtract ∈ calls tr
    ∧ macro_fetch sample_page tr (Ok MacroNewsSummary_default).
Proof.
  pose (p := fetch_macro_news sample_page).
  assert (runs p (exec market_close_click_down p).1 (Ok MacroNewsSummary_default))
    as Hrun.
  { apply (exec_runs market_close_click_down). vm_compute. reflexivity. }
  exists (exec market_close_click_down p).1. split; [exact Hrun|]. split.
  - apply list_elem_of_lookup. exists 24. vm_compute. reflexivity.
  - by apply (proj1 (macro_failure_returns_empty_summary sample_page)).
Defined.

(** The variable holds [Yes] between two spaces: the source is on. *)
Lemma env_flag_reads_five_words_witness :
  ∃ tr res,
    runs (_env_flag "ENABLE_GOOGLE_NEWS" false) tr res
    ∧ tr = [Ev (Getenv "ENABLE_GOOGLE_NEWS") (Some " Yes ")]
    ∧ res = Ok true
    ∧ ∃ raw b,
        tr = [Ev (Getenv "ENABLE_GOOGLE_NEWS") raw] ∧ res = Ok b
        ∧ match raw with
          | None => b = false
          | Some s =>
              isascii s = true ->
              b = true ↔
              ∃ pad1 word pad2,
                s = pad1 +:+ word +:+ pad2
                ∧ blank pad1 = true ∧ blank pad2 = true
                ∧ lower word ∈ ["1"; "true"; "yes"; "y"; "on"]
          end.
Proof.
  pose (run := exec flag_padded (_env_flag "ENABLE_GOOGLE_NEWS" false)).
  assert (runs (_env_flag "ENABLE_GOOGLE_NEWS" false) run.1 run.2) as Hrun
    by apply exec_from_runs.
  exists run.1, run.2. split; [exact Hrun|].
  split; [vm_compute; reflexivity|]. split; [vm_compute; reflexivity|].
  exact (env_flag_reads_five_words "ENABLE_GOOGLE_NEWS" false _ _ Hrun).
Defined.


(** [STAGEHAND_VERBOSE] holds a word: no browser is started. *)
Lemma bad_integer_setting_stops_session_witness :
  ∃ tr res,
    runs create_stagehand_session tr res
    ∧ Ev (Getenv "STAGEHAND_VERBOSE") (Some "two") ∈ tr
    ∧ int_of_string "two" = None
    ∧ (∃ e, res = Raised e ∧ exn_class e = "ValueError")
    ∧ Forall (fun e => is_env (ev_op e) = true) tr.
Proof.
  pose (run := exec verbose_garbled create_stagehand_session).
  assert (runs create_stagehand_session run.1 run.2) as Hrun
    by apply exec_from_runs.
  assert (Ev (Getenv "STAGEHAND_VERBOSE") (Some "two") ∈ run.1) as Hin.
  { apply list_elem_of_lookup. exists (pred (length run.1)).
    vm_compute. reflexivity. }
  assert (int_of_string "two" = None) as Hint by reflexivity.
  exists run.1, run.2. split; [exact Hrun|]. split; [exact Hin|].
  split; [exact Hint|].
  exact (bad_integer_setting_stops_session _ _ "two" Hrun (or_introl Hin) Hint).
Defined.

(** [init] raises: the wrapper returns [None] and closes nothing. *)
Lemma failed_init_is_never_closed_witness :
  ∃ tr res,
    runs (_run_source_with_session "YahooQuote" "AAPL" fetch_yahoo_quote)
      tr res
    ∧ (∀ ev, ev ∈ tr -> initialised ev = false)
    ∧ res = Ok None ∧ ∀ sh, Close sh ∉ calls tr.
Proof.
  pose (p := _run_source_with_session "YahooQuote" "AAPL" fetch_yahoo_quote).
  pose (run := exec init_down p).
  assert (runs p run.1 run.2) as Hrun by apply exec_from_runs.
  assert (∀ ev, ev ∈ run.1 -> initialised ev = false) as Hno.
  { apply Forall_forall. vm_compute. repeat constructor. }
  exists run.1, run.2. split; [exact Hrun|]. split; [exact Hno|].
  exact (proj1 failed_init_is_never_closed _ "YahooQuote" "AAPL"
           fetch_yahoo_quote _ _ Hrun Hno).
Defined.

(** No credentials: the batch task gives the empty dict and visits no page. *)
Lemma missing_credentials_end_the_scrape_witness :
  ∃ tr res,
    runs (_run_vital_knowledge_batch ["AAPL"; "MSFT"]) tr res
    ∧ credentials_missing tr
    ∧ res = Ok ∅
    ∧ Forall (fun e => is_page_call (ev_op e) = false) tr
    ∧ "[ERROR] Vital Knowledge batch failed: Missing Vital_login or Vital_password in .env"
      ∈ log tr.
Proof.
  pose (p := _run_vital_knowledge_batch ["AAPL"; "MSFT"]).
  pose (run := exec no_credentials p).
  assert (runs p run.1 run.2) as Hrun by apply exec_from_runs.
  assert (credentials_missing run.1) as Hmiss
    by (apply credentials_missing_check; vm_compute; reflexivity).
  destruct (proj1 missing_credentials_end_the_scrape _ _ _ Hrun Hmiss)
    as (Hres & Hpage & Hlog).
  exists run.1, run.2. split; [exact Hrun|]. split; [exact Hmiss|].
  split; [exact Hres|]. split; [exact Hpage|].
  apply Hlog.
  assert (existsb initialised run.1 = true) as Hex by (vm_compute; reflexivity).
  apply existsb_exists in Hex as (ev & Hin & Hev).
  exists ev. split; [by apply list_elem_of_In|done].
Defined.



(** Every call succeeds for one ticker. *)
Lemma summary_only_with_headlines_witness :
  ∃ tr reports,
    runs (fetch_vital_knowledge_headlines_batch sample_page ["AAPL"])
      tr (Ok reports)
    ∧ Forall (fun r => (vk_headlines r = [] -> vk_summary r = None)
                       ∧ Forall bare (vk_headlines r))
        reports.
Proof.
  pose (p := fetch_vital_knowledge_headlines_batch sample_page ["AAPL"]).
  pose (run := exec fair p).
  assert (runs p run.1 run.2) as Hrun by apply exec_from_runs.
  assert (∃ reports, run.2 = Ok reports) as [reports Hres]
    by (vm_compute; eauto).
  rewrite Hres in Hrun.
  exists run.1, reports. split; [exact Hrun|].
  exact (summary_only_with_headlines _ _ _ _ Hrun).
Defined.


(** The watchlist spells the ticker in lower case: the key is in upper case and the item is not merged. *)
Lemma batch_mapping_is_keyed_in_upper_case_witness :
  ∃ tr mapping,
    runs (_run_vital_knowledge_batch ["aapl"]) tr (Ok mapping)
    ∧ is_Some (mapping !! "AAPL")
    ∧ merged mapping (sample_item "aapl" (Some "quote of aapl") None)
      = sample_item "aapl" (Some "quote of aapl") None.
Proof.
  pose (p := _run_vital_knowledge_batch ["aapl"]).
  pose (run := exec fair p).
  assert (runs p run.1 run.2) as Hrun by apply exec_from_runs.
  assert (∃ mapping, run.2 = Ok mapping ∧ is_Some (mapping !! "AAPL"))
    as (mapping & Hres & Hkey) by (vm_compute; eauto).
  rewrite Hres in Hrun.
  exists run.1, mapping. split; [exact Hrun|]. split; [exact Hkey|].
  apply (proj2 (batch_mapping_is_keyed_in_upper_case _ _ _ Hrun)).
  vm_compute. intros Hin. inversion Hin as [|? ? ? Hin']; subst.
  inversion Hin'.
Defined.

(** Two reports with two tickers. *)
Lemma last_report_of_a_ticker_wins_witness :
  NoDup (map vk_ticker (empty_reports ["AAPL"; "MSFT"]))
  ∧ ∀ r, r ∈ empty_reports ["AAPL"; "MSFT"] ->
         by_ticker (empty_reports ["AAPL"; "MSFT"]) !! vk_ticker r = Some r.
Proof.
  assert (NoDup (map vk_ticker (empty_reports ["AAPL"; "MSFT"]))) as Hnd
    by (apply (bool_decide_unpack (NoDup ["AAPL"; "MSFT"]));
        vm_compute; exact I).
  split; [exact Hnd|].
  exact (proj2 (last_report_of_a_ticker_wins _) Hnd).
Defined.

(** msft has no quote: it has its row in the Yahoo snapshot. *)
Lemma snapshots_keep_what_the_report_drops_witness :
  ∃ tr results rows,
    runs (main_after_gather all_on ["AAPL"; "msft"] "2025-11-20"
            (gathered all_on sample_results None (Some ∅))) tr (Ok tt)
    ∧ WriteText "data/snapshots/yahoo_snapshot_2025-11-20.json"
        (YahooSnapshot "2025-11-20" rows) ∈ calls tr
    ∧ map (fun row => row.1.1.1) rows = map item_ticker results
    ∧ map (fun row => row.1.2) rows = map item_quote results
    ∧ map item_quote results = [Some "quote of AAPL"; None].
Proof.
  pose (p := main_after_gather all_on ["AAPL"; "msft"] "2025-11-20"
               (gathered all_on sample_results None (Some ∅))).
  pose (run := exec fair p).
  assert (runs p run.1 run.2) as Hrun by apply exec_from_runs.
  assert (run.2 = Ok tt) as Hres by (vm_compute; reflexivity).
  rewrite Hres in Hrun.
  destruct (snapshots_keep_what_the_report_drops _ _ _ _ _ Hrun)
    as (results & rows & Hs & Hy & Ht & Hq & _).
  exists run.1, results, rows. split; [exact Hrun|]. split; [exact Hy|].
  split; [exact Ht|]. split; [exact Hq|].
  change (map item_quote results) with (item_quote <$> results).
  assert (item_quote <$> results
          = omap (fun v => match v with
                           | TickerValue it => Some (item_quote it)
                           | _ => None
                           end) (map TickerValue results)) as ->.
  { clear. induction results as [|it l IH]; [done|]. cbn. f_equal. exact IH. }
  rewrite Hs. reflexivity.
Defined.

(** The disk is full: the first write is the last call. *)
Lemma failed_write_ends_main_witness :
  ∃ tr res tr1 failed e,
    runs (main_after_gather all_on ["AAPL"; "msft"] "2025-11-20"
            (gathered all_on sample_results None (Some ∅))) tr res
    ∧ tr = tr1 ++ [failed]
    ∧ is_write (ev_op failed) = true
    ∧ event_exn failed = Some e
    ∧ exn_class e = "OSError"
    ∧ res = Raised e.
Proof.
  pose (p := main_after_gather all_on ["AAPL"; "msft"] "2025-11-20"
               (gathered all_on sample_results None (Some ∅))).
  pose (run := exec disk_full p).
  assert (runs p run.1 run.2) as Hrun by apply exec_from_runs.
  pose (e := Exn "OSError" "No space left on device").
  pose (failed :=
          Ev (WriteText "data/snapshots/yahoo_snapshot_2025-11-20.json"
                (YahooSnapshot "2025-11-20"
                   [("AAPL", None, Some "quote of AAPL", None);
                    ("msft", Some "YahooQuote failed", None, None)]))
             (Raised e)).
  assert (run.1 = removelast run.1 ++ failed :: []) as Htr
    by (vm_compute; reflexivity).
  assert (is_write (ev_op failed) = true) as Hw by reflexivity.
  assert (event_exn failed = Some e) as He by reflexivity.
  destruct (failed_write_ends_main _ _ _ _ _ _ _ _ _ _ Hrun Htr Hw He)
    as [_ Hres].
  exists run.1, run.2, (removelast run.1), failed, e.
  split; [exact Hrun|]. split; [exact Htr|]. split; [exact Hw|].
  split; [exact He|]. split; [reflexivity|exact Hres].
Defined.

(** Nothing is set: the ceiling is 2, and the tasks can start. *)
Lemma join_never_blocks_witness :
  ∃ tr res,
    runs _get_max_concurrent_browsers tr res
    ∧ res = Ok 2%Z
    ∧ ∃ max_concurrent,
        res = Ok max_concurrent
        ∧ ∀ st, reachable max_concurrent
                  (all_tasks all_on ["AAPL"; "msft"]) st ->
                gather st = None -> ∃ st', step st st'.
Proof.
  pose (run := exec fair _get_max_concurrent_browsers).
  assert (runs _get_max_concurrent_browsers run.1 run.2) as Hrun
    by apply exec_from_runs.
  exists run.1, run.2. split; [exact Hrun|].
  split; [vm_compute; reflexivity|].
  exact (join_never_blocks all_on ["AAPL"; "msft"] _ _ Hrun).
Defined.




(** * The connector of Google News on a sample page *)

Section GoogleNewsSample.
Import googlenews.

(** One of the two headlines has a link: one story, with its summary. *)
Lemma news_connector_always_returns_witness :
  ∃ tr res,
    runs (fetch_google_news_stories sample_page "aapl" 5 2) tr res
    ∧ ∃ r, res = Ok r
        ∧ gn_ticker r = "AAPL"
        ∧ length (gn_stories r) = 1
        ∧ ((0 <= 5)%Z -> length (gn_stories r) <= Z.to_nat 5)
        ∧ (is_Some (gn_news_summary r) ->
           Exists (fun s => usable s = true) (gn_stories r)).
Proof.
  pose (p := fetch_google_news_stories sample_page "aapl" 5 2).
  pose (run := exec news_fair p).
  assert (runs p run.1 run.2) as Hrun by apply news_exec_from_runs.
  destruct (news_connector_always_returns _ _ _ _ _ _ Hrun)
    as (r & Hres & Ht & Hlen & Hsum).
  exists run.1, run.2. split; [exact Hrun|]. exists r.
  split; [exact Hres|]. split; [exact Ht|].
  split; [|split; [exact Hlen|exact Hsum]].
  vm_compute in Hres. by injection Hres as <-.
Defined.

(** The story keeps the headline, the source and the age of its article. *)
Lemma stories_follow_the_matched_articles_witness :
  ∃ tr r,
    runs (fetch_google_news_stories sample_page "aapl" 5 2) tr (Ok r)
    ∧ map gns_headline (gn_stories r) = ["Apple beats estimates"]
    ∧ ((∃ metadata all_links,
          Ev (Extract sample_page (TopHeadlines 5 2) SArticleLinks)
             (Ok (Some metadata)) ∈ tr
          ∧ Ev (Evaluate sample_page CollectLinks) (Ok all_links) ∈ tr
          ∧ Forall2 story_of
              (slice_to 5 (match_articles (articles metadata) all_links))
              (gn_stories r))
       ∨ (gn_stories r = [] ∧ gn_news_summary r = None
          ∧ ∃ e, ("[GoogleNews] Fatal error for " +:+ "aapl" +:+ ": "
                  +:+ exn_msg e) ∈ log tr)).
Proof.
  pose (p := fetch_google_news_stories sample_page "aapl" 5 2).
  pose (run := exec news_fair p).
  assert (runs p run.1 run.2) as Hrun by apply news_exec_from_runs.
  assert (∃ r, run.2 = Ok r
               ∧ map gns_headline (gn_stories r) = ["Apple beats estimates"])
    as (r & Hres & Hh) by (vm_compute; eauto).
  rewrite Hres in Hrun.
  exists run.1, r. split; [exact Hrun|]. split; [exact Hh|].
  exact (stories_follow_the_matched_articles _ _ _ _ _ _ Hrun).
Defined.


End GoogleNewsSample.
